(** * NewsRiver client: identity, conflict resolution, first-seen ordering

    A shallow embedding of the de-duplication and ordering core of
    [assets/app.js] (the revision with the multi-signal identity key), and
    the properties its specification states about it.

    Conventions of the embedding.
    - A JavaScript string is a [string]: the sequence of the bytes of its
      UTF-8 encoding.  Every string operation the program performs looks
      for ASCII characters only (or for the dashes and white space of one
      regular expression, which are matched as their UTF-8 bytes).
    - A JavaScript number is a [num]: an integer or [NaN].  Fractions and
      infinities are outside the model; the counter and the sequence
      numbers the program writes are integers.  The one sum the program
      computes, [counter + 1], is rounded as a double rounds it
      ([to_double]): it is exact up to 2^53 and not beyond.
    - An optional property of an object is an [option]; JavaScript's
      truthiness of a string property ("present and non-empty") is
      [truthy].
    - The built-ins the program calls and that the language leaves to the
      host ([new URL], [Date.parse], [JSON.parse], [JSON.stringify],
      the number a string, an array or an object converts to) are the
      operations of the class [Platform]; every general theorem holds for
      every platform.
    - A built-in or a function of the program that can throw returns an
      [option], [None] standing for the exception. *)

From Stdlib Require Import ZArith Ascii String List Bool Sorting.Sorted Permutation.
From stdpp Require Import base tactics option list gmap strings pretty sorting.

#[local] Set Warnings "-clear-no-such-hyp".

Local Open Scope string_scope.
Local Open Scope Z_scope.

(** ** JavaScript values *)

Inductive num : Type :=
  | NaN
  | Num (z : Z).

#[local] Set Warnings "-register-all".
#[local] Unset Elimination Schemes.

Inductive jsval : Type :=
  | JNull
  | JBool (b : bool)
  | JNum (n : num)
  | JStr (s : string)
  | JArr (elems : list jsval)
  | JObj (props : list (string * jsval)).

#[local] Set Elimination Schemes.

#[global] Instance num_eq_dec : EqDecision num.
Proof. solve_decision. Defined.

(** The double nearest to an integer.  A double holds every integer of
    magnitude up to 2^53.  Beyond, it keeps the 53 leading bits: the
    integer is rounded to the nearest multiple of the weight of the last
    bit kept, and a tie goes to the even multiple. *)
Definition to_double (z : Z) : Z :=
  let a := Z.abs z in
  if a <=? 2 ^ 53 then z
  else
    let unit := 2 ^ (Z.log2 a - 52) in
    let q := a / unit in
    let r := a mod unit in
    let q' :=
      if 2 * r <? unit then q
      else if unit <? 2 * r then q + 1
      else if Z.even q then q else q + 1 in
    Z.sgn z * (q' * unit).

(** [a - b] and [a + b] on numbers; [NaN] is absorbing.  The program
    reads a difference only for its sign and for being zero, which the
    rounding of a double does not change; a sum is rounded.  (A sum beyond
    the largest double is [Infinity] in the language; the program only
    adds 1 to the counter, which never gets there.) *)
Definition num_sub (a b : num) : num :=
  match a, b with
  | Num x, Num y => Num (x - y)
  | _, _ => NaN
  end.

Definition num_add (a b : num) : num :=
  match a, b with
  | Num x, Num y => Num (to_double (x + y))
  | _, _ => NaN
  end.

(** [n || 0] on a number: [NaN] and [0] are falsy. *)
Definition num_or_zero (n : num) : Z :=
  match n with
  | NaN => 0
  | Num z => z
  end.

(** ** Strings *)

Definition code (c : ascii) : N := N_of_ascii c.

Definition lower_ascii (c : ascii) : ascii :=
  if ((65 <=? code c) && (code c <=? 90))%N then ascii_of_N (code c + 32) else c.

(** [s.toLowerCase()].  ASCII letters are lower-cased, and so are the two
    characters beyond ASCII whose lower case holds an ASCII letter: U+0130
    (bytes 196 176) becomes [i] followed by U+0307 (bytes 204 135), and
    U+212A (bytes 226 132 170) becomes [k].  Every other character beyond
    ASCII is left as it is: its lower case is again beyond ASCII, and the
    program reads the result only for ASCII letters, digits and
    punctuation. *)
Fixpoint toLowerCase (s : string) : string :=
  match s with
  | EmptyString => EmptyString
  | String c r1 =>
      if (code c =? 196)%N then
        match r1 with
        | String d r2 =>
            if (code d =? 176)%N
            then String "i" (String "204" (String "135" (toLowerCase r2)))
            else String c (toLowerCase r1)
        | EmptyString => String c EmptyString
        end
      else if (code c =? 226)%N then
        match r1 with
        | String d (String e r3) =>
            if ((code d =? 132) && (code e =? 170))%N
            then String "k" (toLowerCase r3)
            else String c (toLowerCase r1)
        | _ => String c (toLowerCase r1)
        end
      else String (lower_ascii c) (toLowerCase r1)
  end.

Definition is_empty (s : string) : bool :=
  match s with
  | EmptyString => true
  | String _ _ => false
  end.

(** [s.startsWith(p)] *)
Fixpoint startsWith (p s : string) : bool :=
  match p, s with
  | EmptyString, _ => true
  | String a p', String b s' => Ascii.eqb a b && startsWith p' s'
  | String _ _, EmptyString => false
  end.

(** [s.endsWith(p)]: some suffix of [s] is [p]. *)
Fixpoint endsWith (p s : string) : bool :=
  String.eqb s p
  || match s with
     | String _ s' => endsWith p s'
     | EmptyString => false
     end.

(** [s.indexOf(p)]: the position of the first occurrence, [-1] if none. *)
Definition indexOf (p s : string) : Z :=
  match String.index 0 p s with
  | Some i => Z.of_nat i
  | None => -1
  end.

(** [s.includes(p)], also [/p/.test(s)] for a literal pattern [p]. *)
Definition includes (p s : string) : bool :=
  match String.index 0 p s with
  | Some _ => true
  | None => false
  end.

(** [s.slice(n)] for [n >= 0] *)
Fixpoint slice_from (n : nat) (s : string) : string :=
  match n, s with
  | O, _ => s
  | S n', String _ s' => slice_from n' s'
  | S _, EmptyString => EmptyString
  end.

(** [s.slice(0, n)] for [n >= 0] *)
Fixpoint slice_to (n : nat) (s : string) : string :=
  match n, s with
  | S n', String c s' => String c (slice_to n' s')
  | _, _ => EmptyString
  end.

(** [s.slice(0, -1)] *)
Fixpoint drop_last (s : string) : string :=
  match s with
  | EmptyString => EmptyString
  | String c s' => if is_empty s' then EmptyString else String c (drop_last s')
  end.

(** [s.split(sep)[0]] for a one-character separator: the part of [s] before
    the first [sep], all of [s] when there is none. *)
Fixpoint before (sep : ascii) (s : string) : string :=
  match s with
  | EmptyString => EmptyString
  | String c s' => if Ascii.eqb c sep then EmptyString else String c (before sep s')
  end.

(** [xs.join(sep)] *)
Definition join (sep : string) (xs : list string) : string := String.concat sep xs.

(** [o || (empty string)] for an optional string property *)
Definition or_empty (o : option string) : string :=
  match o with
  | Some s => s
  | None => EmptyString
  end.

(** A string property is truthy when it is present and not empty. *)
Definition truthy (o : option string) : bool :=
  match o with
  | Some s => negb (is_empty s)
  | None => false
  end.

(** Truthiness of a value: [null], [false], [0], [NaN] and the empty
    string are falsy, everything else (every object and array) is truthy. *)
Definition js_truthy (v : jsval) : bool :=
  match v with
  | JNull => false
  | JBool b => b
  | JNum NaN => false
  | JNum (Num z) => negb (z =? 0)
  | JStr s => negb (is_empty s)
  | JArr _ | JObj _ => true
  end.

(** ** The host platform *)

(** What the program reads of a parsed [URL] object. *)
Record URL : Type := mkURL {
  host : string;
  pathname : string
}.

Class Platform : Type := {
  (** [new URL(u)]; [None] when the constructor throws *)
  URL_parse : string -> option URL;
  (** [Date.parse(s)]: milliseconds since the epoch, or [NaN] *)
  Date_parse : string -> num;
  (** [JSON.parse(s)]; [None] when it throws *)
  JSON_parse : string -> option jsval;
  (** [JSON.stringify(v)] *)
  JSON_stringify : jsval -> string;
  (** [Number(v)] for a string, and for an array or an object whose
      conversion to a primitive does not throw *)
  ToNumber_other : jsval -> num
}.

(** ** Raw items *)

Record RawItem : Type := mkItem {
  title : option string;
  url : option string;
  canonical_url : option string;
  canonical_id : option string;
  cluster_id : option string;
  source : option string;
  published_utc : option string;
  published : option string;
  paywall : bool;
  category : option string;
  region : option string;
  __seq : option jsval
}.

(** [it.__seq = v] *)
Definition set_seq (v : option jsval) (it : RawItem) : RawItem :=
  {| title := title it; url := url it; canonical_url := canonical_url it;
     canonical_id := canonical_id it; cluster_id := cluster_id it;
     source := source it; published_utc := published_utc it;
     published := published it; paywall := paywall it;
     category := category it; region := region it; __seq := v |}.

(** The feed document: [items] is [Some] when [data.items] is an array. *)
Record Feed : Type := mkFeed {
  items : option (list RawItem);
  generated_utc : option string
}.

(** A feed that is an array of items. *)
Definition feed_of (its : list RawItem) (g : option string) : option Feed :=
  Some {| items := Some its; generated_utc := g |}.

(** ** Durable storage *)

(** [localStorage], as far as the program uses it: the value under
    [SEQ_STORAGE_KEY], whether access is refused (every call throws),
    whether the quota is used up ([setItem] throws), and the values
    [setItem] has stored so far, latest first. *)
Record Storage : Type := mkStorage {
  cell : option string;
  denied : bool;
  full : bool;
  written : list string
}.

(** [localStorage.getItem(SEQ_STORAGE_KEY)]; [None] when it throws *)
Definition getItem (store : Storage) : option (option string) :=
  if denied store then None else Some (cell store).

(** [localStorage.setItem(SEQ_STORAGE_KEY, v)]; [None] when it throws *)
Definition setItem (v : string) (store : Storage) : option Storage :=
  if denied store || full store then None
  else Some {| cell := Some v; denied := denied store; full := full store;
               written := v :: written store |}.

(** The persisted record.  [map] is a JavaScript object used as a map from
    identity keys to sequence numbers: its properties, as [state.map[id]]
    reads them for an identity key (a key holds a colon, so it is neither
    the name of a property that objects and arrays inherit nor an index).
    The stored [map] can be an array: [indexed] then holds its elements,
    which are all that [JSON.stringify] writes of an array, and is [None]
    for a plain object. *)
Record SeqState : Type := mkSeqState {
  counter : num;
  map : gmap string jsval;
  indexed : option (list jsval)
}.

Definition fresh : SeqState := {| counter := Num 0; map := ∅; indexed := None |}.

(** The properties of an object read from JSON, a repeated name keeping
    its last value. *)
Definition obj_map (props : list (string * jsval)) : gmap string jsval :=
  list_to_map (reverse props).

(** An array seen as an object: its elements under their indices. *)
Definition array_map (elems : list jsval) : gmap string jsval :=
  list_to_map (imap (fun i v => (pretty i, v)) elems).

(** [v?.k] for a value read from JSON: only objects have the properties
    the program asks for ([counter]; [map], which on an array is a
    function and fails the [typeof] test as a missing property does). *)
Definition get_prop (k : string) (v : jsval) : option jsval :=
  match v with
  | JObj props => obj_map props !! k
  | _ => None
  end.

(** ** Arrays, Sets and Maps *)

Section Containers.
Context {A : Type}.

(** [xs.sort(cmp)].  The comparator's result is read by its sign, [NaN]
    counting as [0]; the sort is stable.  For a comparator that is a
    consistent ordering every stable sort gives this list; for one that
    is not, the language leaves the order to the engine and the model
    fixes the order an insertion sort produces. *)
Definition comes_after (cmp : A -> A -> num) (a b : A) : bool :=
  match cmp a b with
  | Num z => 0 <? z
  | NaN => false
  end.

Fixpoint insert_sorted (cmp : A -> A -> num) (x : A) (l : list A) : list A :=
  match l with
  | [] => [x]
  | y :: l' => if comes_after cmp x y then y :: insert_sorted cmp x l' else x :: l
  end.

Definition sort_by (cmp : A -> A -> num) (l : list A) : list A :=
  foldr (insert_sorted cmp) [] l.

(** [xs.sort(cmp)] for a comparator that can throw ([None]): the same
    sort, given up at the first call of the comparator that throws. *)
Fixpoint insert_or_throw (cmp : A -> A -> option num) (x : A) (l : list A)
  : option (list A) :=
  match l with
  | [] => Some [x]
  | y :: l' =>
      match cmp x y with
      | Some (Num z) => if 0 <? z then cons y <$> insert_or_throw cmp x l' else Some (x :: l)
      | Some NaN => Some (x :: l)
      | None => None
      end
  end.

Definition sort_or_throw (cmp : A -> A -> option num) (l : list A) : option (list A) :=
  foldr (fun x sorted => sorted ≫= insert_or_throw cmp x) (Some []) l.

(** A [Map] with string keys, in insertion order. *)
Fixpoint Map_get (k : string) (m : list (string * A)) : option A :=
  match m with
  | [] => None
  | (k', v) :: m' => if decide (k' = k) then Some v else Map_get k m'
  end.

(** [m.set(k, v)]: a key that is present keeps its position. *)
Fixpoint Map_set (k : string) (v : A) (m : list (string * A)) : list (string * A) :=
  match m with
  | [] => [(k, v)]
  | (k', v') :: m' =>
      if decide (k' = k) then (k, v) :: m' else (k', v') :: Map_set k v m'
  end.

(** [Array.from(m.values())] *)
Definition Map_values (m : list (string * A)) : list A := m.*2.
End Containers.

(** [Array.from(new Set(xs))]: the distinct elements, each at its first
    occurrence. *)
Definition Set_add (s : list string) (x : string) : list string :=
  if decide (x ∈ s) then s else s ++ [x].

Definition Set_from (xs : list string) : list string := foldl Set_add [] xs.

(** The default comparator of [sort()] on strings (code unit order). *)
Definition compare_strings (a b : string) : num :=
  match String.compare a b with
  | Lt => Num (-1)
  | Eq => Num 0
  | Gt => Num 1
  end.

(** ** De-dupe helpers *)

(** [isAggregator]: the pattern is an alternation of six literals, so the
    test is a search for any of them. *)
Definition AGGREGATOR_PATTERNS : list string :=
  ["news.google"; "google news"; "news.yahoo"; "apple.news"; "feedburner"; "rss."].

Definition isAggregator (it : RawItem) : bool :=
  let src := toLowerCase (or_empty (source it) +:+ " " +:+ or_empty (url it)) in
  existsb (fun p => includes p src) AGGREGATOR_PATTERNS.

Definition STOPWORDS : list string :=
  ["the";"a";"an";"and";"or";"but";"of";"for";"with";"without";"in";"on";"at";"to";"from";"by";"as";"into";"over";"under";"than";"about";
   "after";"before";"due";"will";"still";"just";"not";"is";"are";"was";"were";"be";"being";"been";"it";"its";"this";"that";"these";"those";
   "live";"update";"breaking";"video";"photos";"report";"reports";"says";"say";"said";
   "vs";"vs.";"game";"games";"preview";"recap";"season";"start";"starts";"starting";"lineup";
   "dead";"killed";"kills";"kill";"dies";"die";"injured";"injures";"injury";
   "los";"angeles";"new";"york";"la"].

(** One white-space character ([\s]) at the head of [s]: the rest of [s]
    after it.  ASCII white space, then U+00A0, U+1680, U+2000..U+200A,
    U+2028, U+2029, U+202F, U+205F, U+3000 and U+FEFF in UTF-8. *)
Definition ws1 (s : string) : option string :=
  match s with
  | String c r1 =>
      if ((9 <=? code c) && (code c <=? 13) || (code c =? 32))%N then Some r1
      else
        match r1 with
        | String d r2 =>
            if ((code c =? 194) && (code d =? 160))%N then Some r2
            else
              match r2 with
              | String e r3 =>
                  if ((code c =? 225) && (code d =? 154) && (code e =? 128)
                      || (code c =? 226) && (code d =? 128)
                         && ((128 <=? code e) && (code e <=? 138)
                             || (code e =? 168) || (code e =? 169) || (code e =? 175))
                      || (code c =? 226) && (code d =? 129) && (code e =? 159)
                      || (code c =? 227) && (code d =? 128) && (code e =? 128)
                      || (code c =? 239) && (code d =? 187) && (code e =? 191))%N
                  then Some r3 else None
              | EmptyString => None
              end
        | EmptyString => None
        end
  | EmptyString => None
  end.

(** One of [-], U+2013, U+2014 at the head of [s]: the rest after it. *)
Definition dash1 (s : string) : option string :=
  match s with
  | String c r1 =>
      if (code c =? 45)%N then Some r1
      else
        match r1 with
        | String d (String e r3) =>
            if ((code c =? 226) && (code d =? 128)
                && ((code e =? 147) || (code e =? 148)))%N
            then Some r3 else None
        | _ => None
        end
  | EmptyString => None
  end.

(** The longest run of white space at the head of [s], dropped. *)
Fixpoint skip_ws (fuel : nat) (s : string) : string :=
  match fuel with
  | O => s
  | S fuel' =>
      match ws1 s with
      | Some r => skip_ws fuel' r
      | None => s
      end
  end.

(** Whether all of [s] matches [\s+[-–—]\s+[^|]+]: white space, a dash
    (which must follow the whole run, a dash not being white space), one
    white space, then at least one more character and no [|] to the end. *)
Definition source_tail (s : string) : bool :=
  match ws1 s with
  | Some r =>
      match dash1 (skip_ws (String.length r) r) with
      | Some r2 =>
          match ws1 r2 with
          | Some r3 => negb (is_empty r3) && negb (includes "|" r3)
          | None => false
          end
      | None => false
      end
  | None => false
  end.

(** [title.replace] of the source-tail pattern by the empty string: the pattern is anchored at
    the end, so the first match is the leftmost suffix that matches, and
    it is cut off. *)
Fixpoint stripSourceTail (title : string) : string :=
  if source_tail title then EmptyString
  else
    match title with
    | EmptyString => EmptyString
    | String c rest => String c (stripSourceTail rest)
    end.

Definition is_alnum (c : ascii) : bool :=
  ((97 <=? code c) && (code c <=? 122) || (48 <=? code c) && (code c <=? 57))%N.

(** The maximal runs of [[a-z0-9]] of [s]; [cur] is the run being read. *)
Fixpoint runs (cur : string) (s : string) : list string :=
  match s with
  | EmptyString => if is_empty cur then [] else [cur]
  | String c s' =>
      if is_alnum c then runs (cur +:+ String c EmptyString) s'
      else (if is_empty cur then [] else [cur]) ++ runs EmptyString s'
  end.

Definition tokenize (text : string) : list string :=
  runs EmptyString (toLowerCase text).

Definition fuzzyTitleKey (title : string) : string :=
  let base := stripSourceTail title in
  let toks :=
    List.filter
      (fun w => (1 <? String.length w)%nat && negb (bool_decide (w ∈ STOPWORDS)))
      (tokenize base) in
  match toks with
  | [] =>
      let raw := slice_to 160 (join "|" (tokenize base)) in
      "fk:" +:+ (if is_empty raw then "empty" else raw)
  | _ =>
      let uniq := sort_by compare_strings (Set_from toks) in
      let sig := join "|" (take 12 uniq) in
      "fk:" +:+ sig
  end.

Section Core.
Context `{Platform}.

(** [u.replace] of a leading [http://] or [https://] by the empty string *)
Definition strip_scheme (u : string) : string :=
  if startsWith "https://" u then slice_from 8 u
  else if startsWith "http://" u then slice_from 7 u
  else u.

(** Normalize a URL into host + path only. *)
Definition hostPath (u : string) : string :=
  match URL_parse u with
  | Some parsed =>
      let host := toLowerCase (host parsed) in
      let host :=
        if startsWith "m." host && (1 <? indexOf "." host)
        then slice_from 2 host else host in
      let host :=
        if startsWith "mobile." host && (6 <? indexOf "." host)
        then slice_from 7 host else host in
      let path := if is_empty (pathname parsed) then "/" else pathname parsed in
      let path :=
        if negb (String.eqb path "/") && endsWith "/" path
        then drop_last path else path in
      host +:+ path
  | None => before "#" (before "?" (strip_scheme u))
  end.

(** Strongest identity we can build for an item. *)
Definition dedupeKey (it : RawItem) : string :=
  if truthy (cluster_id it) then "c:" +:+ or_empty (cluster_id it)
  else if truthy (canonical_id it) then "i:" +:+ or_empty (canonical_id it)
  else if truthy (canonical_url it) then "u:" +:+ hostPath (or_empty (canonical_url it))
  else if truthy (url it) then "u:" +:+ hostPath (or_empty (url it))
  else fuzzyTitleKey (or_empty (title it)).

(** [it.published_utc || it.published || 0], as the string [Date.parse]
    reads. *)
Definition stamp (it : RawItem) : string :=
  if truthy (published_utc it) then or_empty (published_utc it)
  else if truthy (published it) then or_empty (published it)
  else "0".

(** [Date.parse(it.published_utc || it.published || 0) || 0] *)
Definition timeOf (it : RawItem) : Z := num_or_zero (Date_parse (stamp it)).

(** Choose the better of two items that hashed to the same key. *)
Definition chooseBetter (a b : RawItem) : RawItem :=
  let ta := timeOf a in
  let tb := timeOf b in
  if negb (tb =? ta) then (if ta <? tb then b else a)
  else
    let aggA := isAggregator a in
    let aggB := isAggregator b in
    if negb (Bool.eqb aggA aggB) then (if aggA then b else a)
    else
      let pwA := paywall a in
      let pwB := paywall b in
      if negb (Bool.eqb pwA pwB) then (if pwA then b else a)
      else a.

(** Remove duplicates by key: the body of the loop, then the loop. *)
Definition dedupe_step (byKey : list (string * RawItem)) (it : RawItem)
  : list (string * RawItem) :=
  let key := dedupeKey it in
  match Map_get key byKey with
  | None => Map_set key it byKey
  | Some prev => Map_set key (chooseBetter prev it) byKey
  end.

Definition dedupeItems (items : list RawItem) : list RawItem :=
  Map_values (foldl dedupe_step [] items).

(** Use the de-dupe identity for seq. *)
Definition getItemId (it : RawItem) : string := dedupeKey it.

(** *** Stable, monotonic ordering (first-seen sequence) *)

(** Whether the conversion of a value read from JSON to a primitive
    throws (a [TypeError]).  An object is converted by its [valueOf] and
    its [toString]: the inherited [valueOf] returns the object itself, and
    an own property of one of these names is not callable (JSON holds no
    functions) and is passed over; so the conversion succeeds, by the
    inherited [toString], exactly when the object has no own property
    [toString].  An array is converted by joining the strings of its
    elements ([null] gives the empty string), which throws when the
    conversion of an element does. *)
Fixpoint no_primitive (v : jsval) : bool :=
  match v with
  | JObj props => existsb (fun p => String.eqb (fst p) "toString") props
  | JArr elems => existsb no_primitive elems
  | _ => false
  end.

(** [Number(v)], and the conversion the operator [-] makes of an operand;
    [None] when it throws. *)
Definition Number (v : jsval) : option num :=
  match v with
  | JNum n => Some n
  | JNull => Some (Num 0)
  | JBool b => Some (Num (if b then 1 else 0))
  | JStr _ => Some (ToNumber_other v)
  | JArr _ | JObj _ => if no_primitive v then None else Some (ToNumber_other v)
  end.

(** [v || 0] for an optional value *)
Definition or_zero (o : option jsval) : jsval :=
  match o with
  | Some v => if js_truthy v then v else JNum (Num 0)
  | None => JNum (Num 0)
  end.

Definition loadSeqState (store : Storage) : SeqState :=
  match getItem store with
  | Some raw =>
      if truthy raw then
        match JSON_parse (or_empty raw) with
        | Some parsed =>
            match Number (or_zero (get_prop "counter" parsed)) with
            | Some n =>
                {| counter := n;
                   map :=
                     match get_prop "map" parsed with
                     | Some (JObj props) => obj_map props
                     | Some (JArr elems) => array_map elems
                     | _ => ∅
                     end;
                   indexed :=
                     match get_prop "map" parsed with
                     | Some (JArr elems) => Some elems
                     | _ => None
                     end |}
            | None => fresh
            end
        | None => fresh
        end
      else fresh
  | None => fresh
  end.

(** What [JSON.stringify] writes of the record [{counter, map}], as a
    value.  Of a [map] that is an array it writes the elements and none of
    the properties the program has added under identity keys.  The
    properties of a plain object are listed in the order of [map_to_list],
    not in the order the program inserted them; reading the text back
    gives the same object either way. *)
Definition state_json (state : SeqState) : jsval :=
  JObj [("counter", JNum (counter state));
        ("map", match indexed state with
                | Some elems => JArr elems
                | None => JObj (map_to_list (map state))
                end)].

Definition saveSeqState (state : SeqState) (store : Storage) : Storage :=
  match setItem (JSON_stringify (state_json state)) store with
  | Some store' => store'
  | None => store
  end.

(** [state.map[id] == null]: no property, or the value [null] *)
Definition unseen (state : SeqState) (id : string) : bool :=
  match map state !! id with
  | None | Some JNull => true
  | Some _ => false
  end.

(** The loop of [assignStableSeq]: the items with [__seq] attached, the
    record and the flag [touched] when the loop ends. *)
Fixpoint assign_loop (state : SeqState) (touched : bool) (items : list RawItem)
  : list RawItem * SeqState * bool :=
  match items with
  | [] => ([], state, touched)
  | it :: rest =>
      let id := getItemId it in
      let '(state1, touched1) :=
        if unseen state id then
          let c := num_add (counter state) (Num 1) in
          ({| counter := c; map := <[id := JNum c]> (map state);
              indexed := indexed state |}, true)
        else (state, touched) in
      let it' := set_seq (map state1 !! id) it in
      let '(rest', state', touched') := assign_loop state1 touched1 rest in
      (it' :: rest', state', touched')
  end.

(** Assign a monotonic first-seen sequence to each item. *)
Definition assignStableSeq (items : list RawItem) (store : Storage)
  : list RawItem * Storage :=
  let state := loadSeqState store in
  let '(items', state', touched) := assign_loop state false items in
  (items', if touched then saveSeqState state' store else store).

(** The comparator of Step C; [None] when the subtraction throws, which
    it does when the conversion of one of its operands to a number
    does. *)
Definition by_seq_then_time (a b : RawItem) : option num :=
  nb ← Number (or_zero (__seq b));
  na ← Number (or_zero (__seq a));
  let d := num_sub nb na in
  Some (if decide (d = Num 0) then Num (timeOf b - timeOf a) else d).

(** [normalize(data)]: the feed it returns, [None] when it throws (the
    sort does, when the comparator does), and the storage it leaves, which
    the pass has written by then. *)
Definition normalize (data : option Feed) (store : Storage) : option Feed * Storage :=
  match data with
  | Some {| items := Some its; generated_utc := g |} =>
      let deduped := dedupeItems its in
      let '(deduped, store') := assignStableSeq deduped store in
      match sort_or_throw by_seq_then_time deduped with
      | Some deduped => (Some {| items := Some deduped; generated_utc := g |}, store')
      | None => (None, store')
      end
  | _ => (Some {| items := Some []; generated_utc := None |}, store)
  end.
End Core.

(** ** A reference platform

    One reading of the built-ins, used to run the program on the examples
    of the specification.  Each function follows its standard on the plain
    inputs described with it and is not meant beyond them. *)

Definition is_digit (c : ascii) : bool := ((48 <=? code c) && (code c <=? 57))%N.

Definition digit_value (c : ascii) : Z := Z.of_N (code c) - 48.

(** The number a string of decimal digits denotes; [None] if the string is
    empty or holds another character. *)
Fixpoint digits_go (acc : Z) (s : string) : option Z :=
  match s with
  | EmptyString => Some acc
  | String c s' => if is_digit c then digits_go (10 * acc + digit_value c) s' else None
  end.

Definition digits (s : string) : option Z :=
  if is_empty s then None else digits_go 0 s.

(** *** [new URL(u)]

    Absolute [http:] and [https:] URLs [scheme://host/path?query#fragment]
    whose host is made of ASCII letters, digits, [.] and [-] (no
    credentials, no port) and whose path holds no dot segment and only
    characters the URL Standard leaves as they are.  For these the host is
    lower-cased and an empty path is [/].  Every other string is taken to
    fail, as strings without a scheme do. *)
Definition is_host_char (c : ascii) : bool :=
  is_alnum (lower_ascii c) || (code c =? 46)%N || (code c =? 45)%N.

Definition is_path_char (c : ascii) : bool :=
  is_alnum (lower_ascii c)
  || existsb (fun d => Ascii.eqb c d)
       ["/"; "-"; "_"; "."; "~"; "!"; "$"; "&"; "'"; "("; ")"; "*"; "+"; ","; ";"; "="; ":"; "@"]%char.

Fixpoint all_chars (p : ascii -> bool) (s : string) : bool :=
  match s with
  | EmptyString => true
  | String c s' => p c && all_chars p s'
  end.

Definition has_dot_segment (path : string) : bool :=
  includes "/./" path || includes "/../" path
  || endsWith "/." path || endsWith "/.." path.

Definition ref_URL_parse (u : string) : option URL :=
  let lu := toLowerCase u in
  let after :=
    if startsWith "https://" lu then Some (slice_from 8 u)
    else if startsWith "http://" lu then Some (slice_from 7 u)
    else None in
  match after with
  | Some rest =>
      let authority := before "#" (before "?" (before "/" rest)) in
      let tail := slice_from (String.length (before "/" rest)) rest in
      let path := before "#" (before "?" tail) in
      if negb (is_empty authority) && all_chars is_host_char authority
         && all_chars is_path_char path && negb (has_dot_segment path)
      then Some {| host := toLowerCase authority;
                   pathname := if is_empty path then "/" else path |}
      else None
  | None => None
  end.

(** *** [Date.parse(s)]

    The format [YYYY-MM-DDTHH:mm:ssZ] of the language's date-time strings;
    [NaN] for every other string. *)
Definition is_leap (y : Z) : bool :=
  (y mod 4 =? 0) && (negb (y mod 100 =? 0) || (y mod 400 =? 0)).

Definition days_in_month (y m : Z) : Z :=
  if m =? 2 then (if is_leap y then 29 else 28)
  else if (m =? 4) || (m =? 6) || (m =? 9) || (m =? 11) then 30 else 31.

(** Days from 1970-01-01 to the given day of the proleptic Gregorian
    calendar. *)
Definition days_from_civil (y m d : Z) : Z :=
  let y' := if m <=? 2 then y - 1 else y in
  let era := y' / 400 in
  let yoe := y' - era * 400 in
  let mp := if 2 <? m then m - 3 else m + 9 in
  let doy := (153 * mp + 2) / 5 + d - 1 in
  let doe := yoe * 365 + yoe / 4 - yoe / 100 + doy in
  era * 146097 + doe - 719468.

Definition ref_Date_parse (s : string) : num :=
  if (String.length s =? 20)%nat
     && String.eqb (substring 4 1 s) "-" && String.eqb (substring 7 1 s) "-"
     && String.eqb (substring 10 1 s) "T" && String.eqb (substring 13 1 s) ":"
     && String.eqb (substring 16 1 s) ":" && String.eqb (substring 19 1 s) "Z"
  then
    match digits (substring 0 4 s), digits (substring 5 2 s), digits (substring 8 2 s),
          digits (substring 11 2 s), digits (substring 14 2 s), digits (substring 17 2 s) with
    | Some y, Some mo, Some d, Some h, Some mi, Some sec =>
        if (1 <=? mo) && (mo <=? 12) && (1 <=? d) && (d <=? days_in_month y mo)
           && (h <=? 23) && (mi <=? 59) && (sec <=? 59)
        then Num ((((days_from_civil y mo d * 24 + h) * 60 + mi) * 60 + sec) * 1000)
        else NaN
    | _, _, _, _, _, _ => NaN
    end
  else NaN.

(** *** [JSON.parse(s)]

    The JSON grammar, with two limits that come from the model's numbers
    and strings: a number with a fraction or an exponent, and a [\u] escape
    of a character beyond ASCII, are not read (the result is [None] as for
    a text that is not JSON). *)
Definition is_json_ws (c : ascii) : bool :=
  ((code c =? 32) || (code c =? 9) || (code c =? 10) || (code c =? 13))%N.

Fixpoint skip_space (s : string) : string :=
  match s with
  | String c s' => if is_json_ws c then skip_space s' else s
  | EmptyString => EmptyString
  end.

Definition hex_value (c : ascii) : option N :=
  let n := code c in
  if ((48 <=? n) && (n <=? 57))%N then Some (n - 48)%N
  else if ((97 <=? n) && (n <=? 102))%N then Some (n - 87)%N
  else if ((65 <=? n) && (n <=? 70))%N then Some (n - 55)%N
  else None.

(** The characters of a string literal after its opening quote, and the
    text after its closing quote. *)
Fixpoint parse_string_body (s : string) : option (string * string) :=
  match s with
  | EmptyString => None
  | String c r =>
      if (code c =? 34)%N then Some (EmptyString, r)
      else if (code c =? 92)%N then
        match r with
        | String e r' =>
            let keep (ch : ascii) :=
              match parse_string_body r' with
              | Some (body, rest) => Some (String ch body, rest)
              | None => None
              end in
            if (code e =? 34)%N then keep "034"%char
            else if (code e =? 92)%N then keep "\"%char
            else if (code e =? 47)%N then keep "/"%char
            else if (code e =? 98)%N then keep "008"%char
            else if (code e =? 102)%N then keep "012"%char
            else if (code e =? 110)%N then keep "010"%char
            else if (code e =? 114)%N then keep "013"%char
            else if (code e =? 116)%N then keep "009"%char
            else if (code e =? 117)%N then
              match r' with
              | String h1 (String h2 (String h3 (String h4 r''))) =>
                  match hex_value h1, hex_value h2, hex_value h3, hex_value h4 with
                  | Some a, Some b, Some c3, Some d =>
                      let n := (((a * 16 + b) * 16 + c3) * 16 + d)%N in
                      if (n <? 128)%N then
                        match parse_string_body r'' with
                        | Some (body, rest) => Some (String (ascii_of_N n) body, rest)
                        | None => None
                        end
                      else None
                  | _, _, _, _ => None
                  end
              | _ => None
              end
            else None
        | EmptyString => None
        end
      else if (code c <? 32)%N then None
      else
        match parse_string_body r with
        | Some (body, rest) => Some (String c body, rest)
        | None => None
        end
  end.

(** The digits at the head of [s] and the text after them. *)
Fixpoint span_digits (s : string) : string * string :=
  match s with
  | String c s' =>
      if is_digit c then let '(ds, rest) := span_digits s' in (String c ds, rest)
      else (EmptyString, s)
  | EmptyString => (EmptyString, EmptyString)
  end.

(** An integer literal (an optional minus sign, then [0] or digits that do
    not start with [0]) not followed by a fraction or an exponent. *)
Definition parse_number (s : string) : option (jsval * string) :=
  let neg := startsWith "-" s in
  let body := if neg then slice_from 1 s else s in
  let '(ds, rest) := span_digits body in
  match digits ds with
  | Some n =>
      if (1 <? String.length ds)%nat && startsWith "0" ds then None
      else if startsWith "." rest || startsWith "e" rest || startsWith "E" rest then None
      else Some (JNum (Num (if neg then - n else n)), rest)
  | None => None
  end.

Definition quote_char : string := String "034" EmptyString.

Fixpoint parse_value (fuel : nat) (s : string) {struct fuel} : option (jsval * string) :=
  match fuel with
  | O => None
  | S fuel' =>
      if startsWith "null" s then Some (JNull, slice_from 4 s)
      else if startsWith "true" s then Some (JBool true, slice_from 4 s)
      else if startsWith "false" s then Some (JBool false, slice_from 5 s)
      else if startsWith quote_char s then
        match parse_string_body (slice_from 1 s) with
        | Some (str, rest) => Some (JStr str, rest)
        | None => None
        end
      else if startsWith "[" s then
        let r := skip_space (slice_from 1 s) in
        if startsWith "]" r then Some (JArr [], slice_from 1 r)
        else
          match parse_elems fuel' r with
          | Some (vs, rest) => Some (JArr vs, rest)
          | None => None
          end
      else if startsWith "{" s then
        let r := skip_space (slice_from 1 s) in
        if startsWith "}" r then Some (JObj [], slice_from 1 r)
        else
          match parse_members fuel' r with
          | Some (ms, rest) => Some (JObj ms, rest)
          | None => None
          end
      else parse_number s
  end
with parse_elems (fuel : nat) (s : string) {struct fuel} : option (list jsval * string) :=
  match fuel with
  | O => None
  | S fuel' =>
      match parse_value fuel' s with
      | Some (v, rest) =>
          let r := skip_space rest in
          if startsWith "," r then
            match parse_elems fuel' (skip_space (slice_from 1 r)) with
            | Some (vs, rest') => Some (v :: vs, rest')
            | None => None
            end
          else if startsWith "]" r then Some ([v], slice_from 1 r)
          else None
      | None => None
      end
  end
with parse_members (fuel : nat) (s : string) {struct fuel}
  : option (list (string * jsval) * string) :=
  match fuel with
  | O => None
  | S fuel' =>
      if startsWith quote_char s then
        match parse_string_body (slice_from 1 s) with
        | Some (k, rest) =>
            let r := skip_space rest in
            if startsWith ":" r then
              match parse_value fuel' (skip_space (slice_from 1 r)) with
              | Some (v, rest1) =>
                  let r1 := skip_space rest1 in
                  if startsWith "," r1 then
                    match parse_members fuel' (skip_space (slice_from 1 r1)) with
                    | Some (ms, rest2) => Some ((k, v) :: ms, rest2)
                    | None => None
                    end
                  else if startsWith "}" r1 then Some ([(k, v)], slice_from 1 r1)
                  else None
              | None => None
              end
            else None
        | None => None
        end
      else None
  end.

Definition ref_JSON_parse (s : string) : option jsval :=
  match parse_value (2 * String.length s + 2) (skip_space s) with
  | Some (v, rest) => if is_empty (skip_space rest) then Some v else None
  | None => None
  end.

(** *** [JSON.stringify(v)] *)
Definition hex_digit (n : N) : ascii :=
  if (n <? 10)%N then ascii_of_N (48 + n) else ascii_of_N (87 + n).

Definition escape_char (c : ascii) : string :=
  let n := code c in
  if (n =? 34)%N then "\" +:+ quote_char
  else if (n =? 92)%N then "\\"
  else if (n =? 8)%N then "\b"
  else if (n =? 9)%N then "\t"
  else if (n =? 10)%N then "\n"
  else if (n =? 12)%N then "\f"
  else if (n =? 13)%N then "\r"
  else if (n <? 32)%N then
    "\u00" +:+ String (hex_digit (n / 16)) (String (hex_digit (n mod 16)) EmptyString)
  else String c EmptyString.

Fixpoint escape (s : string) : string :=
  match s with
  | EmptyString => EmptyString
  | String c s' => escape_char c +:+ escape s'
  end.

Definition quote (s : string) : string := quote_char +:+ escape s +:+ quote_char.

Fixpoint ref_JSON_stringify (v : jsval) : string :=
  match v with
  | JNull => "null"
  | JBool true => "true"
  | JBool false => "false"
  | JNum NaN => "null"
  | JNum (Num z) => pretty z
  | JStr s => quote s
  | JArr elems => "[" +:+ join "," (List.map ref_JSON_stringify elems) +:+ "]"
  | JObj props =>
      "{" +:+ join ","
                (List.map (fun p => quote (fst p) +:+ ":" +:+ ref_JSON_stringify (snd p)) props)
          +:+ "}"
  end.

(** *** [Number(v)] for strings, arrays and objects

    A string of decimal digits with an optional sign, white space around it
    dropped, is its value and the empty string is [0]; every other string
    is [NaN].  An array converts through the string of its elements and an
    object read from JSON is [NaN]. *)
Fixpoint skip_ascii_ws (s : string) : string :=
  match s with
  | String c s' => if Ascii.is_space c then skip_ascii_ws s' else s
  | EmptyString => EmptyString
  end.

Definition trim (s : string) : string :=
  String.rev (skip_ascii_ws (String.rev (skip_ascii_ws s))).

Definition ref_StringToNumber (s : string) : num :=
  let t := trim s in
  if is_empty t then Num 0
  else
    match t with
    | String "-" r => match digits r with Some n => Num (- n) | None => NaN end
    | String "+" r => match digits r with Some n => Num n | None => NaN end
    | _ => match digits t with Some n => Num n | None => NaN end
    end.

Fixpoint ref_ToNumber_other (v : jsval) : num :=
  match v with
  | JStr s => ref_StringToNumber s
  | JArr [] => Num 0
  | JArr [x] =>
      match x with
      | JNull => Num 0
      | JNum n => n
      | JBool _ | JObj _ => NaN
      | JStr _ | JArr _ => ref_ToNumber_other x
      end
  | JArr _ | JObj _ => NaN
  | JNull => Num 0
  | JBool b => Num (if b then 1 else 0)
  | JNum n => n
  end.

Definition reference_platform : Platform :=
  {| URL_parse := ref_URL_parse;
     Date_parse := ref_Date_parse;
     JSON_parse := ref_JSON_parse;
     JSON_stringify := ref_JSON_stringify;
     ToNumber_other := ref_ToNumber_other |}.

(** ** Vocabulary of the specification *)

(** A signal is present when the property exists and is not empty. *)
Definition present (o : option string) (s : string) : Prop :=
  o = Some s /\ s <> EmptyString.

Definition absent (o : option string) : Prop := truthy o = false.

(** [s] cut before its first character that satisfies [stop]. *)
Fixpoint cut_at (stop : ascii -> bool) (s : string) : string :=
  match s with
  | EmptyString => EmptyString
  | String c s' => if stop c then EmptyString else String c (cut_at stop s')
  end.

Definition query_or_fragment (c : ascii) : bool :=
  Ascii.eqb c "?" || Ascii.eqb c "#".

(** The distinct elements of a list in the order of their first
    occurrence. *)
Fixpoint first_seen (l : list string) : list string :=
  match l with
  | [] => []
  | x :: l' => x :: filter (fun y => y <> x) (first_seen l')
  end.

(** ** Vocabulary of the reference JSON printer and parser *)

(** Values that a JSON text denotes: no [NaN] in them. *)
Fixpoint json_value (v : jsval) : bool :=
  match v with
  | JNum NaN => false
  | JArr elems => forallb json_value elems
  | JObj props => forallb (fun p => json_value (snd p)) props
  | _ => true
  end.

(** An upper bound of the fuel the parser needs for the text of [v]. *)
Fixpoint weight (v : jsval) : nat :=
  match v with
  | JArr elems => S (list_sum (List.map (fun e => S (weight e)) elems))
  | JObj props => S (list_sum (List.map (fun p => S (S (weight (snd p)))) props))
  | _ => 1%nat
  end.

(** What may follow a value in the text: nothing, or one of [,], a closing
    bracket or a closing brace. *)
Definition value_end (rest : string) : Prop :=
  match rest with
  | EmptyString => True
  | String c _ => c = ","%char \/ c = "]"%char \/ c = "}"%char
  end.

(** The text of a value starts with a character that is not white space,
    and that tells which kind of value it is. *)
Inductive value_head : ascii -> jsval -> Prop :=
  | head_null : value_head "n" JNull
  | head_true : value_head "t" (JBool true)
  | head_false : value_head "f" (JBool false)
  | head_digit c z : is_digit c = true -> value_head c (JNum (Num z))
  | head_minus z : value_head "-" (JNum (Num z))
  | head_str s : value_head "034" (JStr s)
  | head_arr elems : value_head "[" (JArr elems)
  | head_obj props : value_head "{" (JObj props).

(** The parser reads the text of [v] back, whatever follows it, with fuel
    from the weight of [v] on. *)
Definition reads (v : jsval) : Prop :=
  forall fuel rest, (weight v <= fuel)%nat -> value_end rest ->
    parse_value fuel (ref_JSON_stringify v +:+ rest) = Some (v, rest).

(** Every entry of the map of [dedupeItems] is filed under the key of its
    item. *)
Definition keyed `{Platform} (m : list (string * RawItem)) : Prop :=
  forall k it, (k, it) ∈ m -> dedupeKey it = k.

(** The invariant of the sequence record: the counter is an integer, every
    value of the map is an integer not above the counter, and no two keys
    have the same value. *)
Definition seq_invariant (state : SeqState) : Prop :=
  exists c, counter state = Num c
    /\ (forall k v, map state !! k = Some v -> exists z, v = JNum (Num z) /\ z <= c)
    /\ (forall k1 k2 v, map state !! k1 = Some v -> map state !! k2 = Some v -> k1 = k2).

(** What one turn of the loop of [assignStableSeq] does to the record. *)
Definition see_key (state : SeqState) (id : string) : SeqState :=
  if unseen state id then
    {| counter := num_add (counter state) (Num 1);
       map := <[id := JNum (num_add (counter state) (Num 1))]> (map state);
       indexed := indexed state |}
  else state.

(** The storage takes what is written to it. *)
Definition accepting (store : Storage) : Prop :=
  denied store = false /\ full store = false.

(** The platform reads back the text it writes for [v]. *)
Definition reads_back `{Platform} (v : jsval) : Prop :=
  JSON_stringify v <> EmptyString /\ JSON_parse (JSON_stringify v) = Some v.

(** The sequence number an item carries, when it is an integer. *)
Definition seq_number (it : RawItem) : option Z :=
  match __seq it with
  | Some (JNum (Num z)) => Some z
  | _ => None
  end.

(** The order of the output: a higher sequence number first, and among
    equal sequence numbers a later time first. *)
Definition ranks_before `{Platform} (a b : RawItem) : Prop :=
  exists za zb, seq_number a = Some za /\ seq_number b = Some zb
    /\ (zb < za \/ za = zb /\ timeOf b <= timeOf a).

(** The time the specification compares by: [published_utc], a missing or
    unparsable one counting as the epoch. *)
Definition published_time `{Platform} (it : RawItem) : Z :=
  match published_utc it with
  | Some s => num_or_zero (Date_parse s)
  | None => 0
  end.

(** ** Example data *)

(** An item with no property at all. *)
Definition blank : RawItem :=
  {| title := None; url := None; canonical_url := None; canonical_id := None;
     cluster_id := None; source := None; published_utc := None; published := None;
     paywall := false; category := None; region := None; __seq := None |}.

Definition with_cluster (c : string) (it : RawItem) : RawItem :=
  {| title := title it; url := url it; canonical_url := canonical_url it;
     canonical_id := canonical_id it; cluster_id := Some c;
     source := source it; published_utc := published_utc it;
     published := published it; paywall := paywall it;
     category := category it; region := region it; __seq := __seq it |}.

Definition with_canonical_url (u : string) (it : RawItem) : RawItem :=
  {| title := title it; url := url it; canonical_url := Some u;
     canonical_id := canonical_id it; cluster_id := cluster_id it;
     source := source it; published_utc := published_utc it;
     published := published it; paywall := paywall it;
     category := category it; region := region it; __seq := __seq it |}.

Definition with_source (src : string) (it : RawItem) : RawItem :=
  {| title := title it; url := url it; canonical_url := canonical_url it;
     canonical_id := canonical_id it; cluster_id := cluster_id it;
     source := Some src; published_utc := published_utc it;
     published := published it; paywall := paywall it;
     category := category it; region := region it; __seq := __seq it |}.

Definition with_published_utc (t : string) (it : RawItem) : RawItem :=
  {| title := title it; url := url it; canonical_url := canonical_url it;
     canonical_id := canonical_id it; cluster_id := cluster_id it;
     source := source it; published_utc := Some t;
     published := published it; paywall := paywall it;
     category := category it; region := region it; __seq := __seq it |}.

Definition with_published (t : string) (it : RawItem) : RawItem :=
  {| title := title it; url := url it; canonical_url := canonical_url it;
     canonical_id := canonical_id it; cluster_id := cluster_id it;
     source := source it; published_utc := published_utc it;
     published := Some t; paywall := paywall it;
     category := category it; region := region it; __seq := __seq it |}.

Definition with_title (t : string) (it : RawItem) : RawItem :=
  {| title := Some t; url := url it; canonical_url := canonical_url it;
     canonical_id := canonical_id it; cluster_id := cluster_id it;
     source := source it; published_utc := published_utc it;
     published := published it; paywall := paywall it;
     category := category it; region := region it; __seq := __seq it |}.

Definition with_url (u : string) (it : RawItem) : RawItem :=
  {| title := title it; url := Some u; canonical_url := canonical_url it;
     canonical_id := canonical_id it; cluster_id := cluster_id it;
     source := source it; published_utc := published_utc it;
     published := published it; paywall := paywall it;
     category := category it; region := region it; __seq := __seq it |}.

(** Storage that works and holds nothing. *)
Definition empty_store : Storage :=
  {| cell := None; denied := false; full := false; written := [] |}.

Definition store_with (text : string) : Storage :=
  {| cell := Some text; denied := false; full := false; written := [] |}.

(** The items of the identity-priority example. *)
Definition both_signals : RawItem :=
  with_canonical_url "https://a.com/b" (with_cluster "X" blank).
Definition only_cluster : RawItem := with_cluster "X" blank.
Definition only_canonical_url : RawItem := with_canonical_url "https://a.com/b" blank.

(** The items of the tie-break scenario. *)
Definition google_item : RawItem :=
  with_source "Google News" (with_published_utc "2024-01-01T00:00:00Z" (with_cluster "s1" blank)).
Definition reuters_item : RawItem :=
  with_source "Reuters" (with_published_utc "2024-01-01T00:00:00Z" (with_cluster "s1" blank)).

(** An item dated by the older property [published] only, and one dated a
    day earlier by [published_utc]. *)
Definition legacy_item : RawItem :=
  with_published "2024-01-02T00:00:00Z" (with_cluster "s1" blank).
Definition dated_item : RawItem :=
  with_published_utc "2024-01-01T00:00:00Z" (with_cluster "s1" blank).

(** An item whose timestamp cannot be read and one from before the
    epoch. *)
Definition undated_item : RawItem := with_published_utc "not a date" (with_cluster "a" blank).
Definition old_item : RawItem :=
  with_published_utc "1969-12-31T23:59:59Z" (with_cluster "b" blank).

(** Stored text in which two keys have the same number. *)
Definition tied_store : Storage :=
  store_with
    (ref_JSON_stringify
       (JObj [("counter", JNum (Num 1));
              ("map", JObj [("c:a", JNum (Num 1)); ("c:b", JNum (Num 1))])])).

(** Stored text whose counter is not a number. *)
Definition bad_counter_store : Storage :=
  store_with
    (ref_JSON_stringify
       (JObj [("counter", JStr "abc"); ("map", JObj [("c:x", JNum (Num 3))])])).

Definition not_json_store : Storage := store_with "{not json".

(** Storage that cannot take a write, holding nothing. *)
Definition full_store : Storage :=
  {| cell := None; denied := false; full := true; written := [] |}.

(** Stored text whose counter is 2^53 (9007199254740992), the last integer
    up to which a double holds every integer. *)
Definition big_counter_store : Storage :=
  store_with
    (ref_JSON_stringify (JObj [("counter", JNum (Num (2 ^ 53))); ("map", JObj [])])).

(** Stored text whose map is an array. *)
Definition array_store : Storage :=
  store_with (ref_JSON_stringify (JObj [("counter", JNum (Num 0)); ("map", JArr [])])).

(** Stored text in which a key has a number above the counter. *)
Definition ahead_store : Storage :=
  store_with
    (ref_JSON_stringify
       (JObj [("counter", JNum (Num 0)); ("map", JObj [("c:s1", JNum (Num 5))])])).

(** Stored text in which a key has a value that cannot be converted to a
    number: an object with an own property [toString]. *)
Definition opaque_store : Storage :=
  store_with
    (ref_JSON_stringify
       (JObj [("counter", JNum (Num 1));
              ("map", JObj [("c:s1", JObj [("toString", JNum (Num 1))])])])).

(** Stored text whose counter is such an object. *)
Definition opaque_counter_store : Storage :=
  store_with
    (ref_JSON_stringify
       (JObj [("counter", JObj [("toString", JNum (Num 1))]);
              ("map", JObj [("c:x", JNum (Num 3))])])).

(** The concrete example of the specification, and a later feed with one
    story more. *)
Definition storm_first : RawItem :=
  with_title "Storm Hits Region - Example.com"
    (with_published_utc "2024-01-01T00:00:00Z" (with_cluster "s1" blank)).
Definition storm_second : RawItem :=
  with_title "Storm hits region"
    (with_source "News Aggregator"
       (with_published_utc "2024-01-01T00:05:00Z" (with_cluster "s1" blank))).
Definition flood_item : RawItem :=
  with_title "Flood warning issued"
    (with_url "https://example.com/flood/"
       (with_published_utc "2024-01-01T00:10:00Z" blank)).
Definition quake_item : RawItem :=
  with_title "Quake shakes coast"
    (with_url "https://example.com/quake"
       (with_published_utc "2024-01-02T00:00:00Z" blank)).

Definition first_feed : list RawItem := [storm_first; storm_second; flood_item].
Definition second_feed : list RawItem := [storm_second; quake_item; flood_item].

(** An item with the sequence number [n]. *)
Definition ranked (n : Z) (it : RawItem) : RawItem := set_seq (Some (JNum (Num n))) it.

(** What [normalize] returns for the two feeds, one after the other, from
    empty storage. *)
Definition first_output : list RawItem :=
  [set_seq (Some (JNum (Num 2))) flood_item; set_seq (Some (JNum (Num 1))) storm_second].
Definition quake_ranked : RawItem := set_seq (Some (JNum (Num 3))) quake_item.
Definition second_output : list RawItem :=
  [quake_ranked; set_seq (Some (JNum (Num 2))) flood_item;
   set_seq (Some (JNum (Num 1))) storm_second].

(** Two cycles of [normalize] over the two feeds, the second on the
    storage the first left: what the two return. *)
Definition two_cycles `{Platform} (store : Storage) : option Feed * option Feed :=
  let cycle1 := normalize (feed_of first_feed None) store in
  let cycle2 := normalize (feed_of second_feed None) cycle1.2 in
  (cycle1.1, cycle2.1).

(** ** Rendering helpers *)

(** [s.replaceAll(pat, rep)] for a string pattern: the occurrences of
    [pat], found from left to right without overlap, are replaced by
    [rep], which is taken literally (it holds no [$] in the program).
    [skip] counts the characters of an occurrence still to be passed
    over; an empty pattern matches before every character and at the
    end. *)
Fixpoint replaceAll_from (pat rep : string) (skip : nat) (s : string) : string :=
  match s with
  | EmptyString => EmptyString
  | String c s' =>
      match skip with
      | S k => replaceAll_from pat rep k s'
      | O =>
          if startsWith pat s
          then rep +:+ replaceAll_from pat rep (String.length pat - 1) s'
          else String c (replaceAll_from pat rep 0 s')
      end
  end.

Fixpoint intersperse_after (rep : string) (s : string) : string :=
  match s with
  | EmptyString => EmptyString
  | String c s' => String c (rep +:+ intersperse_after rep s')
  end.

Definition replaceAll (pat rep : string) (s : string) : string :=
  if is_empty pat then rep +:+ intersperse_after rep s
  else replaceAll_from pat rep 0 s.

Definition escapeHtml (s : option string) : string :=
  let s := or_empty s in
  let s := replaceAll "&" "&amp;" s in
  let s := replaceAll "<" "&lt;" s in
  let s := replaceAll ">" "&gt;" s in
  let s := replaceAll quote_char "&quot;" s in
  replaceAll "'" "&#39;" s.

(** [o || d] for an optional string property *)
Definition or_default (d : string) (o : option string) : string :=
  if truthy o then or_empty o else d.

(** [applyFilters(items)], with the two filter settings it reads:
    [activeCategory] (a string, [all] for every category) and
    [activeRegion] ([null] for every region). *)
Definition applyFilters (activeCategory : string) (activeRegion : option string)
    (items : list RawItem) : list RawItem :=
  List.filter
    (fun it =>
       let cat := or_default "General" (category it) in
       let reg := or_default "World" (region it) in
       let catOk :=
         if String.eqb activeCategory "all" then true else String.eqb cat activeCategory in
       let regOk :=
         if truthy activeRegion then String.eqb reg (or_empty activeRegion) else true in
       catOk && regOk)
    items.

(** ** Vocabulary of the further properties *)

(** The characters of a string. *)
Fixpoint chars (s : string) : list ascii :=
  match s with
  | EmptyString => []
  | String c s' => c :: chars s'
  end.

(** What [escapeHtml] writes for one character. *)
Definition escape_html_char (c : ascii) : string :=
  if Ascii.eqb c "&" then "&amp;"
  else if Ascii.eqb c "<" then "&lt;"
  else if Ascii.eqb c ">" then "&gt;"
  else if Ascii.eqb c "034" then "&quot;"
  else if Ascii.eqb c "'" then "&#39;"
  else String c EmptyString.

(** The characters [escapeHtml] replaces. *)
Definition html_special (c : ascii) : bool :=
  Ascii.eqb c "&" || Ascii.eqb c "<" || Ascii.eqb c ">" || Ascii.eqb c "034"
  || Ascii.eqb c "'".

(** One character replaced by a string throughout. *)
Fixpoint subst_char (a : ascii) (rep : string) (s : string) : string :=
  match s with
  | EmptyString => EmptyString
  | String c s' => (if Ascii.eqb a c then rep else String c EmptyString) +:+ subst_char a rep s'
  end.

(** What follows the [&] of the five entities [escapeHtml] writes. *)
Definition ENTITY_TAILS : list string := ["amp;"; "lt;"; "gt;"; "quot;"; "#39;"].

(** The category and the region an item is filed under. *)
Definition shown_category (it : RawItem) : string := or_default "General" (category it).
Definition shown_region (it : RawItem) : string := or_default "World" (region it).

(** The three criteria of [chooseBetter] as one number: the time first,
    then not being an aggregator, then not being paywalled. *)
Definition score `{Platform} (it : RawItem) : Z :=
  4 * timeOf it + (if isAggregator it then 0 else 2) + (if paywall it then 0 else 1).

(** Two items that [chooseBetter] cannot tell apart. *)
Definition tie `{Platform} (a b : RawItem) : Prop :=
  timeOf a = timeOf b /\ isAggregator a = isAggregator b /\ paywall a = paywall b.

(** [s] is at least as good as [it]: later, or as late and not an
    aggregator where [it] is one, or equal in both and not paywalled where
    [it] is. *)
Definition at_least_as_good `{Platform} (s it : RawItem) : Prop :=
  timeOf it < timeOf s
  \/ timeOf it = timeOf s
     /\ (isAggregator it = true /\ isAggregator s = false
         \/ isAggregator it = isAggregator s
            /\ (paywall it = true \/ paywall s = false)).

(** No two different items of the list with the same key tie. *)
Definition tie_free `{Platform} (l : list RawItem) : Prop :=
  forall a b, a ∈ l -> b ∈ l -> dedupeKey a = dedupeKey b -> tie a b -> a = b.

(** The tokens [fuzzyTitleKey] builds the signature from: the tokens of
    the title without its source tail that are longer than one character
    and are not stop words. *)
Definition significant (title : string) : list string :=
  List.filter
    (fun w => (1 <? String.length w)%nat && negb (bool_decide (w ∈ STOPWORDS)))
    (tokenize (stripSourceTail title)).

(** The order of [sort()] on strings. *)
Definition string_le (a b : string) : Prop := String.compare a b <> Gt.
Definition string_lt (a b : string) : Prop := String.compare a b = Lt.

(** A byte of white space or of a dash of the source-tail pattern: ASCII
    white space, the hyphen, or a byte of a character beyond ASCII. *)
Definition tail_byte (c : ascii) : Prop :=
  (9 <= code c <= 13 \/ code c = 32 \/ code c = 45 \/ 128 <= code c)%N.

(** A byte with which neither white space nor a dash starts: not ASCII
    white space, not the hyphen, and not one of the bytes 194, 225, 226,
    227 and 239 with which the UTF-8 encodings of the white space and the
    dashes beyond ASCII begin (other characters begin with these bytes
    too, and are left out with them). *)
Definition inert (c : ascii) : bool :=
  negb ((9 <=? code c) && (code c <=? 13) || (code c =? 32) || (code c =? 45)
        || (code c =? 194) || (code c =? 225) || (code c =? 226)
        || (code c =? 227) || (code c =? 239))%N.

(** A plain title: words of inert bytes, separated by spaces, each space
    followed by a further character. *)
Fixpoint plain_title (s : string) : bool :=
  match s with
  | EmptyString => true
  | String c s' =>
      (inert c || Ascii.eqb c " " && negb (is_empty s')) && plain_title s'
  end.

(** The three dashes of the source-tail pattern: hyphen, en dash, em dash. *)
Definition DASHES : list string :=
  ["-"; String "226" (String "128" (String "147" EmptyString));
   String "226" (String "128" (String "148" EmptyString))].

(** The keys of [ids] the record has no number for, each once, in the
    order in which they first occur. *)
Definition new_keys (s : SeqState) (ids : list string) : list string :=
  first_seen (filter (fun k => unseen s k = true) ids).

(** [a] carries a higher sequence number than [b]. *)
Definition seq_above (a b : RawItem) : Prop :=
  exists za zb, seq_number a = Some za /\ seq_number b = Some zb /\ zb < za.

(** Adding 1 to the integer [c], [n] times over, is exact: [c] is not
    below -2^53 and [c + n] is not above 2^53. *)
Definition exact_from (c : Z) (n : nat) : Prop :=
  - 2 ^ 53 <= c /\ c + Z.of_nat n <= 2 ^ 53.

(** The record has room for the keys [ids]: its counter is an integer and
    the numbers for the keys of [ids] it has no number for are reached by
    exact additions. *)
Definition has_room (s : SeqState) (ids : list string) : Prop :=
  exists c, counter s = Num c /\ exact_from c (length (new_keys s ids)).

(** The counter of the record and the values of its map are integers. *)
Definition integer_valued (s : SeqState) : Prop :=
  (exists c, counter s = Num c)
  /\ forall k v, map s !! k = Some v -> exists z, v = JNum (Num z).

(** A sequence value whose conversion to a number throws. *)
Definition seq_throws (it : RawItem) : bool := no_primitive (or_zero (__seq it)).

(** The promotion of new items, for the outputs [out1] and [out2] of two
    cycles, the first from the record [s0] over the feed [its1]: an item
    of the second output whose key is new (the record had no number for
    it and it is not a key of the first feed) carries a number above the
    number of every item of the first output, and stands in the second
    output before every item whose key is a key of the first feed. *)
Definition promoted `{Platform} (s0 : SeqState) (its1 out1 out2 : list RawItem) : Prop :=
  forall x, x ∈ out2 -> unseen s0 (dedupeKey x) = true ->
    dedupeKey x ∉ (dedupeKey <$> its1) ->
    exists zx, seq_number x = Some zx
      /\ (forall y, y ∈ out1 -> exists zy, seq_number y = Some zy /\ zy < zx)
      /\ (forall y (i j : nat), out2 !! i = Some x -> out2 !! j = Some y ->
            dedupeKey y ∈ (dedupeKey <$> its1) -> (i < j)%nat).

(** * Properties *)

(** ** Strings *)

Lemma is_empty_true (s : string) : is_empty s = true <-> s = EmptyString.
Proof. destruct s; simpl; split; congruence. Qed.

Lemma is_empty_false (s : string) : is_empty s = false <-> s <> EmptyString.
Proof. destruct s; simpl; split; congruence. Qed.

Lemma truthy_Some (s : string) : s <> EmptyString -> truthy (Some s) = true.
Proof. intros Hs. simpl. apply is_empty_false in Hs. by rewrite Hs. Qed.

Lemma truthy_inv (o : option string) :
  truthy o = true -> exists s, o = Some s /\ s <> EmptyString.
Proof.
  destruct o as [s|]; simpl; [|done].
  intros Hs. exists s. split; [done|].
  apply is_empty_false. by destruct (is_empty s).
Qed.

Lemma app_cons (c : ascii) (s t : string) : String c s +:+ t = String c (s +:+ t).
Proof. reflexivity. Qed.

Lemma app_empty_l (s : string) : EmptyString +:+ s = s.
Proof. reflexivity. Qed.

Lemma endsWith_app (p q : string) : endsWith p (q +:+ p) = true.
Proof.
  induction q as [|c q IH].
  - rewrite app_empty_l. destruct p; [done|].
    cbn [endsWith]. by rewrite String.eqb_refl.
  - rewrite app_cons. cbn [endsWith]. rewrite IH. apply orb_true_r.
Qed.

Lemma drop_last_app (q : string) (c : ascii) :
  drop_last (q +:+ String c EmptyString) = q.
Proof.
  induction q as [|d q IH]; [done|].
  rewrite app_cons. cbn [drop_last]. rewrite IH.
  by destruct q.
Qed.

Lemma before_before_cut (s : string) :
  before "#" (before "?" s) = cut_at query_or_fragment s.
Proof.
  induction s as [|c s IH]; [done|].
  unfold query_or_fragment in *. cbn [before cut_at].
  destruct (Ascii.eqb c "?") eqn:Hq; [done|].
  cbn [before orb]. destruct (Ascii.eqb c "#"); [done|].
  by rewrite IH.
Qed.

Lemma strip_scheme_https (r : string) : strip_scheme ("https://" +:+ r) = r.
Proof. reflexivity. Qed.

Lemma strip_scheme_http (r : string) : strip_scheme ("http://" +:+ r) = r.
Proof. reflexivity. Qed.

Lemma prefix_app (p x : string) : String.prefix p (p +:+ x) = true.
Proof.
  induction p as [|c p IH].
  - by destruct x.
  - rewrite app_cons. cbn. by destruct (ascii_dec c c).
Qed.

Lemma includes_prefix (p x : string) : includes p (p +:+ x) = true.
Proof.
  unfold includes. destruct (p +:+ x) as [|c r] eqn:E.
  - by destruct p.
  - cbn [String.index]. rewrite <- E. by rewrite prefix_app.
Qed.

(** ** Identity resolver *)

Section Identity.
Context `{Platform}.

(** The two tests that guard the removal of a mobile label can never
    both hold: a host that starts with [m.] has its first dot at
    position 1, one that starts with [mobile.] at position 6. *)
Lemma mobile_label_guard (h : string) :
  startsWith "m." h && (1 <? indexOf "." h) = false
  /\ startsWith "mobile." h && (6 <? indexOf "." h) = false.
Proof.
  unfold indexOf. split.
  - destruct h as [|c1 [|c2 r]]; cbn [startsWith];
      repeat match goal with
             | |- context [Ascii.eqb ?a ?b] => destruct (Ascii.eqb_spec a b) as [<-|]
             end; try done.
    by destruct r.
  - destruct h as [|c1 [|c2 [|c3 [|c4 [|c5 [|c6 [|c7 r]]]]]]];
      cbn [startsWith];
      repeat match goal with
             | |- context [Ascii.eqb ?a ?b] => destruct (Ascii.eqb_spec a b) as [<-|]
             end; try done.
    by destruct r.
Qed.

(** What [hostPath] computes when the URL parses: the lower-cased host,
    as it is, then the path without one trailing slash. *)
Lemma hostPath_parsed (u : string) (parsed : URL) :
  URL_parse u = Some parsed ->
  hostPath u =
    toLowerCase (host parsed)
    +:+ (let path := if is_empty (pathname parsed) then "/" else pathname parsed in
         if negb (String.eqb path "/") && endsWith "/" path
         then drop_last path else path).
Proof.
  intros Hp. unfold hostPath. rewrite Hp.
  destruct (mobile_label_guard (toLowerCase (host parsed))) as [-> _].
  destruct (mobile_label_guard (toLowerCase (host parsed))) as [_ ->].
  reflexivity.
Qed.

Lemma fuzzyTitleKey_prefix (t : string) : exists r, fuzzyTitleKey t = "fk:" +:+ r.
Proof. unfold fuzzyTitleKey. destruct (List.filter _ _); eauto. Qed.

(** Every identity key holds a colon: it is neither an array index nor the
    name of a property that objects and arrays inherit, so that
    [state.map[id]] reads an own property of the map or nothing. *)
Lemma getItemId_colon (it : RawItem) : exists a b, getItemId it = a +:+ ":" +:+ b.
Proof.
  unfold getItemId, dedupeKey.
  destruct (truthy (cluster_id it)); [by exists "c", (or_empty (cluster_id it))|].
  destruct (truthy (canonical_id it)); [by exists "i", (or_empty (canonical_id it))|].
  destruct (truthy (canonical_url it));
    [by exists "u", (hostPath (or_empty (canonical_url it)))|].
  destruct (truthy (url it)); [by exists "u", (hostPath (or_empty (url it)))|].
  destruct (fuzzyTitleKey_prefix (or_empty (title it))) as [r ->]. by exists "fk", r.
Qed.

(** Every identity key carries the marker of the signal it comes from. *)
Lemma dedupeKey_marker (it : RawItem) :
  exists r, dedupeKey it = "c:" +:+ r /\ truthy (cluster_id it) = true
         \/ truthy (cluster_id it) = false
            /\ (dedupeKey it = "i:" +:+ r \/ dedupeKey it = "u:" +:+ r
                \/ dedupeKey it = "fk:" +:+ r).
Proof.
  unfold dedupeKey. destruct (truthy (cluster_id it)); [eauto|].
  destruct (truthy (canonical_id it)); [eauto 6|].
  destruct (truthy (canonical_url it)); [eauto 6|].
  destruct (truthy (url it)); [eauto 6|].
  destruct (fuzzyTitleKey_prefix (or_empty (title it))) as [r ->]. eauto 6.
Qed.

Lemma dedupeKey_cluster (it : RawItem) (c : string) :
  present (cluster_id it) c -> dedupeKey it = "c:" +:+ c.
Proof. intros [Hc Hne]. unfold dedupeKey. by rewrite Hc, (truthy_Some c Hne). Qed.

(** C1. The identity key comes from the first signal that is present, in
    the order cluster_id, canonical_id, canonical_url, url, title: it is
    [c:] + cluster_id, else [i:] + canonical_id, else [u:] + the
    normalized canonical_url, else [u:] + the normalized url, else the
    fuzzy title signature.  Hence two items with the same cluster_id have
    the same key whatever else they carry, and an item with a cluster_id
    never has the key of an item without one (such as an item with only
    a canonical_url). *)
Theorem dedupeKey_priority (it : RawItem) :
  (forall c, present (cluster_id it) c -> dedupeKey it = "c:" +:+ c)
  /\ (forall i, absent (cluster_id it) -> present (canonical_id it) i ->
         dedupeKey it = "i:" +:+ i)
  /\ (forall u, absent (cluster_id it) -> absent (canonical_id it) ->
         present (canonical_url it) u -> dedupeKey it = "u:" +:+ hostPath u)
  /\ (forall u, absent (cluster_id it) -> absent (canonical_id it) ->
         absent (canonical_url it) -> present (url it) u ->
         dedupeKey it = "u:" +:+ hostPath u)
  /\ (absent (cluster_id it) -> absent (canonical_id it) ->
       absent (canonical_url it) -> absent (url it) ->
       dedupeKey it = fuzzyTitleKey (or_empty (title it)))
  /\ (forall x other, present (cluster_id it) x -> present (cluster_id other) x ->
         dedupeKey it = dedupeKey other)
  /\ (forall x other, present (cluster_id it) x -> absent (cluster_id other) ->
         dedupeKey it <> dedupeKey other).
Proof.
  unfold present, absent, dedupeKey.
  repeat split.
  - apply dedupeKey_cluster.
  - intros i -> [-> Hi]. by rewrite (truthy_Some i Hi).
  - intros u -> -> [-> Hu]. by rewrite (truthy_Some u Hu).
  - intros u -> -> -> [-> Hu]. by rewrite (truthy_Some u Hu).
  - by intros -> -> -> ->.
  - intros x other [-> Hx] [-> _]. by rewrite (truthy_Some x Hx).
  - intros x other [-> Hx] Hno. rewrite (truthy_Some x Hx).
    fold (dedupeKey other).
    destruct (dedupeKey_marker other) as [r [[_ Hc]|[_ [Hk|[Hk|Hk]]]]];
      [congruence|rewrite Hk; discriminate..].
Qed.

(** C2, as the code has it.  When the URL parses and its lower-cased host
    does not start with [m.] or [mobile.], the result is that host
    followed by the pathname, without one trailing slash unless the
    path is the root; query, fragment and scheme are not part of it.
    When the URL does not parse, a leading [http://] or [https://] is
    dropped and the rest is cut before its first [?] or [#].  So two URLs
    whose hosts differ in case only and whose paths differ by one
    trailing slash normalize to the same string. *)
Theorem hostPath_normalizes (u : string) :
  (forall parsed, URL_parse u = Some parsed ->
     startsWith "m." (toLowerCase (host parsed)) = false ->
     startsWith "mobile." (toLowerCase (host parsed)) = false ->
     (forall p, pathname parsed = p +:+ "/" -> p <> EmptyString ->
        hostPath u = toLowerCase (host parsed) +:+ p)
     /\ (endsWith "/" (pathname parsed) = false -> pathname parsed <> EmptyString ->
         hostPath u = toLowerCase (host parsed) +:+ pathname parsed)
     /\ (pathname parsed = "/" \/ pathname parsed = EmptyString ->
         hostPath u = toLowerCase (host parsed) +:+ "/")
     /\ (forall u' parsed' p,
           URL_parse u' = Some parsed' ->
           toLowerCase (host parsed') = toLowerCase (host parsed) ->
           pathname parsed = p +:+ "/" -> pathname parsed' = p ->
           p <> EmptyString -> endsWith "/" p = false ->
           hostPath u = hostPath u'))
  /\ (URL_parse u = None ->
      hostPath u = cut_at query_or_fragment (strip_scheme u)
      /\ (forall r, u = "https://" +:+ r \/ u = "http://" +:+ r ->
            hostPath u = cut_at query_or_fragment r)).
Proof.
  split.
  - intros parsed Hp _ _.
    assert (Hslash : forall p, p <> EmptyString ->
              hostPath u = toLowerCase (host parsed) +:+ p
              \/ pathname parsed <> p +:+ "/").
    { intros p Hne. destruct (decide (pathname parsed = p +:+ "/")) as [Hpath|]; [left|by right].
      rewrite (hostPath_parsed u parsed Hp), Hpath. cbn zeta.
      replace (is_empty (p +:+ "/")) with false by (by destruct p).
      replace (String.eqb (p +:+ "/") "/") with false; cycle 1.
      { symmetry. apply String.eqb_neq. destruct p as [|c [|d p]]; done. }
      by rewrite endsWith_app, drop_last_app. }
    assert (Hplain : endsWith "/" (pathname parsed) = false ->
              pathname parsed <> EmptyString ->
              hostPath u = toLowerCase (host parsed) +:+ pathname parsed).
    { intros He Hne. rewrite (hostPath_parsed u parsed Hp). cbn zeta.
      apply is_empty_false in Hne. rewrite Hne, He.
      by rewrite andb_false_r. }
    repeat split.
    + intros p Hpath Hne. destruct (Hslash p Hne); done.
    + done.
    + rewrite (hostPath_parsed u parsed Hp).
      intros [->| ->]; reflexivity.
    + intros u' parsed' p Hp' Hhost Hpath Hpath' Hne He.
      destruct (Hslash p Hne) as [->|]; [|done].
      rewrite (hostPath_parsed u' parsed' Hp'), Hhost, Hpath'. cbn zeta.
      apply is_empty_false in Hne. rewrite Hne, He.
      by rewrite andb_false_r.
  - intros Hp. unfold hostPath. rewrite Hp, before_before_cut.
    split; [done|]. by intros r [->| ->].
Qed.
End Identity.

(** ** Conflict resolver *)

Section Conflict.
Context `{Platform}.

Lemma timeOf_published_utc (it : RawItem) (s : string) :
  present (published_utc it) s -> timeOf it = num_or_zero (Date_parse s).
Proof.
  intros [Hs Hne]. unfold timeOf, stamp. by rewrite Hs, (truthy_Some s Hne).
Qed.

Lemma timeOf_published (it : RawItem) (s : string) :
  absent (published_utc it) -> present (published it) s ->
  timeOf it = num_or_zero (Date_parse s).
Proof.
  intros Hno [Hs Hne]. unfold timeOf, stamp.
  by rewrite Hno, Hs, (truthy_Some s Hne).
Qed.

Lemma isAggregator_google_news (it : RawItem) :
  source it = Some "Google News" -> isAggregator it = true.
Proof.
  intros Hs. unfold isAggregator. rewrite Hs.
  cbn [or_empty].
  change (toLowerCase ("Google News" +:+ " " +:+ or_empty (url it)))
    with ("google news" +:+ toLowerCase (" " +:+ or_empty (url it))).
  cbn [AGGREGATOR_PATTERNS existsb].
  rewrite (includes_prefix "google news").
  by rewrite orb_true_r.
Qed.

(** C3, as the code has it.  The timestamp of an item is [published_utc]
    or, when that is missing or empty, the older property [published];
    one that [Date.parse] cannot read counts as the epoch.  [chooseBetter]
    returns the item with the strictly later timestamp; when the
    timestamps are equal, the one that is not an aggregator if exactly
    one is; then the one that is not paywalled if exactly one is; else
    its first argument.  So of two items with the same [published_utc],
    one from Google News and one from Reuters that shows no aggregator
    signature, the Reuters item is kept, in either order. *)
Theorem chooseBetter_order (a b : RawItem) :
  (timeOf a < timeOf b -> chooseBetter a b = b)
  /\ (timeOf b < timeOf a -> chooseBetter a b = a)
  /\ (timeOf a = timeOf b -> isAggregator a = true -> isAggregator b = false ->
      chooseBetter a b = b)
  /\ (timeOf a = timeOf b -> isAggregator a = false -> isAggregator b = true ->
      chooseBetter a b = a)
  /\ (timeOf a = timeOf b -> isAggregator a = isAggregator b ->
      paywall a = true -> paywall b = false -> chooseBetter a b = b)
  /\ (timeOf a = timeOf b -> isAggregator a = isAggregator b ->
      paywall a = false -> paywall b = true -> chooseBetter a b = a)
  /\ (timeOf a = timeOf b -> isAggregator a = isAggregator b ->
      paywall a = paywall b -> chooseBetter a b = a)
  /\ (forall s, present (published_utc a) s ->
        timeOf a = num_or_zero (Date_parse s)
        /\ (Date_parse s = NaN -> timeOf a = 0))
  /\ (forall s, absent (published_utc a) -> present (published a) s ->
        timeOf a = num_or_zero (Date_parse s)
        /\ (Date_parse s = NaN -> timeOf a = 0))
  /\ (forall t, present (published_utc a) t -> present (published_utc b) t ->
        source a = Some "Google News" -> source b = Some "Reuters" ->
        isAggregator b = false ->
        chooseBetter a b = b /\ chooseBetter b a = b).
Proof.
  assert (Hscenario : forall x y t,
            present (published_utc x) t -> present (published_utc y) t ->
            isAggregator x = true -> isAggregator y = false ->
            chooseBetter x y = y /\ chooseBetter y x = y).
  { intros x y t Hx Hy Hax Hay. unfold chooseBetter.
    rewrite (timeOf_published_utc x t), (timeOf_published_utc y t) by done.
    by rewrite Z.eqb_refl, Hax, Hay. }
  unfold chooseBetter. repeat split; try by (eapply Hscenario; eauto using isAggregator_google_news).
  - intros Hlt. destruct (Z.eqb_spec (timeOf b) (timeOf a)); [lia|].
    cbn [negb]. by destruct (Z.ltb_spec (timeOf a) (timeOf b)); [|lia].
  - intros Hlt. destruct (Z.eqb_spec (timeOf b) (timeOf a)); [lia|].
    cbn [negb]. by destruct (Z.ltb_spec (timeOf a) (timeOf b)); [lia|].
  - intros -> -> ->. by rewrite Z.eqb_refl.
  - intros -> -> ->. by rewrite Z.eqb_refl.
  - intros -> -> -> ->. rewrite Z.eqb_refl. by destruct (isAggregator b).
  - intros -> -> -> ->. rewrite Z.eqb_refl. by destruct (isAggregator b).
  - intros -> -> ->. rewrite Z.eqb_refl.
    by destruct (isAggregator b), (paywall b).
  - by apply timeOf_published_utc.
  - intros Hnan. rewrite (timeOf_published_utc a s) by done. by rewrite Hnan.
  - by apply timeOf_published.
  - intros Hnan. rewrite (timeOf_published a s) by done. by rewrite Hnan.
Qed.
End Conflict.

(** ** De-duplication *)

Section MapFacts.
Context {A : Type}.
Implicit Types (m : list (string * A)) (k : string) (v : A).

Lemma Map_get_None k m : Map_get k m = None <-> k ∉ m.*1.
Proof.
  induction m as [|[k' v'] m IH]; cbn [Map_get fmap list_fmap fst].
  - split; [intros _; apply not_elem_of_nil|done].
  - rewrite not_elem_of_cons. destruct (decide (k' = k)); naive_solver.
Qed.

Lemma Map_get_elem k v m : Map_get k m = Some v -> (k, v) ∈ m.
Proof.
  induction m as [|[k' v'] m IH]; cbn [Map_get]; [done|].
  destruct (decide (k' = k)) as [->|].
  - intros [= ->]. apply list_elem_of_here.
  - intros Hg. apply list_elem_of_further. auto.
Qed.

Lemma Map_set_fresh k v m :
  Map_get k m = None -> Map_set k v m = (m ++ [(k, v)])%list.
Proof.
  induction m as [|[k' v'] m IH]; cbn [Map_get Map_set]; [done|].
  destruct (decide (k' = k)); [done|]. intros Hg. by rewrite IH.
Qed.

Lemma Map_set_keys k v v0 m : Map_get k m = Some v0 -> (Map_set k v m).*1 = m.*1.
Proof.
  revert v0. induction m as [|[k' v'] m IH]; intros v0; cbn [Map_get Map_set]; [done|].
  destruct (decide (k' = k)) as [->|]; [done|].
  intros Hg. cbn [fmap list_fmap fst]. f_equal. by apply (IH v0).
Qed.

Lemma Map_set_elem k v m p : p ∈ Map_set k v m -> p = (k, v) \/ p ∈ m.
Proof.
  induction m as [|[k' v'] m IH]; cbn [Map_set].
  - intros ->%list_elem_of_singleton. by left.
  - destruct (decide (k' = k)) as [->|].
    + intros [->|Hp]%elem_of_cons; [by left|].
      right. by apply list_elem_of_further.
    + intros [->|Hp]%elem_of_cons; [right; apply list_elem_of_here|].
      destruct (IH Hp); [by left|right; by apply list_elem_of_further].
Qed.
End MapFacts.

Lemma first_seen_elem (l : list string) (x : string) : x ∈ first_seen l <-> x ∈ l.
Proof.
  induction l as [|y l IH]; cbn [first_seen]; [done|].
  rewrite !elem_of_cons, list_elem_of_filter, IH.
  destruct (decide (x = y)); naive_solver.
Qed.

Lemma first_seen_NoDup (l : list string) : NoDup (first_seen l).
Proof.
  induction l as [|y l IH]; cbn [first_seen]; [constructor|].
  constructor; [|by apply NoDup_filter].
  rewrite list_elem_of_filter. naive_solver.
Qed.

Lemma NoDup_count_one (l : list string) (k : string) :
  NoDup l -> k ∈ l -> length (filter (fun x => x = k) l) = 1%nat.
Proof.
  induction 1 as [|x l Hx Hl IH]; [by intros ?%elem_of_nil|].
  intros [->|Hk]%elem_of_cons.
  - rewrite filter_cons_True by done. cbn [length]. f_equal.
    destruct (filter (fun y => y = x) l) as [|y r] eqn:E; [done|].
    assert (Hy : y ∈ filter (fun y => y = x) l) by (rewrite E; apply list_elem_of_here).
    apply list_elem_of_filter in Hy as [-> Hy]. done.
  - rewrite filter_cons_False; [by apply IH|].
    intros ->. done.
Qed.

Section Dedupe.
Context `{Platform}.

Lemma chooseBetter_cases (a b : RawItem) :
  chooseBetter a b = a \/ chooseBetter a b = b.
Proof.
  unfold chooseBetter.
  repeat match goal with
         | |- context [if ?c then _ else _] => destruct c
         end; auto.
Qed.

Lemma dedupe_step_keyed m it : keyed m -> keyed (dedupe_step m it).
Proof.
  intros Hm k x. unfold dedupe_step.
  destruct (Map_get (dedupeKey it) m) as [prev|] eqn:Hg.
  - intros [[= -> ->]|Hin]%Map_set_elem; [|by apply Hm].
    destruct (chooseBetter_cases prev it) as [-> | ->]; [|done].
    apply Hm. by apply Map_get_elem.
  - intros [[= -> ->]|Hin]%Map_set_elem; [done|by apply Hm].
Qed.

Lemma dedupe_step_keys m it :
  (dedupe_step m it).*1 =
    if decide (dedupeKey it ∈ m.*1) then m.*1 else (m.*1 ++ [dedupeKey it])%list.
Proof.
  unfold dedupe_step.
  destruct (Map_get (dedupeKey it) m) as [prev|] eqn:Hg.
  - rewrite (Map_set_keys _ _ prev) by done.
    rewrite decide_True; [done|].
    apply Map_get_elem in Hg. apply list_elem_of_fmap. by exists (dedupeKey it, prev).
  - rewrite Map_set_fresh by done.
    apply Map_get_None in Hg. rewrite decide_False by done.
    by rewrite fmap_app.
Qed.

Lemma dedupe_step_from m it p :
  p ∈ dedupe_step m it -> p ∈ m \/ p.2 = it \/ exists q, q ∈ m /\ p.2 = q.2.
Proof.
  unfold dedupe_step.
  destruct (Map_get (dedupeKey it) m) as [prev|] eqn:Hg.
  - intros [->|Hin]%Map_set_elem; [|by left].
    cbn [snd]. destruct (chooseBetter_cases prev it) as [-> | ->]; [|by right; left].
    right; right. exists (dedupeKey it, prev). split; [|done]. by apply Map_get_elem.
  - intros [->|Hin]%Map_set_elem; [by right; left|by left].
Qed.

Lemma dedupe_loop_keyed l m : keyed m -> keyed (foldl dedupe_step m l).
Proof.
  revert m. induction l as [|it l IH]; intros m Hm; cbn [foldl]; [done|].
  apply IH. by apply dedupe_step_keyed.
Qed.

Lemma dedupe_loop_keys l m :
  (foldl dedupe_step m l).*1 =
    (m.*1 ++ filter (fun k => k ∉ m.*1) (first_seen (dedupeKey <$> l)))%list.
Proof.
  revert m. induction l as [|it l IH]; intros m; cbn [foldl].
  - cbn. by rewrite app_nil_r.
  - rewrite IH, dedupe_step_keys. cbn [fmap list_fmap first_seen].
    destruct (decide (dedupeKey it ∈ m.*1)) as [Hin|Hin].
    + rewrite filter_cons_False by (intros Hn; by apply Hn).
      f_equal. rewrite list_filter_filter. apply list_filter_iff.
      intros k. split; [|naive_solver]. intros Hk. split; [done|]. by intros ->.
    + rewrite filter_cons_True by done.
      rewrite <- app_assoc. cbn [app]. do 2 f_equal.
      rewrite list_filter_filter. apply list_filter_iff.
      intros k. by rewrite not_elem_of_app, list_elem_of_singleton.
Qed.

Lemma dedupe_loop_from l m it :
  it ∈ (foldl dedupe_step m l).*2 -> it ∈ m.*2 \/ it ∈ l.
Proof.
  revert m. induction l as [|x l IH]; intros m; cbn [foldl]; [by left|].
  intros [Hin|Hin]%IH; [|right; by apply list_elem_of_further].
  apply list_elem_of_fmap in Hin as (p & -> & Hp).
  apply dedupe_step_from in Hp as [Hp|[->|(q & Hq & ->)]].
  - left. apply list_elem_of_fmap. by exists p.
  - right. apply list_elem_of_here.
  - left. apply list_elem_of_fmap. by exists q.
Qed.

Lemma keyed_values m : keyed m -> dedupeKey <$> m.*2 = m.*1.
Proof.
  induction m as [|[k it] m IH]; intros Hm; [done|].
  cbn [fmap list_fmap fst snd]. f_equal.
  - apply Hm, list_elem_of_here.
  - apply IH. intros k' it' Hin. by apply Hm, list_elem_of_further.
Qed.

(** The keys of the survivors are the distinct keys of the input, each
    once, in the order of first occurrence. *)
Lemma dedupeItems_keys (l : list RawItem) :
  dedupeKey <$> dedupeItems l = first_seen (dedupeKey <$> l).
Proof.
  unfold dedupeItems, Map_values.
  rewrite keyed_values by (apply dedupe_loop_keyed; intros ?? []%elem_of_nil).
  rewrite dedupe_loop_keys. cbn [fmap list_fmap app].
  induction (first_seen (dedupeKey <$> l)) as [|k r IH]; [done|].
  rewrite filter_cons_True by apply not_elem_of_nil. by rewrite IH.
Qed.

Lemma dedupeItems_from (l : list RawItem) (it : RawItem) :
  it ∈ dedupeItems l -> it ∈ l.
Proof.
  unfold dedupeItems, Map_values. intros Hin.
  apply dedupe_loop_from in Hin as [[]%elem_of_nil|Hin]. done.
Qed.

Lemma count_by_key (l : list RawItem) (k : string) :
  length (filter (fun it => dedupeKey it = k) l)
  = length (filter (fun x => x = k) (dedupeKey <$> l)).
Proof.
  induction l as [|it l IH]; [done|].
  cbn [fmap list_fmap]. rewrite !filter_cons.
  destruct (decide (dedupeKey it = k)); cbn [length]; by rewrite IH.
Qed.

(** C9. Whenever two items of the input share a cluster_id, the output of
    de-duplication holds exactly one item with the key of that
    cluster_id, and so does the output for every permutation of the
    input.  The survivor is one of the input items and carries the
    cluster_id. *)
Theorem dedupeItems_one_per_cluster (l : list RawItem) (a b : RawItem) (c : string) :
  a ∈ l -> b ∈ l ->
  present (cluster_id a) c -> present (cluster_id b) c ->
  (forall l', l' ≡ₚ l ->
     length (filter (fun it => dedupeKey it = "c:" +:+ c) (dedupeItems l')) = 1%nat)
  /\ (forall it, it ∈ dedupeItems l -> dedupeKey it = "c:" +:+ c ->
        it ∈ l /\ cluster_id it = Some c).
Proof.
  intros Ha _ Hca _. split.
  - intros l' Hperm. rewrite count_by_key, dedupeItems_keys.
    apply NoDup_count_one; [apply first_seen_NoDup|].
    apply first_seen_elem, list_elem_of_fmap. exists a. split.
    + symmetry. by apply dedupeKey_cluster.
    + by rewrite Hperm.
  - intros it Hin Hk. split; [by apply dedupeItems_from|].
    destruct (dedupeKey_marker it) as [r [[Hr Hc]|[_ [Hr|[Hr|Hr]]]]];
      rewrite Hr in Hk; try discriminate.
    apply truthy_inv in Hc as (x & Hx & Hne). rewrite Hx. f_equal.
    assert (dedupeKey it = "c:" +:+ x) as Hkx by (by apply dedupeKey_cluster).
    rewrite Hkx in Hr. rewrite <- Hr in Hk.
    by injection Hk.
Qed.
End Dedupe.

(** ** Sequence store *)

Lemma to_double_exact (z : Z) : - 2 ^ 53 <= z <= 2 ^ 53 -> to_double z = z.
Proof.
  intros Hz. unfold to_double. destruct (Z.leb_spec (Z.abs z) (2 ^ 53)); [done|lia].
Qed.

Lemma first_seen_filter (Q : string -> Prop) `{!forall x, Decision (Q x)} (l : list string) :
  first_seen (filter Q l) = filter Q (first_seen l).
Proof.
  induction l as [|x l IH]; [done|]. cbn [first_seen].
  destruct (decide (Q x)) as [Hx|Hx].
  - rewrite !filter_cons_True by done. cbn [first_seen]. f_equal.
    rewrite IH, !list_filter_filter. apply list_filter_iff. tauto.
  - rewrite !filter_cons_False by done. rewrite IH, list_filter_filter.
    apply list_filter_iff. intros y. split; [|tauto].
    intros Hy. split; [done|]. by intros ->.
Qed.

Section Sequence.
Context `{Platform}.
Implicit Types (state s : SeqState) (id k : string).

Lemma assign_loop_cons s touched it rest :
  assign_loop s touched (it :: rest) =
    let s1 := see_key s (getItemId it) in
    let '(rest', s', touched') :=
      assign_loop s1 (unseen s (getItemId it) || touched) rest in
    (set_seq (map s1 !! getItemId it) it :: rest', s', touched').
Proof.
  cbn [assign_loop]. unfold see_key. by destruct (unseen s (getItemId it)).
Qed.

Lemma unseen_false s id :
  unseen s id = false <-> exists v, map s !! id = Some v /\ v <> JNull.
Proof.
  unfold unseen. destruct (map s !! id) as [[]|]; naive_solver.
Qed.

Lemma see_key_seen s id : unseen (see_key s id) id = false.
Proof.
  unfold see_key. destruct (unseen s id) eqn:E; [|done].
  unfold unseen. cbn [map]. rewrite lookup_insert_eq.
  by destruct (num_add (counter s) (Num 1)).
Qed.

(** A value that is set is never changed. *)
Lemma see_key_keeps s id k v :
  map s !! k = Some v -> v <> JNull -> map (see_key s id) !! k = Some v.
Proof.
  intros Hk Hv. unfold see_key. destruct (unseen s id) eqn:E; [|done].
  cbn [map]. rewrite lookup_insert_ne; [done|].
  intros ->. unfold unseen in E. rewrite Hk in E. by destruct v.
Qed.

Lemma see_key_other s id k : k <> id -> map (see_key s id) !! k = map s !! k.
Proof.
  intros Hne. unfold see_key. destruct (unseen s id); [|done].
  cbn [map]. by rewrite lookup_insert_ne.
Qed.

Lemma see_key_id s id : unseen s id = false -> see_key s id = s.
Proof. intros Hu. unfold see_key. by rewrite Hu. Qed.

Lemma unseen_other s id k : k <> id -> unseen (see_key s id) k = unseen s k.
Proof. intros Hne. unfold unseen. by rewrite see_key_other. Qed.

Lemma see_key_indexed s id : indexed (see_key s id) = indexed s.
Proof. unfold see_key. by destruct (unseen s id). Qed.

(** The counter after one turn: one more, as a double has it. *)
Lemma see_key_counter s id c :
  counter s = Num c ->
  counter (see_key s id) = Num (if unseen s id then to_double (c + 1) else c).
Proof.
  intros Hc. unfold see_key. destruct (unseen s id); [|done].
  cbn [counter]. by rewrite Hc.
Qed.

Lemma see_key_new s id c :
  counter s = Num c -> unseen s id = true ->
  map (see_key s id) !! id = Some (JNum (Num (to_double (c + 1)))).
Proof.
  intros Hc Hu. unfold see_key. rewrite Hu. cbn [map].
  by rewrite lookup_insert_eq, Hc.
Qed.

Lemma new_keys_cons s id (ids : list string) :
  new_keys s (id :: ids) =
    if unseen s id
    then id :: new_keys (see_key s id) ids
    else new_keys (see_key s id) ids.
Proof.
  unfold new_keys. destruct (unseen s id) eqn:Hu.
  - rewrite filter_cons_True by done. cbn [first_seen]. f_equal.
    rewrite <- first_seen_filter, list_filter_filter. f_equal.
    apply list_filter_iff. intros k. destruct (decide (k = id)) as [->|Hne].
    + rewrite see_key_seen. naive_solver.
    + rewrite unseen_other by done. naive_solver.
  - rewrite filter_cons_False by congruence. by rewrite see_key_id.
Qed.

Lemma new_keys_app s (ids1 ids2 : list string) :
  new_keys s (ids1 ++ ids2)%list
  = (new_keys s ids1 ++ new_keys (foldl see_key s ids1) ids2)%list.
Proof.
  revert s. induction ids1 as [|id ids1 IH]; intros s; [done|].
  cbn [app foldl]. rewrite !new_keys_cons, IH. by destruct (unseen s id).
Qed.

Lemma new_keys_elem s (ids : list string) k :
  k ∈ new_keys s ids <-> k ∈ ids /\ unseen s k = true.
Proof.
  unfold new_keys. rewrite first_seen_elem, list_elem_of_filter. tauto.
Qed.

(** With room for the keys, a turn adds exactly one to the counter or
    leaves it, and leaves room for the keys that remain. *)
Lemma has_room_cons s id (ids : list string) :
  has_room s (id :: ids) ->
  has_room (see_key s id) ids
  /\ exists c, counter s = Num c /\ - 2 ^ 53 <= c
       /\ (unseen s id = true -> c < 2 ^ 53)
       /\ counter (see_key s id) = Num (if unseen s id then c + 1 else c).
Proof.
  intros (c & Hc & Hlo & Hhi). rewrite new_keys_cons in Hhi.
  pose proof (see_key_counter s id c Hc) as Hc1.
  destruct (unseen s id) eqn:Hu; cbn [length] in Hhi.
  - rewrite to_double_exact in Hc1 by lia. split.
    + exists (c + 1). split; [done|]. split; lia.
    + exists c. split; [done|]. split; [done|]. split; [lia|done].
  - split; [exists c; split; [done|]; by split|].
    exists c. split; [done|]. split; [done|]. by split.
Qed.

Lemma see_key_invariant s id :
  seq_invariant s -> has_room s [id] -> seq_invariant (see_key s id).
Proof.
  intros (c & Hc & Hle & Hinj) Hroom.
  destruct (has_room_cons s id [] Hroom) as (_ & c0 & Hc0 & Hlo & Hhi & Hc1).
  rewrite Hc in Hc0. injection Hc0 as <-.
  destruct (unseen s id) eqn:Hu; [|rewrite see_key_id by done; by exists c].
  specialize (Hhi eq_refl).
  exists (c + 1). split; [done|].
  assert (Hmap : map (see_key s id) = <[id := JNum (Num (c + 1))]> (map s)).
  { unfold see_key. rewrite Hu. cbn [map]. rewrite Hc. cbn [num_add].
    by rewrite to_double_exact by lia. }
  rewrite Hmap.
  assert (Hfree : map s !! id = None).
  { unfold unseen in Hu. destruct (map s !! id) as [v|] eqn:E; [|done].
    destruct (Hle _ _ E) as (z & -> & _). done. }
  split.
  - intros k v [[<- <-]|[Hne Hk]]%lookup_insert_Some.
    + exists (c + 1). split; [done|lia].
    + destruct (Hle _ _ Hk) as (z & -> & Hz). exists z. split; [done|lia].
  - intros k1 k2 v [[<- <-]|[Hne1 Hk1]]%lookup_insert_Some
                   [[<- Hv]|[Hne2 Hk2]]%lookup_insert_Some; try done.
    + destruct (Hle _ _ Hk2) as (z & [= <-] & Hz). lia.
    + destruct (Hle _ _ Hk1) as (z & Hz1 & Hz). rewrite <- Hv in Hz1.
      injection Hz1 as <-. lia.
    + by apply (Hinj k1 k2 v).
Qed.

(** The counter and the values of the map stay integers, room or not. *)
Lemma see_key_integer s id : integer_valued s -> integer_valued (see_key s id).
Proof.
  intros [[c Hc] Hint]. unfold see_key. destruct (unseen s id); [|by split; [exists c|]].
  unfold integer_valued. cbn [counter map]. rewrite Hc. cbn [num_add]. split; [by eexists|].
  intros k v [[<- <-]|[Hne Hk]]%lookup_insert_Some; [by eexists|by apply (Hint k)].
Qed.

(** The loop, turn by turn: the record it leaves, the flag, the items. *)
Lemma assign_loop_state s touched its :
  (assign_loop s touched its).1.2 = foldl see_key s (getItemId <$> its).
Proof.
  revert s touched. induction its as [|it rest IH]; intros s touched; [done|].
  rewrite assign_loop_cons. cbn zeta.
  specialize (IH (see_key s (getItemId it)) (unseen s (getItemId it) || touched)).
  destruct (assign_loop _ _ rest) as [[rest' s'] touched']. done.
Qed.

Lemma loop_keeps ids s k v :
  map s !! k = Some v -> v <> JNull -> map (foldl see_key s ids) !! k = Some v.
Proof.
  revert s. induction ids as [|id ids IH]; intros s Hk Hv; [done|].
  cbn [foldl]. apply IH; [|done]. by apply see_key_keeps.
Qed.

Lemma loop_other ids s k : k ∉ ids -> map (foldl see_key s ids) !! k = map s !! k.
Proof.
  revert s. induction ids as [|id ids IH]; intros s Hk; [done|].
  apply not_elem_of_cons in Hk as [Hne Hk].
  cbn [foldl]. rewrite IH by done. by apply see_key_other.
Qed.

Lemma loop_indexed ids s : indexed (foldl see_key s ids) = indexed s.
Proof.
  revert s. induction ids as [|id ids IH]; intros s; [done|].
  cbn [foldl]. by rewrite IH, see_key_indexed.
Qed.

Lemma has_room_here s id (ids : list string) : has_room s (id :: ids) -> has_room s [id].
Proof.
  intros (c & Hc & Hlo & Hhi). exists c. split; [done|]. split; [done|].
  rewrite new_keys_cons in *.
  change (new_keys (see_key s id) []) with (@nil string).
  destruct (unseen s id); cbn [length] in *; lia.
Qed.

Lemma loop_invariant ids s :
  seq_invariant s -> has_room s ids -> seq_invariant (foldl see_key s ids).
Proof.
  revert s. induction ids as [|id ids IH]; intros s Hs Hroom; [done|].
  cbn [foldl]. apply IH.
  - apply see_key_invariant; [done|]. by apply (has_room_here s id ids).
  - by apply has_room_cons.
Qed.

Lemma loop_integer ids s : integer_valued s -> integer_valued (foldl see_key s ids).
Proof.
  revert s. induction ids as [|id ids IH]; intros s Hs; [done|].
  cbn [foldl]. by apply IH, see_key_integer.
Qed.

Lemma loop_seen ids s id :
  id ∈ ids -> unseen (foldl see_key s ids) id = false.
Proof.
  revert s. induction ids as [|x ids IH]; intros s; [by intros ?%elem_of_nil|].
  intros [->|Hin]%elem_of_cons; cbn [foldl]; [|by apply IH].
  pose proof (see_key_seen s x) as Hs.
  apply unseen_false in Hs as (v & Hv & Hnn).
  apply unseen_false. exists v. split; [|done]. by apply loop_keeps.
Qed.

Lemma assign_loop_touched s touched its :
  (assign_loop s touched its).2 =
    touched || existsb (fun it => unseen s (getItemId it)) its.
Proof.
  revert s touched. induction its as [|it rest IH]; intros s touched.
  - cbn. by rewrite orb_false_r.
  - rewrite assign_loop_cons. cbn zeta. cbn [existsb].
    destruct (unseen s (getItemId it)) eqn:Hu.
    + specialize (IH (see_key s (getItemId it)) (true || touched)).
      destruct (assign_loop _ _ rest) as [[rest' s'] touched'].
      cbn [snd] in *. rewrite IH. cbn. by rewrite orb_true_r.
    + replace (see_key s (getItemId it)) with s
        by (unfold see_key; by rewrite Hu).
      specialize (IH s (false || touched)).
      destruct (assign_loop _ _ rest) as [[rest' s'] touched'].
      cbn [snd] in *. by rewrite IH.
Qed.

(** Every item leaves the loop with the number its key has in the final
    record. *)
Lemma assign_loop_items s touched its :
  (assign_loop s touched its).1.1 =
    (fun it => set_seq (map (foldl see_key s (getItemId <$> its)) !! getItemId it) it)
      <$> its.
Proof.
  revert s touched. induction its as [|it rest IH]; intros s touched; [done|].
  rewrite assign_loop_cons. cbn zeta.
  specialize (IH (see_key s (getItemId it)) (unseen s (getItemId it) || touched)).
  destruct (assign_loop _ _ rest) as [[rest' s'] touched'].
  cbn [fst snd] in *. cbn [fmap list_fmap foldl]. f_equal; [|done].
  f_equal.
  pose proof (see_key_seen s (getItemId it)) as Hs.
  apply unseen_false in Hs as (v & Hv & Hnn).
  rewrite Hv. symmetry. by apply loop_keeps.
Qed.

Lemma assign_loop_eq s touched its :
  assign_loop s touched its =
    ((fun it => set_seq (map (foldl see_key s (getItemId <$> its)) !! getItemId it) it)
       <$> its,
     foldl see_key s (getItemId <$> its),
     touched || existsb (fun it => unseen s (getItemId it)) its).
Proof.
  rewrite <- (assign_loop_items s touched its), <- (assign_loop_state s touched its),
    <- (assign_loop_touched s touched its).
  by destruct (assign_loop s touched its) as [[? ?] ?].
Qed.

Lemma loop_id ids s :
  (forall id, id ∈ ids -> unseen s id = false) -> foldl see_key s ids = s.
Proof.
  induction ids as [|id ids IH]; intros Hs; [done|].
  cbn [foldl]. rewrite see_key_id by apply Hs, list_elem_of_here.
  apply IH. intros k Hk. by apply Hs, list_elem_of_further.
Qed.

Lemma existsb_unseen_false s its :
  existsb (fun it => unseen s (getItemId it)) its = false <->
  forall it, it ∈ its -> unseen s (getItemId it) = false.
Proof.
  induction its as [|it rest IH]; cbn [existsb].
  - split; [intros _ ? ?%elem_of_nil; done|done].
  - rewrite orb_false_iff, IH. split.
    + intros [Hi Hr] x [->|Hx]%elem_of_cons; auto.
    + intros Hall. split; [apply Hall, list_elem_of_here|].
      intros x Hx. by apply Hall, list_elem_of_further.
Qed.


(** With room for them, the keys the record has no number for get the
    numbers that follow the counter, in the order in which the loop first
    meets them, and the counter ends at the last of these numbers. *)
Lemma loop_consecutive (ids : list string) s (c : Z) :
  counter s = Num c -> exact_from c (length (new_keys s ids)) ->
  counter (foldl see_key s ids) = Num (c + Z.of_nat (length (new_keys s ids)))
  /\ forall (i : nat) k, new_keys s ids !! i = Some k ->
       map (foldl see_key s ids) !! k = Some (JNum (Num (c + 1 + Z.of_nat i))).
Proof.
  revert s c. induction ids as [|id ids IH]; intros s c Hc Hroom.
  - split; [by rewrite Z.add_0_r|done].
  - assert (Hroom' : has_room s (id :: ids)) by (by exists c).
    destruct (has_room_cons s id ids Hroom') as (_ & c0 & Hc0 & _ & Hhi & Hc1).
    rewrite Hc in Hc0. injection Hc0 as <-.
    destruct Hroom as [Hlo Hup].
    cbn [foldl]. rewrite new_keys_cons in *.
    destruct (unseen s id) eqn:Hu; cbn [length] in *.
    + destruct (IH _ _ Hc1) as [Hcnt Hnum]; [split; lia|]. split.
      * rewrite Hcnt. f_equal. lia.
      * intros [|i] k; cbn.
        -- intros [= <-]. rewrite Z.add_0_r. apply loop_keeps; [|done].
           rewrite (see_key_new s id c Hc Hu). by rewrite to_double_exact by lia.
        -- intros Hk. rewrite (Hnum i k Hk). do 3 f_equal. lia.
    + by apply IH.
Qed.

(** A key the record has not seen gets a number above the counter. *)
Lemma loop_new_key ids s c k :
  counter s = Num c -> exact_from c (length (new_keys s ids)) ->
  unseen s k = true -> k ∈ ids ->
  exists z, map (foldl see_key s ids) !! k = Some (JNum (Num z)) /\ c < z.
Proof.
  intros Hc Hroom Hu Hin.
  destruct (loop_consecutive ids s c Hc Hroom) as [_ Hnum].
  assert (Hk : k ∈ new_keys s ids) by (by apply new_keys_elem).
  apply list_elem_of_lookup in Hk as [i Hi].
  exists (c + 1 + Z.of_nat i). split; [by apply Hnum|lia].
Qed.

Lemma loop_counter_integer ids s c :
  counter s = Num c -> exists c', counter (foldl see_key s ids) = Num c'.
Proof.
  revert s c. induction ids as [|id ids IH]; intros s c Hc; [by exists c|].
  cbn [foldl]. by apply (IH _ _ (see_key_counter s id c Hc)).
Qed.

(** *** Reading back what was saved *)

Lemma obj_map_to_list (m : gmap string jsval) : obj_map (map_to_list m) = m.
Proof.
  unfold obj_map. rewrite <- (list_to_map_to_list m) at 2.
  symmetry. apply list_to_map_proper; [apply NoDup_fst_map_to_list|].
  symmetry. apply reverse_Permutation.
Qed.

Lemma Number_integer (c : Z) : Number (or_zero (Some (JNum (Num c)))) = Some (Num c).
Proof. unfold or_zero, js_truthy. by destruct (Z.eqb_spec c 0) as [->|]. Qed.

(** What is loaded after a record with an integer counter has been saved:
    the counter, and of the map what [JSON.stringify] wrote. *)
Lemma load_saved_any store s c :
  accepting store -> reads_back (state_json s) -> counter s = Num c ->
  loadSeqState (saveSeqState s store) =
    {| counter := Num c;
       map := match indexed s with Some elems => array_map elems | None => map s end;
       indexed := indexed s |}.
Proof.
  intros [Hd Hf] [Hne Hrb] Hc.
  unfold saveSeqState, setItem. rewrite Hd, Hf. cbn [orb].
  unfold loadSeqState, getItem. cbn [denied cell].
  rewrite (truthy_Some _ Hne). cbn [or_empty]. rewrite Hrb.
  unfold state_json, get_prop, obj_map. cbn [reverse rev_append].
  rewrite !list_to_map_cons, list_to_map_nil.
  rewrite lookup_insert_ne by done. rewrite !lookup_insert_eq.
  rewrite Hc, Number_integer.
  destruct (indexed s) as [elems|]; [done|].
  fold (obj_map (map_to_list (map s))). by rewrite obj_map_to_list.
Qed.

Lemma load_saved store s c :
  accepting store -> reads_back (state_json s) -> counter s = Num c ->
  indexed s = None ->
  loadSeqState (saveSeqState s store) = s.
Proof.
  intros Hacc Hrb Hc Hplain. rewrite (load_saved_any store s c Hacc Hrb Hc), Hplain.
  destruct s as [cnt m ix]. cbn [counter map indexed] in *. by subst.
Qed.

Lemma assignStableSeq_eq its store :
  assignStableSeq its store =
    let s := loadSeqState store in
    ((assign_loop s false its).1.1,
     if (assign_loop s false its).2
     then saveSeqState (assign_loop s false its).1.2 store else store).
Proof.
  unfold assignStableSeq. by destruct (assign_loop _ false its) as [[? ?] ?].
Qed.

Lemma invariant_counter s : seq_invariant s -> exists c, counter s = Num c.
Proof. intros (c & Hc & _). eauto. Qed.

Lemma invariant_integer s : seq_invariant s -> integer_valued s.
Proof.
  intros (c & Hc & Hle & _). split; [by exists c|].
  intros k v Hk. destruct (Hle k v Hk) as (z & -> & _). by exists z.
Qed.

(** After a pass over storage that takes the write, the stored record is
    the record the loop left, when its map is a plain object. *)
Lemma cycle_persists its store c :
  counter (loadSeqState store) = Num c -> indexed (loadSeqState store) = None ->
  accepting store ->
  reads_back (state_json (assign_loop (loadSeqState store) false its).1.2) ->
  loadSeqState (assignStableSeq its store).2 = (assign_loop (loadSeqState store) false its).1.2.
Proof.
  intros Hc Hplain Hacc Hrb. rewrite assignStableSeq_eq. cbn zeta. cbn [snd].
  rewrite assign_loop_state in *. rewrite assign_loop_touched. cbn [orb].
  destruct (existsb _ its) eqn:Hex.
  - destruct (loop_counter_integer (getItemId <$> its) _ c Hc) as [c' Hc'].
    apply (load_saved _ _ c'); [done..|]. by rewrite loop_indexed.
  - symmetry. apply loop_id. intros id (it & -> & Hin)%list_elem_of_fmap.
    by apply (existsb_unseen_false _ its).
Qed.

(** A second pass over the same items, on the storage the first pass
    left, does what the first did. *)
Lemma assign_twice (its : list RawItem) (store : Storage) (c : Z) :
  counter (loadSeqState store) = Num c -> indexed (loadSeqState store) = None ->
  reads_back (state_json (assign_loop (loadSeqState store) false its).1.2) ->
  assignStableSeq its (assignStableSeq its store).2 = assignStableSeq its store.
Proof.
  intros Hc Hplain Hrb.
  set (s := loadSeqState store) in *. set (s' := (assign_loop s false its).1.2) in *.
  assert (Hs' : s' = foldl see_key s (getItemId <$> its)) by apply assign_loop_state.
  rewrite (assignStableSeq_eq its store). cbn zeta. fold s. fold s'.
  destruct (assign_loop s false its).2 eqn:Ht; cbn [snd];
    [|rewrite assignStableSeq_eq; cbn zeta; fold s; rewrite Ht; reflexivity].
  unfold saveSeqState at 1 2. destruct (setItem _ store) as [store'|] eqn:Hset;
    [|rewrite assignStableSeq_eq; cbn zeta; fold s; rewrite Ht; fold s';
      unfold saveSeqState; rewrite Hset; reflexivity].
  assert (Hacc : accepting store).
  { unfold setItem in Hset. unfold accepting.
    destruct (denied store), (full store); done. }
  assert (Hload : loadSeqState store' = s').
  { destruct (loop_counter_integer (getItemId <$> its) s c Hc) as [c' Hc'].
    rewrite <- Hs' in Hc'.
    assert (Hplain' : indexed s' = None) by (by rewrite Hs', loop_indexed).
    pose proof (load_saved store s' c' Hacc Hrb Hc' Hplain') as Hl.
    unfold saveSeqState in Hl. by rewrite Hset in Hl. }
  rewrite assignStableSeq_eq. cbn zeta. rewrite Hload.
  assert (Hseen : forall it, it ∈ its -> unseen s' (getItemId it) = false).
  { intros it Hin. rewrite Hs'. apply loop_seen, list_elem_of_fmap. by exists it. }
  rewrite (assign_loop_eq s' false its), (assign_loop_eq s false its).
  cbn [fst snd orb]. rewrite (proj2 (existsb_unseen_false s' its) Hseen).
  rewrite (loop_id (getItemId <$> its) s'); [by rewrite <- Hs'|].
  intros id (it & -> & Hin)%list_elem_of_fmap. by apply Hseen.
Qed.

(** C4, as the code has it.  An assign pass that has room for its new keys
    (the counter is not below -2^53 and, with one added for every new
    key, not above 2^53) keeps the invariant of the sequence record:
    every number in the map stays at or below the counter and no two keys
    share a number; a number that is set is not changed; the counter does
    not decrease.  When the stored map is a plain object and the platform
    reads back what it writes, storage that takes the write holds the
    record the pass left, and a second pass over the same items gives
    them the same numbers and leaves the storage as it is. *)
Theorem assign_keeps_invariant (store : Storage) (its : list RawItem) :
  seq_invariant (loadSeqState store) ->
  has_room (loadSeqState store) (getItemId <$> its) ->
  let s := loadSeqState store in
  let s' := (assign_loop s false its).1.2 in
  let pass := assignStableSeq its store in
  seq_invariant s'
  /\ (forall k v, map s !! k = Some v -> map s' !! k = Some v)
  /\ (exists c c', counter s = Num c /\ counter s' = Num c' /\ c <= c')
  /\ (indexed s = None -> reads_back (state_json s') ->
      (accepting store -> loadSeqState pass.2 = s')
      /\ assignStableSeq its pass.2 = pass).
Proof.
  intros Hinv Hroom s s' pass.
  assert (Hs' : s' = foldl see_key s (getItemId <$> its))
    by apply assign_loop_state.
  assert (Hinv' : seq_invariant s') by (rewrite Hs'; by apply loop_invariant).
  destruct Hroom as (c & Hc & Hexact).
  split; [done|]. split; [|split].
  - intros k v Hk. rewrite Hs'. apply loop_keeps; [done|].
    destruct Hinv as (c0 & _ & Hle & _). by destruct (Hle _ _ Hk) as (z & -> & _).
  - destruct (loop_consecutive (getItemId <$> its) s c Hc Hexact) as [Hc' _].
    exists c, (c + Z.of_nat (length (new_keys s (getItemId <$> its)))).
    rewrite Hs'. split; [done|]. split; [done|lia].
  - intros Hplain Hrb. split.
    + intros Hacc. by apply (cycle_persists its store c).
    + by apply (assign_twice its store c).
Qed.

End Sequence.

(** ** Ordering *)

Section SortFacts.
Context {A : Type} (cmp : A -> A -> num).

Lemma insert_sorted_perm (x : A) (l : list A) : insert_sorted cmp x l ≡ₚ x :: l.
Proof.
  induction l as [|y l IH]; cbn [insert_sorted]; [done|].
  destruct (comes_after cmp x y); [|done].
  rewrite IH. apply perm_swap.
Qed.

Lemma sort_by_perm (l : list A) : sort_by cmp l ≡ₚ l.
Proof.
  induction l as [|x l IH]; [done|].
  change (sort_by cmp (x :: l)) with (insert_sorted cmp x (sort_by cmp l)).
  by rewrite insert_sorted_perm, IH.
Qed.

(** On elements that satisfy [P] the comparator decides the order [R]. *)
Context (P : A -> Prop) (R : relation A).
Hypothesis after_R : forall a b, P a -> P b -> comes_after cmp a b = true -> R b a.
Hypothesis not_after_R : forall a b, P a -> P b -> comes_after cmp a b = false -> R a b.
Hypothesis R_trans : forall a b c, P a -> P b -> P c -> R a b -> R b c -> R a c.

Lemma insert_sorted_sorted (x : A) (l : list A) :
  P x -> Forall P l -> StronglySorted R l -> StronglySorted R (insert_sorted cmp x l).
Proof.
  intros Hx HP Hs. induction Hs as [|y l Hs IH Hy]; cbn [insert_sorted].
  - repeat constructor.
  - apply Forall_cons in HP as [Py Pl].
    destruct (comes_after cmp x y) eqn:Hc.
    + constructor; [by apply IH|].
      rewrite insert_sorted_perm. constructor; [by apply after_R|done].
    + constructor; [by constructor|].
      constructor; [by apply not_after_R|].
      rewrite Forall_forall in Hy, Pl. apply Forall_forall. intros z Hz.
      apply (R_trans x y z); auto.
Qed.

Lemma sort_by_sorted (l : list A) : Forall P l -> StronglySorted R (sort_by cmp l).
Proof.
  induction l as [|x l IH]; intros HP; [constructor|].
  apply Forall_cons in HP as [Px Pl].
  change (sort_by cmp (x :: l)) with (insert_sorted cmp x (sort_by cmp l)).
  apply insert_sorted_sorted; [done| |by apply IH].
  by rewrite sort_by_perm.
Qed.
End SortFacts.

(** The sort with a comparator that can throw. *)
Section ThrowingSort.
Context {A : Type} (cmp : A -> A -> option num).

Lemma sort_or_throw_cons (x : A) (l : list A) :
  sort_or_throw cmp (x :: l) = sort_or_throw cmp l ≫= insert_or_throw cmp x.
Proof. reflexivity. Qed.

(** Where the comparator returns, the sort is the sort by the numbers it
    returns. *)
Lemma insert_or_throw_total (f : A -> A -> num) (x : A) (l : list A) :
  (forall y, y ∈ l -> cmp x y = Some (f x y)) ->
  insert_or_throw cmp x l = Some (insert_sorted f x l).
Proof.
  induction l as [|y l IH]; intros Hf; [done|].
  cbn [insert_or_throw insert_sorted]. rewrite (Hf y) by apply list_elem_of_here.
  unfold comes_after. destruct (f x y) as [|z]; [done|].
  destruct (0 <? z); [|done]. rewrite IH; [done|].
  intros w Hw. by apply Hf, list_elem_of_further.
Qed.

Lemma sort_or_throw_total (f : A -> A -> num) (l : list A) :
  (forall x y, x ∈ l -> y ∈ l -> cmp x y = Some (f x y)) ->
  sort_or_throw cmp l = Some (sort_by f l).
Proof.
  induction l as [|x l IH]; intros Hf; [done|].
  rewrite sort_or_throw_cons, IH.
  - cbn [mbind option_bind].
    change (sort_by f (x :: l)) with (insert_sorted f x (sort_by f l)).
    apply insert_or_throw_total. intros y Hy. rewrite sort_by_perm in Hy.
    apply Hf; [apply list_elem_of_here|by apply list_elem_of_further].
  - intros a b Ha Hb. apply Hf; by apply list_elem_of_further.
Qed.

Lemma insert_or_throw_perm (x : A) (l l' : list A) :
  insert_or_throw cmp x l = Some l' -> l' ≡ₚ x :: l.
Proof.
  revert l'. induction l as [|y l IH]; intros l'; cbn [insert_or_throw].
  - by intros [= <-].
  - destruct (cmp x y) as [[|z]|]; [by intros [= <-]| |done].
    destruct (0 <? z); [|by intros [= <-]].
    destruct (insert_or_throw cmp x l) as [r|]; [|done].
    cbn. intros [= <-]. rewrite (IH r eq_refl). apply perm_swap.
Qed.

Lemma sort_or_throw_perm (l l' : list A) : sort_or_throw cmp l = Some l' -> l' ≡ₚ l.
Proof.
  revert l'. induction l as [|x l IH]; intros l'; [by intros [= <-]|].
  rewrite sort_or_throw_cons. destruct (sort_or_throw cmp l) as [r|]; [|done].
  cbn [mbind option_bind]. intros Hins%insert_or_throw_perm.
  by rewrite Hins, (IH r eq_refl).
Qed.

(** A comparator that throws exactly when one of its two arguments is
    [bad] makes the sort throw exactly when the list has two elements or
    more and one of them is bad: the sort compares every element of such
    a list with another one. *)
Context (bad : A -> bool).
Hypothesis cmp_None : forall x y, cmp x y = None <-> bad x = true \/ bad y = true.

Lemma insert_or_throw_bad (x : A) (l : list A) :
  bad x = true -> l <> [] -> insert_or_throw cmp x l = None.
Proof.
  intros Hx Hl. destruct l as [|y l]; [done|]. cbn [insert_or_throw].
  assert (cmp x y = None) as -> by (apply cmp_None; by left). done.
Qed.

Lemma insert_or_throw_good (x : A) (l : list A) :
  bad x = false -> (forall y, y ∈ l -> bad y = false) ->
  is_Some (insert_or_throw cmp x l).
Proof.
  intros Hx. induction l as [|y l IH]; intros Hl; [by eexists|].
  cbn [insert_or_throw].
  destruct (cmp x y) as [[|z]|] eqn:Hc; [by eexists| |].
  - destruct (0 <? z); [|by eexists].
    destruct IH as [r ->]; [|by eexists].
    intros w Hw. by apply Hl, list_elem_of_further.
  - apply cmp_None in Hc as [Hc|Hc]; [congruence|].
    rewrite (Hl y) in Hc by apply list_elem_of_here. done.
Qed.

Lemma sort_or_throw_None (l : list A) :
  sort_or_throw cmp l = None <->
  (1 < length l)%nat /\ exists x, x ∈ l /\ bad x = true.
Proof.
  induction l as [|x l IH].
  - split; [done|]. intros [Hlen _]. cbn in Hlen. lia.
  - rewrite sort_or_throw_cons.
    destruct (sort_or_throw cmp l) as [r|] eqn:Hs; cbn [mbind option_bind].
    + pose proof (sort_or_throw_perm l r Hs) as Hr.
      assert (Hgood : (1 < length l)%nat -> forall y, y ∈ l -> bad y = false).
      { intros Hlen y Hy. destruct (bad y) eqn:Hb; [|done].
        assert (Some r = None) as [=]. apply IH. split; [done|]. by exists y. }
      destruct l as [|y [|y' l]].
      * apply Permutation_nil_r in Hr as ->. cbn. split; [done|]. lia.
      * apply Permutation_singleton_r in Hr as ->. cbn [insert_or_throw length].
        split.
        -- intros Hnone. split; [lia|].
           assert (Hc : cmp x y = None).
           { destruct (cmp x y) as [[|z]|]; [done| |done]. by destruct (0 <? z). }
           apply cmp_None in Hc as [Hc|Hc].
           ++ exists x. split; [apply list_elem_of_here|done].
           ++ exists y. split; [apply list_elem_of_further, list_elem_of_here|done].
        -- intros [_ (w & Hw & Hb)].
           assert (cmp x y = None) as ->; [|done].
           apply cmp_None.
           apply elem_of_cons in Hw as [->|Hw]; [by left|].
           apply list_elem_of_singleton in Hw as ->. by right.
      * specialize (Hgood ltac:(cbn; lia)). split.
        -- intros Hnone. split; [cbn; lia|]. exists x. split; [apply list_elem_of_here|].
           destruct (bad x) eqn:Hx; [done|].
           destruct (insert_or_throw_good x r Hx) as [? Hsome]; [|congruence].
           intros w Hw. rewrite Hr in Hw. by apply Hgood.
        -- intros [_ (w & Hw & Hb)].
           apply elem_of_cons in Hw as [->|Hw]; [|by rewrite Hgood in Hb].
           apply insert_or_throw_bad; [done|]. intros ->.
           by apply Permutation_nil_cons in Hr.
    + split; [|done]. intros _.
      destruct (proj1 IH eq_refl) as [Hlen (w & Hw & Hb)].
      split; [cbn; lia|]. exists w. split; [by apply list_elem_of_further|done].
Qed.
End ThrowingSort.

Lemma StronglySorted_lookup {A : Type} (R : relation A) (l : list A) (i j : nat) (x y : A) :
  StronglySorted R l -> (i < j)%nat -> l !! i = Some x -> l !! j = Some y -> R x y.
Proof.
  intros Hs. revert i j. induction Hs as [|z l Hs IH Hz]; intros i j Hij Hi Hj; [done|].
  destruct j as [|j]; [lia|]. cbn in Hj. destruct i as [|i].
  - injection Hi as <-. rewrite Forall_forall in Hz. apply Hz.
    apply list_elem_of_lookup. eauto.
  - cbn in Hi. apply (IH i j); [lia|done..].
Qed.

Lemma first_seen_id (l : list string) : NoDup l -> first_seen l = l.
Proof.
  induction 1 as [|x l Hx Hnd IH]; [done|]. cbn [first_seen]. rewrite IH. f_equal.
  clear IH Hnd. induction l as [|y l IH]; [done|].
  apply not_elem_of_cons in Hx as [Hne Hx].
  rewrite filter_cons_True by done. f_equal. by apply IH.
Qed.

Lemma first_seen_length (l : list string) : (length (first_seen l) <= length l)%nat.
Proof.
  induction l as [|k ks IH]; [done|]. cbn [first_seen length].
  pose proof (length_filter (fun y => y <> k) (first_seen ks)). lia.
Qed.

Section Ordering.
Context `{Platform}.

(** The number the comparator returns, [NaN] standing in where it
    throws. *)
Local Abbreviation cmp_value := (fun a b : RawItem => default NaN (by_seq_then_time a b)).

Lemma seq_number_Some (it : RawItem) (z : Z) :
  seq_number it = Some z <-> __seq it = Some (JNum (Num z)).
Proof.
  unfold seq_number. destruct (__seq it) as [[| |[|z']| | |]|]; split; congruence.
Qed.

Lemma Number_None (v : jsval) : Number v = None <-> no_primitive v = true.
Proof.
  destruct v as [|b|n|s|elems|props]; cbn [Number]; try (cbn; split; done).
  - destruct (no_primitive (JArr elems)); split; done.
  - destruct (no_primitive (JObj props)); split; done.
Qed.

Lemma by_seq_then_time_None (a b : RawItem) :
  by_seq_then_time a b = None <-> seq_throws a = true \/ seq_throws b = true.
Proof.
  unfold by_seq_then_time, seq_throws. rewrite <- !Number_None.
  destruct (Number (or_zero (__seq b))), (Number (or_zero (__seq a)));
    cbn; split; (done || tauto || (intros [?|?]; done)).
Qed.

Lemma Number_or_zero_seq (it : RawItem) (z : Z) :
  seq_number it = Some z -> Number (or_zero (__seq it)) = Some (Num z).
Proof. intros ->%seq_number_Some. apply Number_integer. Qed.

Lemma by_seq_then_time_integer (a b : RawItem) (za zb : Z) :
  seq_number a = Some za -> seq_number b = Some zb ->
  by_seq_then_time a b =
    Some (if decide (Num (zb - za) = Num 0) then Num (timeOf b - timeOf a)
          else Num (zb - za)).
Proof.
  intros Ha Hb. unfold by_seq_then_time.
  by rewrite (Number_or_zero_seq a za Ha), (Number_or_zero_seq b zb Hb).
Qed.

(** The comparator on items that carry integer sequence numbers. *)
Lemma comes_after_spec (a b : RawItem) (za zb : Z) :
  seq_number a = Some za -> seq_number b = Some zb ->
  comes_after cmp_value a b = true <->
  za < zb \/ za = zb /\ timeOf a < timeOf b.
Proof.
  intros Ha Hb. unfold comes_after.
  rewrite (by_seq_then_time_integer a b za zb Ha Hb). cbn [from_option id].
  destruct (decide (Num (zb - za) = Num 0)) as [Heq|Hne].
  - injection Heq as Heq. rewrite Z.ltb_lt. lia.
  - rewrite Z.ltb_lt. assert (zb - za <> 0) by congruence. lia.
Qed.

Lemma ranks_before_trans (a b c : RawItem) :
  ranks_before a b -> ranks_before b c -> ranks_before a c.
Proof.
  intros (za & zb & Ha & Hb & Hab) (zb' & zc & Hb' & Hc & Hbc).
  rewrite Hb in Hb'. injection Hb' as <-.
  exists za, zc. split; [done|]. split; [done|]. lia.
Qed.

Lemma sort_by_seq_then_time (l : list RawItem) :
  Forall (fun it => is_Some (seq_number it)) l ->
  sort_by cmp_value l ≡ₚ l
  /\ StronglySorted ranks_before (sort_by cmp_value l).
Proof.
  intros Hl. split; [apply sort_by_perm|].
  apply (sort_by_sorted _ (fun it => is_Some (seq_number it))); [| | |done].
  - intros a b [za Ha] [zb Hb] Hc.
    apply (comes_after_spec a b za zb Ha Hb) in Hc.
    exists zb, za. split; [done|]. split; [done|]. lia.
  - intros a b [za Ha] [zb Hb] Hc.
    exists za, zb. split; [done|]. split; [done|].
    destruct (decide (za < zb \/ za = zb /\ timeOf a < timeOf b)) as [Hlt|Hge].
    + apply (comes_after_spec a b za zb Ha Hb) in Hlt. congruence.
    + lia.
  - intros a b c _ _ _. apply ranks_before_trans.
Qed.

(** On items that carry integer sequence numbers the comparator does not
    throw, and the sort is the sort by the numbers it returns. *)
Lemma sort_integer (l : list RawItem) :
  Forall (fun it => is_Some (seq_number it)) l ->
  sort_or_throw by_seq_then_time l = Some (sort_by cmp_value l).
Proof.
  intros Hl. apply sort_or_throw_total. intros x y Hx Hy.
  rewrite Forall_forall in Hl.
  destruct (Hl x Hx) as [zx Hzx]. destruct (Hl y Hy) as [zy Hzy].
  by rewrite (by_seq_then_time_integer x y zx zy Hzx Hzy).
Qed.

Lemma normalize_eq (its : list RawItem) (g : option string) (store : Storage) :
  normalize (Some {| items := Some its; generated_utc := g |}) store =
    (match sort_or_throw by_seq_then_time
             (assign_loop (loadSeqState store) false (dedupeItems its)).1.1 with
     | Some out => Some {| items := Some out; generated_utc := g |}
     | None => None
     end,
     (assignStableSeq (dedupeItems its) store).2).
Proof.
  unfold normalize. rewrite assignStableSeq_eq. cbn zeta. cbn [snd].
  by destruct (sort_or_throw _ _).
Qed.

Lemma normalize_integer (its : list RawItem) (g : option string) (store : Storage) :
  Forall (fun it => is_Some (seq_number it))
    (assign_loop (loadSeqState store) false (dedupeItems its)).1.1 ->
  normalize (Some {| items := Some its; generated_utc := g |}) store =
    (Some {| items :=
               Some (sort_by cmp_value
                       (assign_loop (loadSeqState store) false (dedupeItems its)).1.1);
             generated_utc := g |},
     (assignStableSeq (dedupeItems its) store).2).
Proof. intros Hl. by rewrite normalize_eq, (sort_integer _ Hl). Qed.

Lemma dedupeKey_set_seq (v : option jsval) (it : RawItem) :
  dedupeKey (set_seq v it) = dedupeKey it.
Proof. reflexivity. Qed.

Lemma timeOf_set_seq (v : option jsval) (it : RawItem) :
  timeOf (set_seq v it) = timeOf it.
Proof. reflexivity. Qed.

(** From a record whose counter and values are integers every item
    leaves the loop with an integer sequence number, the one its key has
    in the final record. *)
Lemma assigned_seq (s : SeqState) (its : list RawItem) (x : RawItem) :
  integer_valued s -> x ∈ (assign_loop s false its).1.1 ->
  exists z, seq_number x = Some z
    /\ map (assign_loop s false its).1.2 !! dedupeKey x = Some (JNum (Num z)).
Proof.
  intros Hint Hx. rewrite assign_loop_state. rewrite assign_loop_items in Hx.
  apply list_elem_of_fmap in Hx as (x0 & -> & Hx0).
  rewrite dedupeKey_set_seq.
  assert (Hseen : unseen (foldl see_key s (getItemId <$> its)) (getItemId x0) = false).
  { apply loop_seen, list_elem_of_fmap. by exists x0. }
  apply unseen_false in Hseen as (v & Hv & _).
  destruct (loop_integer (getItemId <$> its) s Hint) as [_ Hval].
  destruct (Hval _ _ Hv) as (z & ->).
  exists z. split; [|done]. apply seq_number_Some. cbn [__seq set_seq]. done.
Qed.

Lemma assigned_all (s : SeqState) (its : list RawItem) :
  integer_valued s ->
  Forall (fun it => is_Some (seq_number it)) (assign_loop s false its).1.1.
Proof.
  intros Hint. apply Forall_forall. intros x Hx.
  destruct (assigned_seq s its x Hint Hx) as (z & Hz & _). by exists z.
Qed.


(** A key that the loop has met is passed over when it comes again. *)
Lemma loop_skip_seen (ids : list string) (s : SeqState) (id : string) :
  unseen s id = false ->
  foldl see_key s (filter (fun y => y <> id) ids) = foldl see_key s ids.
Proof.
  revert s. induction ids as [|x ids IH]; intros s Hs; [done|].
  destruct (decide (x = id)) as [->|Hne].
  - rewrite filter_cons_False by (by intros []). cbn [foldl].
    rewrite (see_key_id s id Hs). by apply IH.
  - rewrite filter_cons_True by done. cbn [foldl]. apply IH.
    apply unseen_false in Hs as (v & Hv & Hnn). apply unseen_false.
    exists v. split; [by apply see_key_keeps|done].
Qed.

Lemma loop_first_seen (ids : list string) (s : SeqState) :
  foldl see_key s (first_seen ids) = foldl see_key s ids.
Proof.
  revert s. induction ids as [|id ids IH]; intros s; [done|].
  cbn [first_seen foldl]. rewrite loop_skip_seen by apply see_key_seen. apply IH.
Qed.

Lemma new_keys_first_seen (ids : list string) (s : SeqState) :
  new_keys s (first_seen ids) = new_keys s ids.
Proof.
  unfold new_keys. rewrite <- first_seen_filter.
  apply first_seen_id, first_seen_NoDup.
Qed.

(** The pass over the survivors of a feed, in terms of the keys of the
    feed. *)
Lemma loop_dedupe (its : list RawItem) (s : SeqState) :
  foldl see_key s (getItemId <$> dedupeItems its) = foldl see_key s (dedupeKey <$> its)
  /\ new_keys s (getItemId <$> dedupeItems its) = new_keys s (dedupeKey <$> its).
Proof.
  change (getItemId <$> dedupeItems its) with (dedupeKey <$> dedupeItems its).
  rewrite dedupeItems_keys. split; [apply loop_first_seen|apply new_keys_first_seen].
Qed.

Lemma has_room_app (s : SeqState) (ids1 ids2 : list string) :
  has_room s (ids1 ++ ids2)%list ->
  has_room s ids1 /\ has_room (foldl see_key s ids1) ids2.
Proof.
  intros (c & Hc & Hlo & Hhi). rewrite new_keys_app, length_app in Hhi.
  assert (Hroom1 : exact_from c (length (new_keys s ids1))) by (split; lia).
  split; [by exists c|].
  destruct (loop_consecutive ids1 s c Hc Hroom1) as [Hc1 _].
  eexists. split; [exact Hc1|]. split; lia.
Qed.

Lemma assigned_keys (s : SeqState) (its : list RawItem) (k : string) :
  k ∈ (dedupeKey <$> sort_by cmp_value (assign_loop s false (dedupeItems its)).1.1)
  <-> k ∈ (dedupeKey <$> its).
Proof.
  rewrite sort_by_perm, assign_loop_items, <- list_fmap_compose.
  rewrite <- (first_seen_elem (dedupeKey <$> its)), <- dedupeItems_keys.
  by erewrite list_fmap_ext.
Qed.

(** C6, as the code has it.  Take a stored record that satisfies the
    invariant, whose map is a plain object and whose counter has room for
    the new keys of two feeds, storage that takes the write and a
    platform that reads back what it writes; and two cycles of
    [normalize], the second over the storage the first left.  Both
    return, each with the keys of its feed, and an item of the second
    cycle whose key is new in it gets a number above every number an item
    of the first cycle carries, and stands in the output before every
    item whose key was among the keys of the first cycle. *)
Theorem new_keys_rank_first (store0 : Storage) (its1 its2 : list RawItem)
    (g1 g2 : option string) :
  let s0 := loadSeqState store0 in
  let s1 := (assign_loop s0 false (dedupeItems its1)).1.2 in
  seq_invariant s0 -> indexed s0 = None ->
  has_room s0 ((dedupeKey <$> its1) ++ (dedupeKey <$> its2))%list ->
  accepting store0 -> reads_back (state_json s1) ->
  let cycle1 := normalize (Some {| items := Some its1; generated_utc := g1 |}) store0 in
  let cycle2 := normalize (Some {| items := Some its2; generated_utc := g2 |}) cycle1.2 in
  exists out1 out2,
    cycle1.1 = Some {| items := Some out1; generated_utc := g1 |}
    /\ cycle2.1 = Some {| items := Some out2; generated_utc := g2 |}
    /\ (forall k, k ∈ (dedupeKey <$> out1) <-> k ∈ (dedupeKey <$> its1))
    /\ (forall k, k ∈ (dedupeKey <$> out2) <-> k ∈ (dedupeKey <$> its2))
    /\ promoted s0 its1 out1 out2.
Proof.
  intros s0 s1 Hinv0 Hplain Hroom Hacc Hrb cycle1 cycle2.
  apply has_room_app in Hroom as [Hroom1 Hroom2].
  destruct (loop_dedupe its1 s0) as [Hloop1 Hnew1].
  assert (Hs1 : s1 = foldl see_key s0 (dedupeKey <$> its1)).
  { unfold s1. by rewrite assign_loop_state. }
  rewrite <- Hs1 in Hroom2.
  assert (Hinv1 : seq_invariant s1).
  { rewrite Hs1. by apply loop_invariant. }
  destruct (invariant_counter s0 Hinv0) as [c0 Hc0].
  assert (Hload : loadSeqState cycle1.2 = s1).
  { unfold cycle1. rewrite normalize_eq. cbn [snd].
    by apply (cycle_persists _ store0 c0). }
  subst cycle2 cycle1.
  rewrite (normalize_integer its1) by (by apply assigned_all, invariant_integer).
  cbn [fst snd].
  rewrite (normalize_integer its2);
    rewrite normalize_integer in Hload by (by apply assigned_all, invariant_integer);
    cbn [snd] in Hload; rewrite Hload;
    [|by apply assigned_all, invariant_integer].
  cbn [fst]. fold s0. eexists _, _. split; [done|]. split; [done|].
  split; [apply assigned_keys|]. split; [apply assigned_keys|].
  intros x Hx Hnew0 Hout.
  rewrite sort_by_perm in Hx.
  assert (Hnew : unseen s1 (dedupeKey x) = true).
  { unfold unseen in *. by rewrite Hs1, loop_other. }
  destruct (assigned_seq _ _ x (invariant_integer _ Hinv1) Hx) as (zx & Hzx & Hmx).
  destruct Hinv1 as (c1 & Hc1 & Hle1 & Hinj1).
  destruct Hroom2 as (c1' & Hc1' & Hexact2).
  rewrite Hc1 in Hc1'. injection Hc1' as <-.
  destruct (loop_dedupe its2 s1) as [Hloop2 Hnew2].
  assert (Hgt : c1 < zx).
  { rewrite assign_loop_state in Hmx.
    rewrite assign_loop_items in Hx. apply list_elem_of_fmap in Hx as (x0 & -> & Hx0).
    rewrite dedupeKey_set_seq in Hnew, Hmx.
    destruct (loop_new_key (getItemId <$> dedupeItems its2) s1 c1 (dedupeKey x0) Hc1)
      as (z & Hz & Hlt); [by rewrite Hnew2|done|apply list_elem_of_fmap; by exists x0|].
    unfold getItemId in *. rewrite Hz in Hmx. injection Hmx as <-. lia. }
  assert (Hold : forall k v, map s1 !! k = Some v ->
            exists z, v = JNum (Num z) /\ z < zx).
  { intros k v Hk. destruct (Hle1 _ _ Hk) as (z & -> & Hz). exists z. split; [done|lia]. }
  exists zx. split; [done|]. split.
  - intros y Hy. rewrite sort_by_perm in Hy.
    destruct (assigned_seq _ _ y (invariant_integer _ Hinv0) Hy) as (zy & Hzy & Hmy).
    fold s0 s1 in Hmy.
    destruct (Hold _ _ Hmy) as (z & [= <-] & Hz). eauto.
  - intros y i j Hi Hj Hky.
    assert (Hinv1 : seq_invariant s1) by (exists c1; done).
    assert (Hy : y ∈ (assign_loop s1 false (dedupeItems its2)).1.1).
    { rewrite <- (sort_by_perm cmp_value). apply list_elem_of_lookup. eauto. }
    destruct (assigned_seq _ _ y (invariant_integer _ Hinv1) Hy) as (zy & Hzy & Hmy).
    assert (Hzy' : zy < zx).
    { assert (Hseen : unseen s1 (dedupeKey y) = false).
      { rewrite Hs1. by apply loop_seen. }
      apply unseen_false in Hseen as (v & Hv & Hnn).
      destruct (Hold _ _ Hv) as (z & -> & Hz).
      rewrite assign_loop_state in Hmy.
      rewrite (loop_keeps _ s1 _ _ Hv Hnn) in Hmy. injection Hmy as <-. done. }
    assert (Hsorted : StronglySorted ranks_before
              (sort_by cmp_value (assign_loop s1 false (dedupeItems its2)).1.1)).
    { by apply sort_by_seq_then_time, assigned_all, invariant_integer. }
    destruct (lt_eq_lt_dec i j) as [[Hlt|Heq]|Hgt']; [done| |].
    + subst j. rewrite Hi in Hj. injection Hj as <-.
      rewrite Hzx in Hzy. injection Hzy as <-. lia.
    + destruct (StronglySorted_lookup _ _ j i y x Hsorted Hgt' Hj Hi)
        as (zy' & zx' & Hy' & Hx' & Hord).
      rewrite Hzy in Hy'. rewrite Hzx in Hx'.
      injection Hy' as <-. injection Hx' as <-. lia.
Qed.

(** C10, as the code has it.  The keys of the survivors of [dedupeItems]
    are the distinct keys of the input, each once, in the order of first
    occurrence, and an assign pass returns the survivors in that order.
    When the loaded counter is an integer with room for the new keys, the
    keys the record has no number for get the numbers counter + 1,
    counter + 2, ... in the order in which they first occur in the
    feed. *)
Theorem dedupe_then_assign_order (l : list RawItem) (store : Storage) :
  let s := loadSeqState store in
  let out := (assignStableSeq (dedupeItems l) store).1 in
  let new := new_keys s (dedupeKey <$> l) in
  dedupeKey <$> dedupeItems l = first_seen (dedupeKey <$> l)
  /\ NoDup (dedupeKey <$> dedupeItems l)
  /\ (forall k, k ∈ (dedupeKey <$> dedupeItems l) <-> k ∈ (dedupeKey <$> l))
  /\ dedupeKey <$> out = first_seen (dedupeKey <$> l)
  /\ (forall k, k ∈ new <-> k ∈ (dedupeKey <$> l) /\ unseen s k = true)
  /\ (forall c, counter s = Num c -> exact_from c (length new) ->
        forall (i : nat) k x, new !! i = Some k -> x ∈ out -> dedupeKey x = k ->
          seq_number x = Some (c + 1 + Z.of_nat i)).
Proof.
  intros s out new.
  split; [apply dedupeItems_keys|]. split; [|split; [|split; [|split]]].
  - rewrite dedupeItems_keys. apply first_seen_NoDup.
  - intros k. rewrite dedupeItems_keys. apply first_seen_elem.
  - unfold out. rewrite assignStableSeq_eq. cbn zeta. cbn [fst].
    rewrite assign_loop_items, <- list_fmap_compose.
    rewrite <- dedupeItems_keys. by apply list_fmap_ext.
  - intros k. apply new_keys_elem.
  - intros c Hc Hroom i k x Hi Hx <-.
    unfold out in Hx. rewrite assignStableSeq_eq in Hx. cbn zeta in Hx. cbn [fst] in Hx.
    rewrite assign_loop_items in Hx. apply list_elem_of_fmap in Hx as (x0 & -> & Hx0).
    rewrite dedupeKey_set_seq in *. apply seq_number_Some. cbn [__seq set_seq].
    fold s. destruct (loop_dedupe l s) as [-> _].
    destruct (loop_consecutive (dedupeKey <$> l) s c Hc Hroom) as [_ Hnum].
    by apply Hnum.
Qed.
End Ordering.

(** ** Loading the sequence record *)

Section Load.
Context `{Platform}.

Lemma loadSeqState_parsed (store : Storage) (raw : string) (v : jsval) :
  denied store = false -> cell store = Some raw -> raw <> EmptyString ->
  JSON_parse raw = Some v ->
  loadSeqState store =
    match Number (or_zero (get_prop "counter" v)) with
    | Some n =>
        {| counter := n;
           map := match get_prop "map" v with
                  | Some (JObj props) => obj_map props
                  | Some (JArr elems) => array_map elems
                  | _ => ∅
                  end;
           indexed := match get_prop "map" v with
                      | Some (JArr elems) => Some elems
                      | _ => None
                      end |}
    | None => fresh
    end.
Proof.
  intros Hd Hc Hne Hp. unfold loadSeqState, getItem.
  rewrite Hd, Hc, (truthy_Some raw Hne). cbn [or_empty]. by rewrite Hp.
Qed.

Lemma Number_Some (v : jsval) :
  no_primitive v = false -> exists n, Number v = Some n.
Proof.
  intros Hv. destruct (Number v) as [n|] eqn:Hn; [by exists n|].
  apply Number_None in Hn. congruence.
Qed.

(** C7, as the code has it.  [loadSeqState] returns a record for every
    state of the storage.  It is the fresh record when access is refused,
    when nothing or the empty string is stored, when the stored text is
    not JSON, when it is JSON but not an object, and when it is an object
    whose counter cannot be converted to a number (the conversion of an
    object with an own property [toString] throws).  For any other stored
    object the two properties are defaulted one by one: the counter is
    [Number(counter || 0)], which is [0] for a missing, [null], [false],
    [0] or empty counter and the number itself for a number; the map is
    the stored map when that is an object or an array (of which only the
    elements will be written back) and the empty map otherwise.  A text
    such as [{not json], which the platform does not read as JSON, gives
    what an empty storage gives. *)
Theorem loadSeqState_defaults (store : Storage) :
  (denied store = true -> loadSeqState store = fresh)
  /\ (cell store = None -> loadSeqState store = fresh)
  /\ (cell store = Some EmptyString -> loadSeqState store = fresh)
  /\ (forall raw, cell store = Some raw -> JSON_parse raw = None ->
        loadSeqState store = fresh)
  /\ (forall raw v, cell store = Some raw -> JSON_parse raw = Some v ->
        (forall props, v <> JObj props) -> loadSeqState store = fresh)
  /\ (forall raw props, denied store = false -> cell store = Some raw ->
        raw <> EmptyString -> JSON_parse raw = Some (JObj props) ->
        let stored := or_zero (obj_map props !! "counter") in
        (obj_map props !! "counter" = None
         \/ (exists v, obj_map props !! "counter" = Some v /\ js_truthy v = false) ->
         counter (loadSeqState store) = Num 0)
        /\ (forall n, obj_map props !! "counter" = Some (JNum n) ->
              js_truthy (JNum n) = true -> counter (loadSeqState store) = n)
        /\ (no_primitive stored = true -> loadSeqState store = fresh)
        /\ (no_primitive stored = false ->
            Number stored = Some (counter (loadSeqState store))
            /\ (forall m, obj_map props !! "map" = Some (JObj m) ->
                  map (loadSeqState store) = obj_map m
                  /\ indexed (loadSeqState store) = None)
            /\ (forall e, obj_map props !! "map" = Some (JArr e) ->
                  map (loadSeqState store) = array_map e
                  /\ indexed (loadSeqState store) = Some e)
            /\ (obj_map props !! "map" = None
                \/ (exists v, obj_map props !! "map" = Some v
                              /\ (forall m, v <> JObj m) /\ (forall e, v <> JArr e)) ->
                map (loadSeqState store) = ∅
                /\ indexed (loadSeqState store) = None)))
  /\ (cell store = Some "{not json" -> JSON_parse "{not json" = None ->
      loadSeqState store = fresh
      /\ loadSeqState store
         = loadSeqState {| cell := None; denied := denied store; full := full store;
                           written := written store |}).
Proof.
  assert (Hnone : forall raw, cell store = Some raw -> JSON_parse raw = None ->
            loadSeqState store = fresh).
  { intros raw Hc Hp. unfold loadSeqState, getItem. rewrite Hc.
    destruct (denied store); [done|]. destruct (truthy (Some raw)); [|done].
    cbn [or_empty]. by rewrite Hp. }
  assert (Habsent : forall st, cell st = None -> loadSeqState st = fresh).
  { intros st Hc. unfold loadSeqState, getItem. rewrite Hc. by destruct (denied st). }
  split; [|split; [|split; [|split; [|split; [|split]]]]].
  - intros Hd. unfold loadSeqState, getItem. by rewrite Hd.
  - apply Habsent.
  - intros Hc. unfold loadSeqState, getItem. rewrite Hc. by destruct (denied store).
  - done.
  - intros raw v Hc Hp Hno. unfold loadSeqState, getItem. rewrite Hc.
    destruct (denied store); [done|]. destruct (truthy (Some raw)); [|done].
    cbn [or_empty]. rewrite Hp. destruct v; try done. by destruct (Hno props).
  - intros raw props Hd Hc Hne Hp stored.
    rewrite (loadSeqState_parsed store raw (JObj props)) by done.
    cbn [get_prop]. fold stored. split; [|split; [|split]].
    + intros Hzero. assert (stored = JNum (Num 0)) as ->; [|done].
      unfold stored. destruct Hzero as [-> | (v & -> & Hv)]; [done|].
      cbn [or_zero]. by rewrite Hv.
    + intros n Hn Ht. unfold stored. rewrite Hn. cbn [or_zero]. by rewrite Ht.
    + intros Hthrow%Number_None. by rewrite Hthrow.
    + intros [n Hn]%Number_Some. rewrite Hn. cbn [counter map indexed].
      split; [done|]. split; [|split].
      * by intros m ->.
      * by intros e ->.
      * intros [-> | (v & -> & Hm & He)]; [done|].
        destruct v; try done; [by destruct (He elems)|by destruct (Hm props0)].
  - intros Hc Hp. split; [by apply (Hnone "{not json")|].
    rewrite (Hnone "{not json") by done. symmetry. by apply Habsent.
Qed.
End Load.


(** ** Reading back what the reference platform writes *)

Lemma string_app_assoc (a b c : string) : (a +:+ b) +:+ c = a +:+ (b +:+ c).
Proof. induction a as [|x a IH]; [done|]. rewrite !app_cons. by rewrite IH. Qed.

Lemma string_app_length (a b : string) :
  String.length (a +:+ b) = (String.length a + String.length b)%nat.
Proof. induction a as [|x a IH]; [done|]. rewrite app_cons. cbn. by rewrite IH. Qed.

Lemma code_inj (c : ascii) (n : N) : code c = n -> c = ascii_of_N n.
Proof. intros <-. unfold code. by rewrite ascii_N_embedding. Qed.

Lemma code_ascii_of_N (n : N) : (n < 256)%N -> code (ascii_of_N n) = n.
Proof. intros Hn. unfold code. by apply N_ascii_embedding. Qed.

Lemma hex_value_digit (k : N) : (k < 16)%N -> hex_value (hex_digit k) = Some k.
Proof.
  intros Hk.
  assert (k = 0 \/ k = 1 \/ k = 2 \/ k = 3 \/ k = 4 \/ k = 5 \/ k = 6 \/ k = 7
          \/ k = 8 \/ k = 9 \/ k = 10 \/ k = 11 \/ k = 12 \/ k = 13 \/ k = 14
          \/ k = 15)%N as Hcases by lia.
  repeat (destruct Hcases as [->|Hcases]; [reflexivity|]). by subst.
Qed.

Ltac run_parse :=
  unfold quote_char;
  repeat first
    [ rewrite app_cons
    | rewrite app_empty_l
    | progress cbn [parse_string_body]
    | match goal with
      | |- context [code (Ascii ?a ?b ?c ?d ?e ?f ?g ?h)] =>
          let v := eval vm_compute in (code (Ascii a b c d e f g h)) in
          change (code (Ascii a b c d e f g h)) with v
      | |- context [ascii_of_N ?n] =>
          let v := eval vm_compute in (ascii_of_N n) in
          change (ascii_of_N n) with v
      end
    | progress cbn [N.eqb Pos.eqb N.ltb N.compare Pos.compare Pos.compare_cont] ].

(** One character, escaped and read again. *)
Lemma parse_escape_char (c : ascii) (s tail rest : string) :
  parse_string_body tail = Some (s, rest) ->
  parse_string_body (escape_char c +:+ tail) = Some (String c s, rest).
Proof.
  intros Ht. unfold escape_char.
  repeat match goal with
         | |- context [(code c =? ?k)%N] =>
             destruct (N.eqb_spec (code c) k) as [E|?];
               [apply code_inj in E; subst c; run_parse; by rewrite Ht|]
         end.
  destruct (N.ltb_spec (code c) 32) as [Hlow|Hhigh].
  - assert (Hhi : (code c / 16 < 16)%N) by (apply N.Div0.div_lt_upper_bound; lia).
    assert (Hlo : (code c mod 16 < 16)%N) by (by apply N.mod_lt).
    run_parse. change (hex_value "0") with (Some 0%N).
    rewrite (hex_value_digit _ Hhi), (hex_value_digit _ Hlo).
    replace (((0 * 16 + 0) * 16 + code c / 16) * 16 + code c mod 16)%N with (code c)
      by (pose proof (N.div_mod (code c) 16 ltac:(lia)); lia).
    destruct (N.ltb_spec (code c) 128) as [_|?]; [|lia].
    rewrite Ht. unfold code. by rewrite ascii_N_embedding.
  - rewrite app_cons, app_empty_l. cbn [parse_string_body].
    destruct (N.eqb_spec (code c) 34) as [?|_]; [done|].
    destruct (N.eqb_spec (code c) 92) as [?|_]; [done|].
    destruct (N.ltb_spec (code c) 32) as [?|_]; [lia|].
    by rewrite Ht.
Qed.

Lemma parse_escape (s rest : string) :
  parse_string_body (escape s +:+ quote_char +:+ rest) = Some (s, rest).
Proof.
  induction s as [|c s IH]; [done|].
  cbn [escape]. rewrite string_app_assoc. by apply parse_escape_char.
Qed.

Lemma parse_quote (s rest : string) :
  exists r, quote s +:+ rest = String "034" r /\ parse_string_body r = Some (s, rest).
Proof.
  exists (escape s +:+ quote_char +:+ rest). split; [|apply parse_escape].
  unfold quote. by rewrite !string_app_assoc.
Qed.

Lemma all_chars_app (p : ascii -> bool) (a b : string) :
  all_chars p (a +:+ b) = all_chars p a && all_chars p b.
Proof. induction a as [|c a IH]; [done|]. rewrite app_cons. cbn. by rewrite IH, andb_assoc. Qed.

Lemma pretty_N_char_digit (d : N) :
  (d < 10)%N ->
  is_digit (pretty_N_char d) = true /\ digit_value (pretty_N_char d) = Z.of_N d.
Proof.
  intros Hd.
  assert (d = 0 \/ d = 1 \/ d = 2 \/ d = 3 \/ d = 4 \/ d = 5 \/ d = 6 \/ d = 7
          \/ d = 8 \/ d = 9)%N as Hcases by lia.
  repeat (destruct Hcases as [->|Hcases]; [by vm_compute|]). subst. by vm_compute.
Qed.

Lemma pretty_N_go_digits (x : N) (s : string) :
  all_chars is_digit s = true -> all_chars is_digit (pretty_N_go x s) = true.
Proof.
  revert s. induction (N.lt_wf_0 x) as [x _ IH]; intros s Hs.
  destruct (decide (x = 0)%N) as [->|Hx]; [done|].
  rewrite pretty_N_go_step by lia. apply IH; [apply N.div_lt; lia|].
  cbn [all_chars]. rewrite Hs.
  by destruct (pretty_N_char_digit (x mod 10)) as [-> _]; [apply N.mod_lt|].
Qed.

(** Reading the digits that [pretty_N_go] puts in front of [s]. *)
Lemma digits_go_pretty (x : N) (s : string) :
  exists k, forall acc,
    digits_go acc (pretty_N_go x s) = digits_go (acc * k + Z.of_N x) s.
Proof.
  revert s. induction (N.lt_wf_0 x) as [x _ IH]; intros s.
  destruct (decide (x = 0)%N) as [->|Hx].
  - exists 1. intros acc. rewrite pretty_N_go_0. f_equal. lia.
  - destruct (IH (x / 10)%N ltac:(apply N.div_lt; lia)
                (String (pretty_N_char (x mod 10)) s)) as [k Hk].
    exists (10 * k). intros acc.
    rewrite pretty_N_go_step by lia. rewrite Hk. cbn [digits_go].
    destruct (pretty_N_char_digit (x mod 10)) as [-> ->]; [by apply N.mod_lt|].
    f_equal.
    rewrite (N.div_mod x 10 ltac:(lia)) at 3.
    rewrite N2Z.inj_add, N2Z.inj_mul. change (Z.of_N 10) with 10. ring.
Qed.

Lemma pretty_N_go_head (x : N) (s : string) :
  (0 < x)%N ->
  exists c r, pretty_N_go x s = String c r
    /\ is_digit c = true /\ Ascii.eqb "0" c = false.
Proof.
  revert s. induction (N.lt_wf_0 x) as [x _ IH]; intros s Hx.
  rewrite pretty_N_go_step by done.
  destruct (decide (x / 10 = 0)%N) as [Hz|Hnz].
  - rewrite Hz, pretty_N_go_0.
    exists (pretty_N_char (x mod 10)), s. split; [done|].
    assert (x < 10)%N by (apply N.div_small_iff in Hz; lia).
    rewrite N.mod_small by done.
    assert (x = 1 \/ x = 2 \/ x = 3 \/ x = 4 \/ x = 5 \/ x = 6 \/ x = 7
            \/ x = 8 \/ x = 9)%N as Hcases by lia.
    repeat (destruct Hcases as [->|Hcases]; [by vm_compute|]). subst. by vm_compute.
  - apply IH; [apply N.div_lt; lia|by apply N.neq_0_lt_0].
Qed.

Lemma span_digits_app (ds rest : string) :
  all_chars is_digit ds = true -> value_end rest ->
  span_digits (ds +:+ rest) = (ds, rest).
Proof.
  intros Hds Hrest. induction ds as [|c ds IH].
  - rewrite app_empty_l. destruct rest as [|c r]; [done|].
    cbn in Hrest. by destruct Hrest as [->|[->| ->]].
  - cbn in Hds. apply andb_prop in Hds as [Hc Hds].
    rewrite app_cons. cbn [span_digits]. by rewrite Hc, IH.
Qed.

Lemma value_end_not_number (rest : string) :
  value_end rest ->
  startsWith "." rest || startsWith "e" rest || startsWith "E" rest = false.
Proof.
  destruct rest as [|c r]; [done|]. cbn. by intros [->|[->| ->]].
Qed.

Lemma startsWith_cons_false (p : string) (c d : ascii) (r : string) :
  Ascii.eqb c d = false -> startsWith (String c p) (String d r) = false.
Proof. intros Hcd. cbn. by rewrite Hcd. Qed.

Lemma is_digit_code (c : ascii) : is_digit c = true -> (48 <= code c <= 57)%N.
Proof. unfold is_digit. intros [?%N.leb_le ?%N.leb_le]%andb_prop. lia. Qed.

Lemma digit_head_not (c d : ascii) :
  is_digit c = true -> is_digit d = false -> Ascii.eqb d c = false.
Proof. intros Hc Hd. apply Ascii.eqb_neq. intros ->. congruence. Qed.

(** The decimal text of a number, read again. *)
Lemma parse_digits_pretty (x : N) (rest : string) :
  value_end rest ->
  startsWith "-" (pretty x +:+ rest) = false
  /\ span_digits (pretty x +:+ rest) = (pretty x, rest)
  /\ digits (pretty x) = Some (Z.of_N x)
  /\ (1 <? String.length (pretty x))%nat && startsWith "0" (pretty x) = false.
Proof.
  intros Hrest. unfold pretty, pretty_N.
  destruct (decide (x = 0)%N) as [->|Hx].
  - split; [done|]. split; [by apply span_digits_app|done].
  - destruct (pretty_N_go_head x EmptyString ltac:(lia)) as (c & r & Hcr & Hc & Hz).
    destruct (digits_go_pretty x EmptyString) as [k Hk].
    split; [|split; [|split]].
    + rewrite Hcr, app_cons. cbn [startsWith].
      by rewrite (digit_head_not c "-" Hc).
    + apply span_digits_app; [by apply pretty_N_go_digits|done].
    + unfold digits. rewrite Hcr at 1. cbn [is_empty]. by rewrite Hk.
    + rewrite Hcr. cbn [startsWith]. by rewrite Hz, andb_false_r.
Qed.

Lemma parse_number_pretty (z : Z) (rest : string) :
  value_end rest ->
  parse_number (pretty z +:+ rest) = Some (JNum (Num z), rest).
Proof.
  intros Hrest. unfold parse_number.
  assert (Hnat : forall x : N,
            (let neg := startsWith "-" (pretty x +:+ rest) in
             let body := if neg then slice_from 1 (pretty x +:+ rest)
                         else pretty x +:+ rest in
             let '(ds, rest') := span_digits body in
             match digits ds with
             | Some n =>
                 if (1 <? String.length ds)%nat && startsWith "0" ds then None
                 else if startsWith "." rest' || startsWith "e" rest'
                         || startsWith "E" rest' then None
                 else Some (JNum (Num (if neg then - n else n)), rest')
             | None => None
             end) = Some (JNum (Num (Z.of_N x)), rest)).
  { intros x. cbn zeta.
    destruct (parse_digits_pretty x rest Hrest) as (-> & -> & -> & ->).
    by rewrite value_end_not_number. }
  destruct z as [|p|p].
  - apply (Hnat 0%N).
  - apply (Hnat (Npos p)).
  - change (pretty (Z.neg p)) with ("-" +:+ pretty (Npos p)).
    rewrite string_app_assoc, app_cons, app_empty_l.
    change (startsWith "-" (String "-" (pretty (N.pos p) +:+ rest))) with true.
    cbn zeta. cbn [slice_from].
    destruct (parse_digits_pretty (Npos p) rest Hrest) as (_ & -> & -> & ->).
    by rewrite value_end_not_number.
Qed.

Lemma jsval_induction (P : jsval -> Prop) :
  P JNull -> (forall b, P (JBool b)) -> (forall n, P (JNum n)) ->
  (forall s, P (JStr s)) ->
  (forall elems, Forall P elems -> P (JArr elems)) ->
  (forall props, Forall (fun p => P (snd p)) props -> P (JObj props)) ->
  forall v, P v.
Proof.
  intros Hnull Hbool Hnum Hstr Harr Hobj. fix IH 1. intros [|b|n|s|elems|props].
  - exact Hnull.
  - apply Hbool.
  - apply Hnum.
  - apply Hstr.
  - apply Harr. revert elems. fix IHl 1. intros [|e elems].
    + constructor.
    + constructor; [apply IH|apply IHl].
  - apply Hobj. revert props. fix IHl 1. intros [|[k e] props].
    + constructor.
    + constructor; [apply IH|apply IHl].
Qed.

Lemma print_head (v : jsval) :
  json_value v = true ->
  exists c r, ref_JSON_stringify v = String c r /\ value_head c v.
Proof.
  destruct v as [|[]|[|z]|s|elems|props]; intros Hv; try done;
    try (eexists _, _; split; [reflexivity|constructor]).
  cbn [ref_JSON_stringify]. destruct z as [|p|p].
  - eexists _, _. split; [reflexivity|]. by constructor.
  - change (pretty (Z.pos p)) with (pretty (Npos p)).
    unfold pretty, pretty_N. rewrite decide_False by done.
    destruct (pretty_N_go_head (Npos p) EmptyString ltac:(lia)) as (c & r & -> & Hc & _).
    eexists _, _. split; [reflexivity|]. by constructor.
  - eexists _, _. split; [reflexivity|]. apply head_minus.
Qed.

Lemma value_head_not_space (c : ascii) (v : jsval) :
  value_head c v -> is_json_ws c = false.
Proof.
  destruct 1; try done.
  apply is_digit_code in H. unfold is_json_ws.
  repeat match goal with
         | |- context [(code c =? ?k)%N] => destruct (N.eqb_spec (code c) k); [lia|]
         end. done.
Qed.

Lemma skip_space_print (v : jsval) (rest : string) :
  json_value v = true ->
  skip_space (ref_JSON_stringify v +:+ rest) = ref_JSON_stringify v +:+ rest.
Proof.
  intros Hv. destruct (print_head v Hv) as (c & r & -> & Hc).
  rewrite app_cons. cbn [skip_space]. by rewrite (value_head_not_space c v Hc).
Qed.

Lemma print_not_close (v : jsval) (tail : string) :
  json_value v = true -> startsWith "]" (ref_JSON_stringify v +:+ tail) = false.
Proof.
  intros Hv. destruct (print_head v Hv) as (c & r & -> & Hc).
  rewrite app_cons. cbn [startsWith].
  destruct Hc; try done. by rewrite (digit_head_not c "]").
Qed.

Lemma value_end_skip (rest : string) : value_end rest -> skip_space rest = rest.
Proof.
  destruct rest as [|c r]; [done|]. cbn. by intros [->|[->| ->]].
Qed.

(** The tests of [parse_value], decided by the first character. *)
Lemma value_head_tests (c : ascii) (v : jsval) (r : string) :
  value_head c v ->
  match v with
  | JNull | JBool _ => True
  | JNum _ =>
      startsWith "null" (String c r) = false
      /\ startsWith "true" (String c r) = false
      /\ startsWith "false" (String c r) = false
      /\ startsWith quote_char (String c r) = false
      /\ startsWith "[" (String c r) = false
      /\ startsWith "{" (String c r) = false
  | JStr _ => c = "034"%char
  | JArr _ => c = "["%char
  | JObj _ => c = "{"%char
  end.
Proof.
  destruct 1; try done.
  cbn [startsWith quote_char].
  rewrite !(digit_head_not c _ H) by done. done.
Qed.

Lemma join_cons_cons (x y : string) (l : list string) :
  join "," (x :: y :: l) = x +:+ "," +:+ join "," (y :: l).
Proof. reflexivity. Qed.

Lemma join_head (x : string) (l : list string) (tail : string) :
  exists rest, join "," (x :: l) +:+ tail = x +:+ rest.
Proof.
  destruct l as [|y l]; [by exists tail|].
  exists ("," +:+ join "," (y :: l) +:+ tail).
  change (join "," (x :: y :: l)) with (x +:+ "," +:+ join "," (y :: l)).
  by rewrite !string_app_assoc.
Qed.

Lemma value_end_cons (c : ascii) (tail : string) :
  c = ","%char \/ c = "]"%char \/ c = "}"%char ->
  value_end (String c EmptyString +:+ tail).
Proof. done. Qed.

Lemma skip_space_cons (c : ascii) (tail : string) :
  is_json_ws c = false ->
  skip_space (String c EmptyString +:+ tail) = String c tail.
Proof. intros Hc. rewrite app_cons, app_empty_l. cbn. by rewrite Hc. Qed.

Lemma reads_elems (elems : list jsval) (fuel : nat) (rest : string) :
  Forall (fun v => json_value v = true /\ reads v) elems ->
  elems <> [] ->
  (list_sum (List.map (fun e => S (weight e)) elems) <= fuel)%nat ->
  parse_elems fuel (join "," (List.map ref_JSON_stringify elems) +:+ "]" +:+ rest)
  = Some (elems, rest).
Proof.
  intros Hall. revert fuel. induction Hall as [|v vs [Hv Hread] Hall IH]; intros fuel Hne Hfuel;
    [done|].
  cbn [List.map list_sum fold_right] in Hfuel. unfold list_sum in IH.
  destruct fuel as [|fuel]; [lia|].
  cbn [parse_elems]. destruct vs as [|w ws].
  - cbn [List.map join String.concat].
    rewrite Hread; [|lia|by apply value_end_cons; auto]. cbn zeta.
    rewrite skip_space_cons by done. cbn [startsWith slice_from].
    change (Ascii.eqb "," "]") with false. by rewrite Ascii.eqb_refl.
  - change (join "," (List.map ref_JSON_stringify (v :: w :: ws)))
      with (ref_JSON_stringify v +:+ "," +:+ join "," (List.map ref_JSON_stringify (w :: ws))).
    rewrite !string_app_assoc.
    rewrite Hread; [|lia|by apply value_end_cons; auto]. cbn zeta.
    rewrite skip_space_cons by done. cbn [startsWith slice_from].
    rewrite Ascii.eqb_refl. cbn [andb].
    pose proof Hall as [[Hw _] _]%Forall_cons.
    destruct (join_head (ref_JSON_stringify w) (List.map ref_JSON_stringify ws)
                ("]" +:+ rest)) as [tail Htail].
    change (List.map ref_JSON_stringify (w :: ws))
      with (ref_JSON_stringify w :: List.map ref_JSON_stringify ws).
    rewrite Htail, (skip_space_print w tail Hw), <- Htail.
    rewrite IH; [done|done|lia].
Qed.

(** One member of an object, read by [parse_members]. *)
Lemma parse_member (k : string) (v : jsval) (fuel : nat) (tail : string) :
  json_value v = true -> reads v -> (weight v <= fuel)%nat -> value_end tail ->
  parse_members (S fuel) ((quote k +:+ ":" +:+ ref_JSON_stringify v) +:+ tail) =
    if startsWith "," (skip_space tail) then
      match parse_members fuel (skip_space (slice_from 1 (skip_space tail))) with
      | Some (ms, rest) => Some ((k, v) :: ms, rest)
      | None => None
      end
    else if startsWith "}" (skip_space tail)
         then Some ([(k, v)], slice_from 1 (skip_space tail))
         else None.
Proof.
  intros Hv Hread Hfuel Htail. cbn [parse_members]. rewrite !string_app_assoc.
  destruct (parse_quote k (":" +:+ ref_JSON_stringify v +:+ tail)) as (r & -> & Hr).
  change (startsWith quote_char (String "034" r)) with true. cbn iota.
  cbn [slice_from]. rewrite Hr. cbn zeta.
  rewrite skip_space_cons by done.
  change (startsWith ":" (String ":" (ref_JSON_stringify v +:+ tail))) with true.
  cbn iota. cbn [slice_from].
  rewrite (skip_space_print v tail Hv), Hread by done. reflexivity.
Qed.

Lemma reads_members (props : list (string * jsval)) (fuel : nat) (rest : string) :
  Forall (fun p => json_value (snd p) = true /\ reads (snd p)) props ->
  props <> [] ->
  (list_sum (List.map (fun p => S (S (weight (snd p)))) props) <= fuel)%nat ->
  parse_members fuel
    (join "," (List.map (fun p => quote (fst p) +:+ ":" +:+ ref_JSON_stringify (snd p)) props)
     +:+ "}" +:+ rest)
  = Some (props, rest).
Proof.
  intros Hall. revert fuel.
  induction Hall as [|[k v] ps [Hv Hread] Hall IH]; intros fuel Hne Hfuel; [done|].
  cbn [List.map list_sum fold_right fst snd] in *. unfold list_sum in IH.
  destruct fuel as [|fuel]; [lia|].
  destruct ps as [|[k' v'] qs].
  - cbn [List.map join String.concat].
    rewrite parse_member; [|done|done|lia|by apply value_end_cons; auto].
    rewrite skip_space_cons by done. cbn [startsWith slice_from].
    change (Ascii.eqb "," "}") with false. by rewrite Ascii.eqb_refl.
  - set (member := fun p : string * jsval =>
                     quote (fst p) +:+ ":" +:+ ref_JSON_stringify (snd p)) in *.
    cbn [List.map]. rewrite join_cons_cons. rewrite !string_app_assoc.
    rewrite <- !(string_app_assoc (quote k)).
    rewrite <- (string_app_assoc (quote k +:+ ":")).
    rewrite (string_app_assoc (quote k)).
    rewrite parse_member; [|done|done|lia|by apply value_end_cons; auto].
    rewrite skip_space_cons by done. cbn [startsWith slice_from].
    rewrite Ascii.eqb_refl. cbn [andb].
    destruct (join_head (member (k', v')) (List.map member qs) ("}" +:+ rest))
      as [tail Htail].
    assert (Hskip : forall t, skip_space (member (k', v') +:+ t) = member (k', v') +:+ t).
    { intros t. unfold member. cbn [fst snd]. rewrite !string_app_assoc.
      destruct (parse_quote k' (":" +:+ ref_JSON_stringify v' +:+ t)) as (r & -> & _).
      done. }
    rewrite Htail, Hskip, <- Htail.
    change (member (k', v') :: List.map member qs) with (List.map member ((k', v') :: qs)).
    rewrite IH; [done|done|lia].
Qed.

(** Every value without [NaN] is read back from its text. *)
Lemma reads_all (v : jsval) : json_value v = true -> reads v.
Proof.
  induction v as [|b|n|s|elems IH|props IH] using jsval_induction;
    intros Hv fuel rest Hfuel Hrest; (destruct fuel as [|fuel]; [cbn [weight] in Hfuel; lia|]).
  - done.
  - by destruct b.
  - destruct n as [|z]; [done|].
    destruct (print_head (JNum (Num z)) Hv) as (c & r & Hcr & Hc).
    cbn [parse_value]. rewrite Hcr, app_cons.
    destruct (value_head_tests c _ (r +:+ rest) Hc) as (-> & -> & -> & -> & -> & ->).
    rewrite <- app_cons, <- Hcr. by apply parse_number_pretty.
  - cbn [parse_value ref_JSON_stringify].
    destruct (parse_quote s rest) as (r & -> & Hr).
    change (startsWith "null" (String "034" r)) with false.
    change (startsWith "true" (String "034" r)) with false.
    change (startsWith "false" (String "034" r)) with false.
    change (startsWith quote_char (String "034" r)) with true.
    cbn iota. cbn [slice_from]. by rewrite Hr.
  - cbn [parse_value ref_JSON_stringify].
    rewrite !string_app_assoc, app_cons, app_empty_l.
    cbn [startsWith slice_from quote_char].
    change (Ascii.eqb "n" "[") with false. change (Ascii.eqb "t" "[") with false.
    change (Ascii.eqb "f" "[") with false. change (Ascii.eqb "034" "[") with false.
    rewrite Ascii.eqb_refl. cbn [andb]. cbn iota. cbn zeta.
    destruct elems as [|e elems].
    + cbn [List.map join String.concat]. rewrite app_empty_l, skip_space_cons by done.
      cbn [startsWith slice_from]. by rewrite Ascii.eqb_refl.
    + assert (Hall : Forall (fun v => json_value v = true /\ reads v) (e :: elems)).
      { cbn [json_value] in Hv. rewrite forallb_forall in Hv.
        rewrite Forall_forall in IH. apply Forall_forall. intros x Hx.
        split; [apply Hv; by apply list_elem_of_In|].
        apply IH; [done|]. apply Hv. by apply list_elem_of_In. }
      destruct (join_head (ref_JSON_stringify e) (List.map ref_JSON_stringify elems)
                  ("]" +:+ rest)) as [tail Htail].
      change (List.map ref_JSON_stringify (e :: elems))
        with (ref_JSON_stringify e :: List.map ref_JSON_stringify elems).
      pose proof Hall as [[He _] _]%Forall_cons.
      rewrite Htail, (skip_space_print e tail He).
      change (match ref_JSON_stringify e +:+ tail with
              | EmptyString => false
              | String b _ => (Ascii.eqb "]" b) && true
              end) with (startsWith "]" (ref_JSON_stringify e +:+ tail)).
      rewrite (print_not_close e tail He), <- Htail.
      change (ref_JSON_stringify e :: List.map ref_JSON_stringify elems)
        with (List.map ref_JSON_stringify (e :: elems)).
      rewrite reads_elems; [done|done|done|cbn [weight] in Hfuel; unfold list_sum in *; lia].
  - cbn [parse_value ref_JSON_stringify].
    rewrite !string_app_assoc, app_cons, app_empty_l.
    cbn [startsWith slice_from quote_char].
    change (Ascii.eqb "n" "{") with false. change (Ascii.eqb "t" "{") with false.
    change (Ascii.eqb "f" "{") with false. change (Ascii.eqb "034" "{") with false.
    change (Ascii.eqb "[" "{") with false.
    rewrite Ascii.eqb_refl. cbn [andb]. cbn iota. cbn zeta.
    destruct props as [|[k e] props].
    + cbn [List.map join String.concat]. rewrite app_empty_l, skip_space_cons by done.
      cbn [startsWith slice_from]. by rewrite Ascii.eqb_refl.
    + assert (Hall : Forall (fun p => json_value (snd p) = true /\ reads (snd p))
                       ((k, e) :: props)).
      { cbn [json_value] in Hv. rewrite forallb_forall in Hv.
        rewrite Forall_forall in IH. apply Forall_forall. intros x Hx.
        split; [apply Hv; by apply list_elem_of_In|].
        apply IH; [done|]. apply Hv. by apply list_elem_of_In. }
      set (member := fun p : string * jsval =>
                       quote (fst p) +:+ ":" +:+ ref_JSON_stringify (snd p)) in *.
      destruct (join_head (member (k, e)) (List.map member props) ("}" +:+ rest))
        as [tail Htail].
      change (List.map member ((k, e) :: props))
        with (member (k, e) :: List.map member props).
      assert (Hhead : exists r, member (k, e) +:+ tail = String "034" r).
      { unfold member. cbn [fst snd]. rewrite !string_app_assoc.
        destruct (parse_quote k (":" +:+ ref_JSON_stringify e +:+ tail)) as (r & -> & _).
        eauto. }
      destruct Hhead as [r Hr].
      assert (Hskip : skip_space (member (k, e) +:+ tail) = member (k, e) +:+ tail)
        by (by rewrite Hr).
      assert (Hclose : startsWith "}" (member (k, e) +:+ tail) = false)
        by (by rewrite Hr).
      rewrite Htail, Hskip.
      change (match member (k, e) +:+ tail with
              | EmptyString => false
              | String b _ => (Ascii.eqb "}" b) && true
              end) with (startsWith "}" (member (k, e) +:+ tail)).
      rewrite Hclose, <- Htail.
      change (member (k, e) :: List.map member props)
        with (List.map member ((k, e) :: props)).
      rewrite reads_members; [done|done|done|cbn [weight] in Hfuel; unfold list_sum in *; lia].
Qed.

Lemma string_app_empty_r (s : string) : s +:+ EmptyString = s.
Proof. induction s as [|c s IH]; [done|]. by rewrite app_cons, IH. Qed.

Lemma join_length (l : list string) :
  (list_sum (List.map String.length l) + pred (List.length l)
   <= String.length (join "," l))%nat.
Proof.
  induction l as [|x [|y l] IH]; [done|cbn; lia|].
  rewrite join_cons_cons, !string_app_length.
  cbn [List.map list_sum fold_right List.length pred] in *. unfold list_sum in *.
  cbn [String.length]. lia.
Qed.

Lemma weight_le_length (v : jsval) :
  (weight v <= 2 * String.length (ref_JSON_stringify v) + 1)%nat.
Proof.
  induction v as [|b|n|s|elems IH|props IH] using jsval_induction;
    try (cbn [weight]; lia).
  - cbn [weight ref_JSON_stringify]. rewrite !string_app_length.
    assert (Hsum : (list_sum (List.map (fun e => S (weight e)) elems)
                    <= 2 * list_sum (List.map String.length
                                       (List.map ref_JSON_stringify elems))
                       + 2 * List.length elems)%nat).
    { induction IH as [|e elems He _ IHelems]; [done|].
      cbn [List.map list_sum fold_right List.length] in *. unfold list_sum in *. lia. }
    pose proof (join_length (List.map ref_JSON_stringify elems)) as Hjoin.
    rewrite List.length_map in Hjoin.
    cbn [String.length]. destruct elems; cbn [List.length pred] in *; lia.
  - cbn [weight ref_JSON_stringify]. rewrite !string_app_length.
    set (member := fun p : string * jsval =>
                     quote (fst p) +:+ ":" +:+ ref_JSON_stringify (snd p)).
    assert (Hsum : (list_sum (List.map (fun p => S (S (weight (snd p)))) props)
                    <= 2 * list_sum (List.map String.length (List.map member props))
                       + List.length props)%nat).
    { induction IH as [|[k e] props He _ IHprops]; [done|].
      cbn [List.map list_sum fold_right List.length] in *. unfold list_sum in *.
      unfold member at 1. rewrite !string_app_length. cbn [String.length snd fst] in *.
      lia. }
    pose proof (join_length (List.map member props)) as Hjoin.
    rewrite List.length_map in Hjoin.
    cbn [String.length]. destruct props; cbn [List.length pred] in *; lia.
Qed.

(** The reference parser reads back every text the reference printer writes
    for a value without [NaN]. *)
Lemma ref_JSON_parse_stringify (v : jsval) :
  json_value v = true -> ref_JSON_parse (ref_JSON_stringify v) = Some v.
Proof.
  intros Hv. unfold ref_JSON_parse.
  rewrite <- (string_app_empty_r (ref_JSON_stringify v)) at 2.
  rewrite (skip_space_print v EmptyString Hv).
  rewrite (reads_all v Hv); [done| |done].
  pose proof (weight_le_length v). lia.
Qed.

Lemma reference_reads_back (v : jsval) :
  json_value v = true -> @reads_back reference_platform v.
Proof.
  intros Hv. split.
  - cbn. destruct (print_head v Hv) as (c & r & -> & _). done.
  - by apply ref_JSON_parse_stringify.
Qed.

Lemma json_value_state (state : SeqState) :
  seq_invariant state -> indexed state = None -> json_value (state_json state) = true.
Proof.
  intros (c & Hc & Hle & _) Hplain. unfold state_json. rewrite Hplain.
  cbn [json_value forallb snd].
  rewrite Hc. cbn [andb]. rewrite andb_true_r.
  apply forallb_forall. intros [k v] Hin. cbn [snd].
  apply list_elem_of_In, elem_of_map_to_list in Hin.
  by destruct (Hle k v Hin) as (z & -> & _).
Qed.

(** On the reference platform, every record that satisfies the invariant
    and whose map is a plain object is read back from the text
    [saveSeqState] writes for it. *)
Lemma reference_reads_back_state (state : SeqState) :
  seq_invariant state -> indexed state = None ->
  @reads_back reference_platform (state_json state).
Proof. intros Hinv Hplain. by apply reference_reads_back, json_value_state. Qed.

(** * Further properties of the code *)

(** ** Escaping text for HTML *)

Ltac app_norm :=
  repeat first [rewrite string_app_assoc | rewrite app_cons | rewrite app_empty_l].

Ltac app_norm_in H :=
  repeat first [rewrite string_app_assoc in H | rewrite app_cons in H
               | rewrite app_empty_l in H].

Lemma replaceAll_char (a : ascii) (rep s : string) :
  replaceAll (String a EmptyString) rep s = subst_char a rep s.
Proof.
  unfold replaceAll. cbn [is_empty].
  induction s as [|c s IH]; [done|].
  cbn [replaceAll_from subst_char startsWith String.length Nat.sub].
  rewrite andb_true_r. destruct (Ascii.eqb a c); by rewrite IH.
Qed.

Lemma subst_char_app (a : ascii) (rep x y : string) :
  subst_char a rep (x +:+ y) = subst_char a rep x +:+ subst_char a rep y.
Proof.
  induction x as [|c x IH]; [done|].
  rewrite app_cons. cbn [subst_char]. by rewrite IH, string_app_assoc.
Qed.

(** The five replacements, one after the other, amount to one pass that
    writes each character on its own: the [&] of an entity that a later
    replacement writes is not replaced again. *)
Lemma escapeHtml_cons (c : ascii) (s : string) :
  escapeHtml (Some (String c s)) = escape_html_char c +:+ escapeHtml (Some s).
Proof.
  unfold escapeHtml. cbn [or_empty]. unfold quote_char.
  rewrite !replaceAll_char.
  change (String c s) with (String c EmptyString +:+ s).
  rewrite !subst_char_app. f_equal.
  by destruct c as [[] [] [] [] [] [] [] []].
Qed.

Lemma escapeHtml_chars_nil : escapeHtml (Some EmptyString) = EmptyString.
Proof. reflexivity. Qed.

Lemma escapeHtml_concat (a b : string) :
  escapeHtml (Some (a +:+ b)) = escapeHtml (Some a) +:+ escapeHtml (Some b).
Proof.
  induction a as [|c a IH]; [done|].
  by rewrite app_cons, !escapeHtml_cons, IH, string_app_assoc.
Qed.

Lemma escape_html_char_cases (c : ascii) :
  html_special c = true /\ (exists e, e ∈ ENTITY_TAILS /\ escape_html_char c = "&" +:+ e)
  \/ html_special c = false /\ escape_html_char c = String c EmptyString.
Proof.
  unfold html_special, escape_html_char, ENTITY_TAILS.
  destruct (Ascii.eqb c "&"); [left; split; [done|]; eexists; split; [|done]; set_solver|].
  destruct (Ascii.eqb c "<"); [left; split; [done|]; eexists; split; [|done]; set_solver|].
  destruct (Ascii.eqb c ">"); [left; split; [done|]; eexists; split; [|done]; set_solver|].
  destruct (Ascii.eqb c "034"); [left; split; [done|]; eexists; split; [|done]; set_solver|].
  destruct (Ascii.eqb c "'"); [left; split; [done|]; eexists; split; [|done]; set_solver|].
  by right.
Qed.

Lemma chars_app (a b : string) : chars (a +:+ b) = (chars a ++ chars b)%list.
Proof. induction a as [|c a IH]; [done|]. rewrite app_cons. cbn. by rewrite IH. Qed.

Lemma startsWith_app (p r : string) : startsWith p (p +:+ r) = true.
Proof.
  induction p as [|c p IH]; [done|]. rewrite app_cons. cbn [startsWith].
  by rewrite Ascii.eqb_refl, IH.
Qed.

Lemma html_special_amp (c : ascii) :
  html_special c = true ->
  c = "&"%char \/ c = "<"%char \/ c = ">"%char \/ c = "034"%char \/ c = "'"%char.
Proof.
  unfold html_special. rewrite !orb_true_iff, !Ascii.eqb_eq. tauto.
Qed.

(** X1. The text [escapeHtml] returns holds none of the characters [<],
    [>], double quote and single quote, and every [&] in it is the start of
    one of the five entities [&amp;], [&lt;], [&gt;], [&quot;], [&#39;];
    this holds for every text, and for a missing one, which gives the
    empty text. *)
Theorem escapeHtml_safe (o : option string) :
  (forall c, c ∈ chars (escapeHtml o) ->
     c <> "<"%char /\ c <> ">"%char /\ c <> "034"%char /\ c <> "'"%char)
  /\ (forall x y, escapeHtml o = x +:+ "&" +:+ y ->
        exists e, e ∈ ENTITY_TAILS /\ startsWith e y = true)
  /\ escapeHtml None = EmptyString.
Proof.
  assert (Hsome : escapeHtml o = escapeHtml (Some (or_empty o))) by (by destruct o).
  rewrite Hsome. generalize (or_empty o) as s. clear o Hsome. intros s.
  split; [|split; [|done]].
  - induction s as [|c s IH]; [by intros c ?%elem_of_nil|].
    intros d. rewrite escapeHtml_cons, chars_app, elem_of_app.
    intros [Hd|Hd]; [|by apply IH].
    destruct (escape_html_char_cases c) as [[_ (e & He & Hx)]|[Hc Hx]];
      rewrite Hx in Hd.
    + unfold ENTITY_TAILS in He.
      repeat (apply elem_of_cons in He as [->|He]);
        try (by apply elem_of_nil in He);
        cbn in Hd; repeat (apply elem_of_cons in Hd as [->|Hd]);
        try (by apply elem_of_nil in Hd); done.
    + cbn in Hd. apply list_elem_of_singleton in Hd as ->.
      unfold html_special in Hc. rewrite !orb_false_iff in Hc.
      destruct Hc as [[[[_ H1] H2] H3] H4].
      apply Ascii.eqb_neq in H1, H2, H3, H4. done.
  - induction s as [|c s IH]; intros x y.
    + rewrite escapeHtml_chars_nil. by destruct x.
    + rewrite escapeHtml_cons.
      destruct (escape_html_char_cases c) as [[_ (e & He & ->)]|[Hc ->]].
      * destruct x as [|c0 x].
        { app_norm. intros [= <-]. exists e. split; [done|apply startsWith_app]. }
        unfold ENTITY_TAILS in He.
        repeat (apply elem_of_cons in He as [->|He]);
          try (by apply elem_of_nil in He);
          app_norm; intros [= _ Heq];
          repeat (destruct x as [|? x];
                  [by app_norm_in Heq|app_norm_in Heq; injection Heq as _ Heq]);
          by apply (IH x y).
      * app_norm.
        destruct x as [|c0 x].
        { app_norm. intros [= -> _]. done. }
        app_norm. intros [= _ Heq]. by apply (IH x y).
Qed.

(** X2. [escapeHtml] works character by character: the escaped text of a
    concatenation is the concatenation of the escaped texts, so a text
    can be escaped piece by piece, and one character gives either itself
    or its entity. *)
Theorem escapeHtml_app (a b : string) (c : ascii) :
  escapeHtml (Some (a +:+ b)) = escapeHtml (Some a) +:+ escapeHtml (Some b)
  /\ escapeHtml (Some (String c a)) = escape_html_char c +:+ escapeHtml (Some a)
  /\ (html_special c = false -> escapeHtml (Some (String c a)) = String c (escapeHtml (Some a))).
Proof.
  split; [apply escapeHtml_concat|]. split; [apply escapeHtml_cons|].
  intros Hc. rewrite escapeHtml_cons.
  destruct (escape_html_char_cases c) as [[Hs _]|[_ ->]]; [congruence|].
  by app_norm.
Qed.

Lemma escape_html_char_head (c : ascii) :
  exists r, escape_html_char c = String (if html_special c then "&"%char else c) r
    /\ (html_special c = false -> r = EmptyString).
Proof.
  destruct (escape_html_char_cases c) as [[-> (e & _ & ->)]|[-> ->]].
  - exists e. split; [by app_norm|done].
  - by exists EmptyString.
Qed.

Lemma escapeHtml_length (s : string) :
  (String.length s <= String.length (escapeHtml (Some s)))%nat.
Proof.
  induction s as [|c s IH]; [done|].
  rewrite escapeHtml_cons, string_app_length.
  destruct (escape_html_char_head c) as (r & -> & _). cbn [String.length]. lia.
Qed.

(** X3. [escapeHtml] loses nothing: two texts with the same escaped text
    are the same text. *)
Theorem escapeHtml_inj (a b : string) :
  escapeHtml (Some a) = escapeHtml (Some b) -> a = b.
Proof.
  revert b. induction a as [|c a IH]; intros [|d b].
  - done.
  - rewrite escapeHtml_cons, escapeHtml_chars_nil.
    destruct (escape_html_char_head d) as (r & -> & _). by app_norm.
  - rewrite escapeHtml_cons, escapeHtml_chars_nil.
    destruct (escape_html_char_head c) as (r & -> & _). by app_norm.
  - rewrite !escapeHtml_cons.
    destruct (html_special c) eqn:Hc, (html_special d) eqn:Hd.
    + apply html_special_amp in Hc, Hd.
      destruct Hc as [->|[->|[->|[->| ->]]]], Hd as [->|[->|[->|[->| ->]]]];
        unfold escape_html_char; cbn [Ascii.eqb Bool.eqb]; cbn match;
        app_norm; intros [= Heq]; f_equal; by apply IH.
    + destruct (escape_html_char_head c) as (r & -> & _).
      destruct (escape_html_char_head d) as (r' & -> & _).
      rewrite Hc, Hd. app_norm. intros [= <- _]. done.
    + destruct (escape_html_char_head c) as (r & -> & _).
      destruct (escape_html_char_head d) as (r' & -> & _).
      rewrite Hc, Hd. app_norm. intros [= -> _]. done.
    + destruct (escape_html_char_head c) as (r & -> & Hr).
      destruct (escape_html_char_head d) as (r' & -> & Hr').
      rewrite Hc, Hd, (Hr Hc), (Hr' Hd). app_norm.
      intros [= -> Heq]. f_equal. by apply IH.
Qed.

Lemma escapeHtml_plain (s : string) :
  (forall c, c ∈ chars s -> html_special c = false) -> escapeHtml (Some s) = s.
Proof.
  induction s as [|c s IH]; intros Hs; [done|].
  rewrite escapeHtml_cons.
  destruct (escape_html_char_cases c) as [[Hc _]|[_ ->]].
  - rewrite Hs in Hc; [done|]. apply list_elem_of_here.
  - app_norm. f_equal. apply IH. intros d Hd. by apply Hs, list_elem_of_further.
Qed.

Lemma escapeHtml_fixed (s : string) :
  escapeHtml (Some s) = s -> forall c, c ∈ chars s -> html_special c = false.
Proof.
  induction s as [|c s IH]; [by intros _ c ?%elem_of_nil|].
  rewrite escapeHtml_cons.
  destruct (escape_html_char_cases c) as [[Hc (e & He & ->)]|[Hc ->]].
  - app_norm. intros [= _ Heq]. apply (f_equal String.length) in Heq.
    rewrite string_app_length in Heq. pose proof (escapeHtml_length s).
    assert (0 < String.length e)%nat; [|lia].
    unfold ENTITY_TAILS in He.
    repeat (apply elem_of_cons in He as [->|He]); try (by apply elem_of_nil in He);
      cbn; lia.
  - app_norm. intros [= Heq] d [->|Hd]%elem_of_cons; [done|]. by apply IH.
Qed.

Lemma escapeHtml_shows_special (s : string) (c : ascii) :
  c ∈ chars s -> html_special c = true -> "&"%char ∈ chars (escapeHtml (Some s)).
Proof.
  induction s as [|d s IH]; [by intros ?%elem_of_nil|].
  rewrite escapeHtml_cons, chars_app, elem_of_app.
  intros [->|Hc]%elem_of_cons Hs; [left|right; by apply IH].
  destruct (escape_html_char_head d) as (r & -> & _). rewrite Hs.
  apply list_elem_of_here.
Qed.

(** X4. A text comes back unchanged from [escapeHtml] exactly when it
    holds none of the five characters [&], [<], [>], double quote and
    single quote; and escaping an escaped text a second time changes it
    again exactly when the first pass did: [escapeHtml] is not
    idempotent on any text it has to escape. *)
Theorem escapeHtml_unchanged (s : string) :
  ((forall c, c ∈ chars s -> html_special c = false) <-> escapeHtml (Some s) = s)
  /\ (escapeHtml (Some (escapeHtml (Some s))) = escapeHtml (Some s)
      <-> escapeHtml (Some s) = s).
Proof.
  split; [split; [apply escapeHtml_plain|apply escapeHtml_fixed]|].
  split.
  - intros Htwice. apply escapeHtml_plain. intros c Hc.
    destruct (html_special c) eqn:Hs; [|done].
    pose proof (escapeHtml_shows_special s c Hc Hs) as Hamp.
    by apply (escapeHtml_fixed _ Htwice) in Hamp.
  - intros Heq. by rewrite !Heq.
Qed.

(** ** Filters *)

Lemma filter_filter_and {A : Type} (f g : A -> bool) (l : list A) :
  List.filter f (List.filter g l) = List.filter (fun x => g x && f x) l.
Proof.
  induction l as [|x l IH]; [done|]. cbn [List.filter].
  destruct (g x); cbn [List.filter andb]; [destruct (f x)|]; by rewrite IH.
Qed.

Lemma filter_ext_bool {A : Type} (f g : A -> bool) (l : list A) :
  (forall x, f x = g x) -> List.filter f l = List.filter g l.
Proof. intros Hfg. induction l as [|x l IH]; [done|]. cbn. by rewrite Hfg, IH. Qed.

Lemma filter_all {A : Type} (f : A -> bool) (l : list A) :
  (forall x, f x = true) -> List.filter f l = l.
Proof. intros Hf. induction l as [|x l IH]; [done|]. cbn. by rewrite Hf, IH. Qed.

Lemma filter_sublist {A : Type} (f : A -> bool) (l : list A) :
  List.filter f l `sublist_of` l.
Proof.
  induction l as [|x l IH]; [constructor|]. cbn [List.filter].
  destruct (f x); by constructor.
Qed.

Lemma StronglySorted_sublist {A : Type} (R : relation A) (l k : list A) :
  l `sublist_of` k -> StronglySorted R k -> StronglySorted R l.
Proof.
  induction 1 as [|x l k Hlk IH|x l k Hlk IH]; intros Hs; [done| |].
  - apply StronglySorted_inv in Hs as [Hs Hx]. constructor; [by apply IH|].
    rewrite Forall_forall in *. intros y Hy. apply Hx.
    by apply (elem_of_sublist l k).
  - apply StronglySorted_inv in Hs as [Hs _]. by apply IH.
Qed.

(** X5. The two filters are independent of each other: filtering by
    category and region at once is filtering by one and then by the other,
    in either order; filtering twice with the same settings is filtering
    once; and with the category [all] and no region (or an empty one)
    every item is kept. *)
Theorem applyFilters_compose (c : string) (r : option string) (l : list RawItem) :
  applyFilters c r l = applyFilters c None (applyFilters "all" r l)
  /\ applyFilters c r l = applyFilters "all" r (applyFilters c None l)
  /\ applyFilters c r (applyFilters c r l) = applyFilters c r l
  /\ applyFilters "all" None l = l
  /\ applyFilters "all" (Some EmptyString) l = l.
Proof.
  unfold applyFilters. rewrite !filter_filter_and. repeat split.
  - apply filter_ext_bool. intros it. cbn [truthy String.eqb Ascii.eqb Bool.eqb].
    cbn zeta. by rewrite andb_true_r, andb_comm.
  - apply filter_ext_bool. intros it. cbn [truthy String.eqb Ascii.eqb Bool.eqb].
    cbn zeta. by rewrite andb_true_r.
  - apply filter_ext_bool. intros it. cbn zeta. by rewrite andb_diag.
  - by apply filter_all.
  - by apply filter_all.
Qed.

(** X6. An item is kept exactly when it is filed under the chosen category
    (or the category is [all]) and under the chosen region (or none is
    chosen), where an item whose [category] is missing or empty is filed
    under [General] and one whose [region] is missing or empty under
    [World]; the items kept stand in the order they had. *)
Theorem applyFilters_keeps (c : string) (r : option string) (l : list RawItem) :
  (forall it, it ∈ applyFilters c r l <->
     it ∈ l /\ (c = "all" \/ shown_category it = c)
     /\ (truthy r = false \/ r = Some (shown_region it)))
  /\ (forall it, absent (category it) -> shown_category it = "General")
  /\ (forall it, absent (region it) -> shown_region it = "World")
  /\ (forall it s, present (category it) s -> shown_category it = s)
  /\ (forall it s, present (region it) s -> shown_region it = s)
  /\ applyFilters c r l `sublist_of` l.
Proof.
  split; [|split; [|split; [|split; [|split]]]].
  - intros it. unfold applyFilters. split.
    + intros Hin.
      apply list_elem_of_In, filter_In in Hin as [Hin [Hc Hr]%andb_true_iff].
      apply list_elem_of_In in Hin. fold (shown_category it) (shown_region it) in Hc, Hr.
      split; [done|]. split.
      * destruct (String.eqb_spec c "all"); [by left|right].
        by apply String.eqb_eq in Hc.
      * destruct (truthy r) eqn:Ht; [right|by left].
        apply String.eqb_eq in Hr. rewrite Hr. by destruct r.
    + intros (Hin & Hc & Hr).
      apply list_elem_of_In, filter_In. split; [by apply list_elem_of_In|].
      fold (shown_category it) (shown_region it). apply andb_true_iff. split.
      * destruct Hc as [->| <-]; [done|].
        destruct (String.eqb _ "all"); [done|apply String.eqb_refl].
      * destruct Hr as [->| ->]; [done|]. cbn [or_empty].
        destruct (truthy _); [apply String.eqb_refl|done].
  - intros it Ha. unfold shown_category, or_default. by rewrite Ha.
  - intros it Ha. unfold shown_region, or_default. by rewrite Ha.
  - intros it s [Hs Hne]. unfold shown_category, or_default.
    by rewrite Hs, (truthy_Some s Hne).
  - intros it s [Hs Hne]. unfold shown_region, or_default.
    by rewrite Hs, (truthy_Some s Hne).
  - apply filter_sublist.
Qed.

(** ** The conflict resolver as a choice of the best *)

Section Best.
Context `{Platform}.

Lemma chooseBetter_score (a b : RawItem) :
  chooseBetter a b = if score a <? score b then b else a.
Proof.
  unfold chooseBetter, score.
  destruct (Z.eqb_spec (timeOf b) (timeOf a)) as [->|Hne]; cbn [negb].
  - destruct (isAggregator a), (isAggregator b), (paywall a), (paywall b);
      cbn [Bool.eqb negb];
      match goal with
      | |- context [?x <? ?y] => destruct (Z.ltb_spec x y)
      end; try done; lia.
  - destruct (Z.ltb_spec (timeOf a) (timeOf b));
      destruct (isAggregator a), (isAggregator b), (paywall a), (paywall b);
      match goal with
      | |- context [?x <? ?y] => destruct (Z.ltb_spec x y)
      end; try done; lia.
Qed.

Lemma tie_score (a b : RawItem) : tie a b <-> score a = score b.
Proof.
  unfold tie, score. split.
  - by intros (-> & -> & ->).
  - destruct (isAggregator a), (isAggregator b), (paywall a), (paywall b);
      intros Hs; repeat split; try done; lia.
Qed.

Lemma at_least_as_good_score (s it : RawItem) :
  at_least_as_good s it <-> score it <= score s.
Proof.
  unfold at_least_as_good, score.
  destruct (isAggregator it), (isAggregator s), (paywall it), (paywall s);
    split; try lia; intros Hs;
    destruct (Z.lt_trichotomy (timeOf it) (timeOf s)) as [?|[?|?]];
    try lia; try (by left); right; (split; [done|]); naive_solver.
Qed.

Lemma score_chooseBetter (a b : RawItem) :
  score (chooseBetter a b) = Z.max (score a) (score b).
Proof. rewrite chooseBetter_score. destruct (Z.ltb_spec (score a) (score b)); lia. Qed.

(** X7. Resolving conflicts among three items gives the same survivor
    however the pairs are grouped: [chooseBetter] is associative, and an
    item against itself gives the item. So the survivor of a group of
    duplicates is the result of one left-to-right pass whatever the
    earlier comparisons were. *)
Theorem chooseBetter_assoc (a b c : RawItem) :
  chooseBetter (chooseBetter a b) c = chooseBetter a (chooseBetter b c)
  /\ chooseBetter a a = a.
Proof.
  split.
  - rewrite !chooseBetter_score.
    destruct (Z.ltb_spec (score a) (score b)), (Z.ltb_spec (score b) (score c));
      rewrite ?chooseBetter_score;
      repeat match goal with
             | |- context [?x <? ?y] => destruct (Z.ltb_spec x y)
             end; try done; lia.
  - rewrite chooseBetter_score. by rewrite Z.ltb_irrefl.
Qed.

(** X8. The order of the two arguments matters only for a tie: when the
    items differ in time, in being an aggregator or in being paywalled,
    [chooseBetter] returns the same item for both orders; when they tie
    in all three, each order returns its first argument. *)
Theorem chooseBetter_comm (a b : RawItem) :
  (chooseBetter a b = chooseBetter b a <-> a = b \/ ~ tie a b)
  /\ (tie a b -> chooseBetter a b = a /\ chooseBetter b a = b).
Proof.
  rewrite tie_score, !chooseBetter_score. split; [split|].
  - destruct (Z.ltb_spec (score a) (score b)), (Z.ltb_spec (score b) (score a));
      try lia; intros Heq; try (right; lia); by left.
  - intros [->|Hne]; [done|].
    destruct (Z.ltb_spec (score a) (score b)), (Z.ltb_spec (score b) (score a));
      try done; lia.
  - intros ->. by rewrite Z.ltb_irrefl.
Qed.
End Best.

(** ** What de-duplication keeps *)

Section MapMore.
Context {A : Type}.
Implicit Types (m : list (string * A)) (k : string) (v : A).

Lemma Map_set_here k v m : (k, v) ∈ Map_set k v m.
Proof.
  induction m as [|[k' v'] m IH]; cbn [Map_set]; [apply list_elem_of_here|].
  destruct (decide (k' = k)); [apply list_elem_of_here|by apply list_elem_of_further].
Qed.

Lemma Map_set_other k v m k' v' : k' <> k -> (k', v') ∈ m -> (k', v') ∈ Map_set k v m.
Proof.
  intros Hne. induction m as [|[k0 v0] m IH]; cbn [Map_set]; [by intros ?%elem_of_nil|].
  intros [[= <- <-]|Hin]%elem_of_cons.
  - rewrite decide_False by done. apply list_elem_of_here.
  - destruct (decide (k0 = k)); apply list_elem_of_further; auto.
Qed.

Lemma Map_get_unique k v v' m :
  NoDup m.*1 -> Map_get k m = Some v -> (k, v') ∈ m -> v' = v.
Proof.
  induction m as [|[k0 v0] m IH]; cbn [Map_get fmap list_fmap fst]; [done|].
  intros [Hk0 Hnd]%NoDup_cons. destruct (decide (k0 = k)) as [->|Hne].
  - intros [= ->] [[= ->]|Hin]%elem_of_cons; [done|].
    destruct Hk0. apply list_elem_of_fmap. by exists (k, v').
  - intros Hg [[= <- _]|Hin]%elem_of_cons; [done|]. by apply IH.
Qed.
End MapMore.

Lemma NoDup_fmap_eq {A B : Type} (f : A -> B) (l : list A) (x y : A) :
  NoDup (f <$> l) -> x ∈ l -> y ∈ l -> f x = f y -> x = y.
Proof.
  induction l as [|z l IH]; [by intros _ ?%elem_of_nil|].
  cbn [fmap list_fmap]. intros [Hz Hnd]%NoDup_cons.
  intros [->|Hx]%elem_of_cons [->|Hy]%elem_of_cons Heq; [done| | |by apply IH].
  - destruct Hz. rewrite Heq. by apply list_elem_of_fmap_2.
  - destruct Hz. rewrite <- Heq. by apply list_elem_of_fmap_2.
Qed.

Section Survivors.
Context `{Platform}.

Lemma dedupe_step_NoDup m it : NoDup m.*1 -> NoDup (dedupe_step m it).*1.
Proof.
  intros Hnd. rewrite dedupe_step_keys. destruct (decide _) as [Hin|Hin]; [done|].
  apply NoDup_app. split; [done|]. split; [|apply NoDup_singleton].
  intros k Hk ->%list_elem_of_singleton. done.
Qed.

(** The loop keeps, for every item it has read, an entry under the key of
    the item that is at least as good. *)
Lemma dedupe_step_best m it (seen : list RawItem) :
  NoDup m.*1 ->
  (forall x, x ∈ seen -> exists s, (dedupeKey x, s) ∈ m /\ score x <= score s) ->
  forall x, x ∈ it :: seen ->
    exists s, (dedupeKey x, s) ∈ dedupe_step m it /\ score x <= score s.
Proof.
  intros Hnd Hseen x Hx. unfold dedupe_step.
  destruct (Map_get (dedupeKey it) m) as [prev|] eqn:Hg.
  - pose proof (score_chooseBetter prev it) as Hmax.
    destruct (decide (dedupeKey x = dedupeKey it)) as [Hk|Hk].
    + exists (chooseBetter prev it). rewrite Hk. split; [apply Map_set_here|].
      apply elem_of_cons in Hx as [->|Hx]; [lia|].
      destruct (Hseen x Hx) as (s & Hs & Hle). rewrite Hk in Hs.
      rewrite (Map_get_unique _ _ _ _ Hnd Hg Hs) in Hle. lia.
    + apply elem_of_cons in Hx as [->|Hx]; [done|].
      destruct (Hseen x Hx) as (s & Hs & Hle). exists s. split; [|done].
      by apply Map_set_other.
  - rewrite Map_set_fresh by done.
    apply elem_of_cons in Hx as [->|Hx].
    + exists it. split; [|lia]. apply elem_of_app. right. apply list_elem_of_here.
    + destruct (Hseen x Hx) as (s & Hs & Hle). exists s. split; [|done].
      apply elem_of_app. by left.
Qed.

Lemma dedupe_loop_best l m (seen : list RawItem) :
  NoDup m.*1 ->
  (forall x, x ∈ seen -> exists s, (dedupeKey x, s) ∈ m /\ score x <= score s) ->
  forall x, x ∈ (rev l ++ seen)%list ->
    exists s, (dedupeKey x, s) ∈ foldl dedupe_step m l /\ score x <= score s.
Proof.
  revert m seen. induction l as [|it l IH]; intros m seen Hnd Hseen; [done|].
  cbn [foldl rev]. rewrite <- app_assoc. cbn [app].
  apply IH; [by apply dedupe_step_NoDup|]. by apply dedupe_step_best.
Qed.

Lemma dedupeItems_best (l : list RawItem) (it : RawItem) :
  it ∈ l ->
  exists s, s ∈ dedupeItems l /\ dedupeKey s = dedupeKey it /\ score it <= score s.
Proof.
  intros Hin.
  destruct (dedupe_loop_best l [] [] (NoDup_nil_2) ltac:(by intros ? ?%elem_of_nil) it)
    as (s & Hs & Hle).
  { rewrite app_nil_r. by apply list_elem_of_In, in_rev, list_elem_of_In in Hin. }
  exists s. split; [|split; [|done]].
  - unfold dedupeItems, Map_values. apply list_elem_of_fmap. by exists (dedupeKey it, s).
  - apply (dedupe_loop_keyed l []); [intros ?? []%elem_of_nil|done].
Qed.

Lemma dedupeItems_NoDup_keys (l : list RawItem) : NoDup (dedupeKey <$> dedupeItems l).
Proof. rewrite dedupeItems_keys. apply first_seen_NoDup. Qed.

(** X9. De-duplication keeps, for every item of the input, one survivor
    with the key of the item; the survivor is an item of the input and is
    at least as good as the item: it is later, or as late and not an
    aggregator where the item is one, or equal in both and not paywalled
    where the item is.  No item is dropped in favour of a worse one. *)
Theorem dedupeItems_keeps_best (l : list RawItem) (it : RawItem) :
  it ∈ l ->
  exists s, s ∈ dedupeItems l /\ s ∈ l /\ dedupeKey s = dedupeKey it
    /\ at_least_as_good s it
    /\ forall s', s' ∈ dedupeItems l -> dedupeKey s' = dedupeKey it -> s' = s.
Proof.
  intros Hin. destruct (dedupeItems_best l it Hin) as (s & Hs & Hk & Hle).
  exists s. split; [done|]. split; [by apply dedupeItems_from|]. split; [done|].
  split; [by apply at_least_as_good_score|].
  intros s' Hs' Hk'. apply (NoDup_fmap_eq dedupeKey (dedupeItems l)); try done.
  - apply dedupeItems_NoDup_keys.
  - congruence.
Qed.

Lemma dedupe_loop_distinct (l : list RawItem) (m : list (string * RawItem)) :
  NoDup (m.*1 ++ (dedupeKey <$> l)) ->
  foldl dedupe_step m l = (m ++ ((fun it => (dedupeKey it, it)) <$> l))%list.
Proof.
  revert m. induction l as [|it l IH]; intros m Hnd; [by rewrite app_nil_r|].
  cbn [foldl fmap list_fmap]. cbn [fmap list_fmap] in Hnd.
  assert (Hfree : Map_get (dedupeKey it) m = None).
  { apply Map_get_None. intros Hin.
    apply NoDup_app in Hnd as (_ & Hnd & _). apply (Hnd _ Hin), list_elem_of_here. }
  unfold dedupe_step at 2. rewrite Hfree, Map_set_fresh by done.
  rewrite IH; [by rewrite <- app_assoc|].
  rewrite fmap_app, <- app_assoc. done.
Qed.

(** X10. A list in which no two items have the same key comes back from
    de-duplication as it is, and de-duplicating a second time changes
    nothing. *)
Theorem dedupeItems_idempotent (l : list RawItem) :
  (NoDup (dedupeKey <$> l) -> dedupeItems l = l)
  /\ dedupeItems (dedupeItems l) = dedupeItems l
  /\ (length (dedupeItems l) <= length l)%nat.
Proof.
  assert (Hdistinct : forall k, NoDup (dedupeKey <$> k) -> dedupeItems k = k).
  { intros k Hnd. unfold dedupeItems, Map_values.
    rewrite dedupe_loop_distinct by done. cbn [app].
    rewrite <- list_fmap_compose. apply list_fmap_id. }
  split; [apply Hdistinct|]. split; [apply Hdistinct, dedupeItems_NoDup_keys|].
  rewrite <- (length_fmap dedupeKey (dedupeItems l)), dedupeItems_keys.
  rewrite <- (length_fmap dedupeKey l).
  induction (dedupeKey <$> l) as [|k ks IH]; [done|]. cbn [first_seen length].
  pose proof (length_filter (fun y => y <> k) (first_seen ks)). lia.
Qed.

Lemma dedupeItems_perm_elem (l l' : list RawItem) (x : RawItem) :
  l' ≡ₚ l -> tie_free l -> x ∈ dedupeItems l' -> x ∈ dedupeItems l.
Proof.
  intros Hperm Hfree Hx.
  assert (Hxl : x ∈ l) by (rewrite <- Hperm; by apply dedupeItems_from).
  destruct (dedupeItems_best l x Hxl) as (s & Hs & Hk & Hle).
  assert (Hsl : s ∈ l') by (rewrite Hperm; by apply dedupeItems_from).
  destruct (dedupeItems_best l' s Hsl) as (s' & Hs' & Hk' & Hle').
  assert (s' = x) as ->.
  { apply (NoDup_fmap_eq dedupeKey (dedupeItems l')); try done.
    - apply dedupeItems_NoDup_keys.
    - congruence. }
  assert (s = x) as ->; [|done].
  apply Hfree; [by apply dedupeItems_from|done|done|]. apply tie_score. lia.
Qed.

Lemma dedupeItems_perm (l l' : list RawItem) :
  l' ≡ₚ l -> tie_free l -> dedupeItems l' ≡ₚ dedupeItems l.
Proof.
  intros Hperm Hfree.
  assert (Hfree' : tie_free l').
  { intros a b Ha Hb. rewrite Hperm in Ha, Hb. by apply Hfree. }
  apply NoDup_Permutation.
  - apply (NoDup_fmap_1 dedupeKey), dedupeItems_NoDup_keys.
  - apply (NoDup_fmap_1 dedupeKey), dedupeItems_NoDup_keys.
  - intros x. split; by apply dedupeItems_perm_elem.
Qed.

(** X11. When no two different items with the same key tie in time,
    aggregator status and paywall status, the survivors do not depend on
    the order of the input: every permutation of the input gives the same
    survivors, each once. *)
Theorem dedupeItems_order_independent (l l' : list RawItem) :
  l' ≡ₚ l -> tie_free l ->
  dedupeItems l' ≡ₚ dedupeItems l
  /\ forall x, x ∈ dedupeItems l' <-> x ∈ dedupeItems l.
Proof.
  intros Hperm Hfree. split; [by apply dedupeItems_perm|].
  intros x. by rewrite (dedupeItems_perm l l' Hperm Hfree).
Qed.
Lemma Map_set_elem_strong {A : Type} (k : string) (v : A) (m : list (string * A))
    (k' : string) (v' : A) :
  NoDup m.*1 -> (k', v') ∈ Map_set k v m ->
  k' = k /\ v' = v \/ k' <> k /\ (k', v') ∈ m.
Proof.
  induction m as [|[k0 v0] m IH]; cbn [Map_set fmap list_fmap fst].
  - intros _ [= -> ->]%list_elem_of_singleton. by left.
  - intros [Hk0 Hnd]%NoDup_cons. destruct (decide (k0 = k)) as [->|Hne].
    + intros [[= -> ->]|Hin]%elem_of_cons; [by left|].
      right. split; [|by apply list_elem_of_further].
      intros ->. apply Hk0, list_elem_of_fmap. by exists (k, v').
    + intros [[= -> ->]|Hin]%elem_of_cons.
      * right. split; [done|apply list_elem_of_here].
      * destruct (IH Hnd Hin) as [?|[? ?]]; [by left|].
        right. split; [done|by apply list_elem_of_further].
Qed.

Lemma dedupe_map_keys (l : list RawItem) :
  (foldl dedupe_step [] l).*1 = first_seen (dedupeKey <$> l).
Proof.
  rewrite <- dedupeItems_keys. unfold dedupeItems, Map_values. symmetry.
  apply keyed_values, dedupe_loop_keyed. intros ?? []%elem_of_nil.
Qed.

(** Every entry of the map is the first of the best items of its key. *)
Lemma dedupe_loop_first (l : list RawItem) (k : string) (s : RawItem) :
  (k, s) ∈ foldl dedupe_step [] l ->
  exists l1 l2, l = (l1 ++ s :: l2)%list
    /\ (forall x, x ∈ l1 -> dedupeKey x = k -> score x < score s)
    /\ (forall x, x ∈ l2 -> dedupeKey x = k -> score x <= score s).
Proof.
  revert k s. induction l as [|y l IH] using rev_ind; intros k s; [by intros ?%elem_of_nil|].
  rewrite foldl_app. cbn [foldl].
  set (m := foldl dedupe_step [] l) in *.
  assert (Hnd : NoDup m.*1) by (unfold m; rewrite dedupe_map_keys; apply first_seen_NoDup).
  assert (Hold : forall k' s', (k', s') ∈ m -> k' <> dedupeKey y ->
            exists l1 l2, (l ++ [y])%list = (l1 ++ s' :: l2)%list
              /\ (forall x, x ∈ l1 -> dedupeKey x = k' -> score x < score s')
              /\ (forall x, x ∈ l2 -> dedupeKey x = k' -> score x <= score s')).
  { intros k' s' Hin Hne. destruct (IH k' s' Hin) as (l1 & l2 & -> & H1 & H2).
    exists l1, (l2 ++ [y])%list. split; [by rewrite <- app_assoc|]. split; [done|].
    intros x [Hx| ->%list_elem_of_singleton]%elem_of_app; [by apply H2|done]. }
  unfold dedupe_step. destruct (Map_get (dedupeKey y) m) as [prev|] eqn:Hg.
  - intros [[-> ->]|[Hne Hin]]%Map_set_elem_strong; [|by apply Hold|done].
    destruct (IH _ _ (Map_get_elem _ _ _ Hg)) as (l1 & l2 & Hl & H1 & H2).
    rewrite chooseBetter_score. destruct (Z.ltb_spec (score prev) (score y)).
    + exists l, []. split; [done|]. split; [|by intros x ?%elem_of_nil].
      intros x Hx Hk. rewrite Hl in Hx.
      apply elem_of_app in Hx as [Hx|[->|Hx]%elem_of_cons].
      * specialize (H1 x Hx Hk). lia.
      * done.
      * specialize (H2 x Hx Hk). lia.
    + exists l1, (l2 ++ [y])%list. split; [by rewrite Hl, <- app_assoc|]. split; [done|].
      intros x [Hx| ->%list_elem_of_singleton]%elem_of_app Hk; [by apply H2|lia].
  - rewrite Map_set_fresh by done.
    intros [Hin|[= -> ->]%list_elem_of_singleton]%elem_of_app.
    + apply Hold; [done|]. intros ->. apply Map_get_None in Hg.
      apply Hg, list_elem_of_fmap. by exists (dedupeKey y, s).
    + exists l, []. split; [done|]. split; [|by intros x ?%elem_of_nil].
      intros x Hx Hk. apply Map_get_None in Hg. destruct Hg.
      unfold m. rewrite dedupe_map_keys. apply first_seen_elem.
      rewrite <- Hk. by apply list_elem_of_fmap_2.
Qed.

(** X12. Which duplicate survives.  Every survivor stands in the input
    after items of its key that are strictly worse than it only, and
    before items of its key that are no better: it is the first of the
    best items of its key, so among items that tie the one that stands
    first in the feed is kept. *)
Theorem dedupeItems_first_of_best (l : list RawItem) (s : RawItem) :
  s ∈ dedupeItems l ->
  exists l1 l2, l = (l1 ++ s :: l2)%list
    /\ (forall x, x ∈ l1 -> dedupeKey x = dedupeKey s ->
          at_least_as_good s x /\ ~ tie x s)
    /\ (forall x, x ∈ l2 -> dedupeKey x = dedupeKey s -> at_least_as_good s x).
Proof.
  unfold dedupeItems, Map_values. intros ([k s0] & -> & Hin)%list_elem_of_fmap. cbn [snd].
  assert (Hk : dedupeKey s0 = k).
  { apply (dedupe_loop_keyed l []); [intros ?? []%elem_of_nil|done]. }
  destruct (dedupe_loop_first l k s0 Hin) as (l1 & l2 & Hl & H1 & H2).
  exists l1, l2. split; [done|]. rewrite Hk. split.
  - intros x Hx Hkx. specialize (H1 x Hx Hkx).
    rewrite at_least_as_good_score, tie_score. lia.
  - intros x Hx Hkx. specialize (H2 x Hx Hkx). by apply at_least_as_good_score.
Qed.
End Survivors.

(** ** What an assign pass does to the items *)

Section Numbers.
Context `{Platform}.
Implicit Types (s : SeqState) (id k : string).

Lemma assignStableSeq_items (its : list RawItem) (store : Storage) :
  (assignStableSeq its store).1 =
    (fun it =>
       set_seq (map (foldl see_key (loadSeqState store) (getItemId <$> its)) !! getItemId it) it)
      <$> its.
Proof. rewrite assignStableSeq_eq. cbn zeta. cbn [fst]. apply assign_loop_items. Qed.

(** X13. An assign pass attaches [__seq] to the items and does nothing
    else to them: the list it returns has the items of the input in their
    order, each with its other properties as they were; and it leaves no
    item without a number: every [__seq] is set and is not [null].  This
    holds whatever the storage holds. *)
Theorem assignStableSeq_only_seq (its : list RawItem) (store : Storage) :
  let out := (assignStableSeq its store).1 in
  set_seq None <$> out = set_seq None <$> its
  /\ length out = length its
  /\ (forall (i : nat) x, out !! i = Some x ->
        exists it, its !! i = Some it /\ x = set_seq (__seq x) it)
  /\ (forall x, x ∈ out -> exists v, __seq x = Some v /\ v <> JNull).
Proof.
  cbn zeta. rewrite assignStableSeq_items. split; [|split; [|split]].
  - rewrite <- list_fmap_compose. by apply list_fmap_ext.
  - by rewrite length_fmap.
  - intros i x (it & -> & Hit)%list_lookup_fmap_Some. by exists it.
  - intros x (it & -> & Hit)%list_elem_of_fmap. cbn [__seq set_seq].
    apply unseen_false, loop_seen, list_elem_of_fmap. by exists it.
Qed.

(** X14. Duplicates share one slot: in the list an assign pass returns,
    two items with the same key carry the same [__seq], the value the
    record holds for the key when the pass ends; and a key the stored
    record had a value for keeps that value. *)
Theorem assignStableSeq_same_key (its : list RawItem) (store : Storage) :
  let out := (assignStableSeq its store).1 in
  let s' := (assign_loop (loadSeqState store) false its).1.2 in
  (forall x, x ∈ out -> __seq x = map s' !! dedupeKey x)
  /\ (forall x y, x ∈ out -> y ∈ out -> dedupeKey x = dedupeKey y -> __seq x = __seq y)
  /\ (forall x v, x ∈ out -> map (loadSeqState store) !! dedupeKey x = Some v ->
        v <> JNull -> __seq x = Some v).
Proof.
  cbn zeta. rewrite assignStableSeq_items, assign_loop_state.
  assert (Hseq : forall x,
            x ∈ (fun it =>
                   set_seq (map (foldl see_key (loadSeqState store) (getItemId <$> its))
                              !! getItemId it) it) <$> its ->
            __seq x = map (foldl see_key (loadSeqState store) (getItemId <$> its))
                        !! dedupeKey x).
  { by intros x (it & -> & Hit)%list_elem_of_fmap. }
  split; [done|]. split.
  - intros x y Hx Hy Hk. by rewrite (Hseq x Hx), (Hseq y Hy), Hk.
  - intros x v Hx Hv Hnn. rewrite (Hseq x Hx). by apply loop_keeps.
Qed.

Lemma new_keys_fresh (ids : list string) : NoDup ids -> new_keys fresh ids = ids.
Proof.
  intros Hnd. unfold new_keys.
  assert (filter (fun k => unseen fresh k = true) ids = ids) as ->;
    [|by apply first_seen_id].
  clear Hnd. induction ids as [|id ids IH]; [done|].
  rewrite filter_cons_True; [by rewrite IH|].
  unfold unseen, fresh. cbn [map]. by rewrite lookup_empty.
Qed.

Lemma assign_fresh (its : list RawItem) (store : Storage) :
  loadSeqState store = fresh -> NoDup (dedupeKey <$> its) ->
  Z.of_nat (length its) <= 2 ^ 53 ->
  (assignStableSeq its store).1 =
    imap (fun i it => set_seq (Some (JNum (Num (Z.of_nat i + 1)))) it) its.
Proof.
  intros Hfresh Hnd Hlen. rewrite assignStableSeq_items, Hfresh.
  apply list_eq. intros i. rewrite list_lookup_fmap, list_lookup_imap.
  destruct (its !! i) as [it|] eqn:Hi; [|done].
  cbn [fmap option_fmap option_map mbind option_bind].
  f_equal. f_equal.
  change (getItemId <$> its) with (dedupeKey <$> its).
  destruct (loop_consecutive (dedupeKey <$> its) fresh 0 eq_refl) as [_ Hnum].
  { rewrite (new_keys_fresh _ Hnd), length_fmap. split; lia. }
  rewrite (Hnum i (dedupeKey it)); [do 3 f_equal; lia|].
  by rewrite (new_keys_fresh _ Hnd), list_lookup_fmap, Hi.
Qed.

(** X15. Without usable storage the numbers start again: when nothing can
    be loaded (access is refused, or nothing is stored) a pass over items
    with different keys numbers them 1, 2, 3, ... in their order (the
    items of an array, which are fewer than 2^53); and storage that
    refuses the write is left as it was, the pass returning its items all
    the same. *)
Theorem assignStableSeq_first_run (its : list RawItem) (store : Storage) :
  (loadSeqState store = fresh -> NoDup (dedupeKey <$> its) ->
   Z.of_nat (length its) <= 2 ^ 53 ->
   (assignStableSeq its store).1 =
     imap (fun i it => set_seq (Some (JNum (Num (Z.of_nat i + 1)))) it) its)
  /\ (denied store = true \/ cell store = None -> loadSeqState store = fresh)
  /\ (denied store = true \/ full store = true -> (assignStableSeq its store).2 = store).
Proof.
  split; [apply assign_fresh|split].
  - intros [Hd|Hc]; unfold loadSeqState, getItem; [by rewrite Hd|].
    rewrite Hc. by destruct (denied store).
  - intros Hrefuse. rewrite assignStableSeq_eq. cbn zeta. cbn [snd].
    destruct (assign_loop _ false its).2; [|done].
    unfold saveSeqState, setItem.
    by destruct Hrefuse as [-> | ->]; [|rewrite orb_true_r].
Qed.

(** X16. New keys are numbered without gaps.  In a pass over a record
    whose counter is an integer with room for the new keys (not below
    -2^53 and, with one added for every new key, not above 2^53) the keys
    the record has no number for get the numbers counter + 1, counter +
    2, ... in the order in which they first occur; the counter ends at
    its old value plus the number of such keys; and every other key keeps
    what the record held for it. *)
Theorem assign_numbers_consecutive (s : SeqState) (its : list RawItem) (c : Z) :
  counter s = Num c ->
  exact_from c (length (new_keys s (dedupeKey <$> its))) ->
  let s' := (assign_loop s false its).1.2 in
  let new := new_keys s (dedupeKey <$> its) in
  counter s' = Num (c + Z.of_nat (length new))
  /\ (forall (i : nat) k, new !! i = Some k ->
        map s' !! k = Some (JNum (Num (c + 1 + Z.of_nat i))))
  /\ (forall k, k ∉ new -> map s' !! k = map s !! k).
Proof.
  intros Hc Hroom. cbn zeta. rewrite assign_loop_state.
  change (getItemId <$> its) with (dedupeKey <$> its).
  destruct (loop_consecutive (dedupeKey <$> its) s c Hc Hroom) as [Hcnt Hnum].
  split; [done|]. split; [done|].
  intros k Hk. destruct (decide (k ∈ (dedupeKey <$> its))) as [Hin|Hin];
    [|by apply loop_other].
  destruct (unseen s k) eqn:Hu.
  - destruct Hk. by apply new_keys_elem.
  - apply unseen_false in Hu as (v & Hv & Hnn). rewrite Hv. by apply loop_keeps.
Qed.
End Numbers.

(** ** What [normalize] returns *)

Section Normalize.
Context `{Platform}.

Local Abbreviation cmp_value := (fun a b : RawItem => default NaN (by_seq_then_time a b)).

Lemma normalize_items (its : list RawItem) (g : option string) (store : Storage) :
  (normalize (Some {| items := Some its; generated_utc := g |}) store).1 =
    (fun out => {| items := Some out; generated_utc := g |})
      <$> sort_or_throw by_seq_then_time (assignStableSeq (dedupeItems its) store).1.
Proof.
  rewrite normalize_eq, assignStableSeq_eq. cbn zeta. cbn [fst].
  by destruct (sort_or_throw _ _).
Qed.

(** The sequence value of an item throws in the comparator exactly when
    it is a value without a primitive. *)
Lemma seq_throws_set_seq (v : jsval) (it : RawItem) :
  seq_throws (set_seq (Some v) it) = no_primitive v.
Proof.
  unfold seq_throws. cbn [__seq set_seq or_zero].
  destruct (js_truthy v) eqn:Hv; [done|]. by destruct v as [| |[]| | |].
Qed.

(** A value without a primitive that an item leaves the pass with was in
    the stored record: the pass itself writes numbers. *)
Lemma assigned_throws (s : SeqState) (its : list RawItem) :
  (exists x, x ∈ (assign_loop s false its).1.1 /\ seq_throws x = true) <->
  (exists it v, it ∈ its /\ map s !! dedupeKey it = Some v /\ no_primitive v = true).
Proof.
  rewrite assign_loop_items. split.
  - intros (x & (it & -> & Hit)%list_elem_of_fmap & Hx).
    assert (Hseen : unseen (foldl see_key s (getItemId <$> its)) (getItemId it) = false).
    { apply loop_seen, list_elem_of_fmap. by exists it. }
    apply unseen_false in Hseen as (v & Hv & Hnn).
    rewrite Hv, seq_throws_set_seq in Hx.
    exists it, v. split; [done|]. split; [|done].
    destruct (unseen s (getItemId it)) eqn:Hu.
    + exfalso. clear Hit. revert s Hv Hu.
      induction (getItemId <$> its) as [|id ids IH]; intros s Hv Hu.
      * unfold unseen in Hu. cbn [foldl] in Hv. unfold getItemId in *.
        rewrite Hv in Hu. by destruct v.
      * cbn [foldl] in Hv. destruct (decide (getItemId it = id)) as [<-|Hne].
        -- unfold see_key in Hv. rewrite Hu in Hv.
           rewrite (loop_keeps ids _ (getItemId it) (JNum (num_add (counter s) (Num 1))))
             in Hv; [by injection Hv as <-| |by destruct (num_add _ _)].
           cbn [map]. by rewrite lookup_insert_eq.
        -- apply (IH (see_key s id)); [done|]. by rewrite unseen_other.
    + apply unseen_false in Hu as (v' & Hv' & Hnn').
      rewrite (loop_keeps _ s _ _ Hv' Hnn') in Hv. by injection Hv as <-.
  - intros (it & v & Hit & Hv & Hthrow).
    assert (Hnn : v <> JNull) by (by intros ->).
    exists (set_seq (Some v) it). split; [|by rewrite seq_throws_set_seq].
    apply list_elem_of_fmap. exists it. split; [|done].
    f_equal. symmetry. by apply loop_keeps.
Qed.

(** X17. [normalize] neither loses nor invents a story.  For a feed whose
    [items] is an array it throws exactly when at least two stories
    survive and the stored record holds, for the key of one of them, a
    value whose conversion to a number throws (the comparator of the
    sort subtracts the sequence values); otherwise it returns a feed with
    the [generated_utc] of the input and exactly one item for every
    distinct key of the input, each an item of the input with [__seq]
    attached and nothing else changed.  For a missing feed, or one whose
    [items] is not an array, it returns the empty list and leaves the
    storage as it is. *)
Theorem normalize_keeps_stories (its : list RawItem) (g : option string) (store : Storage) :
  let feed := Some {| items := Some its; generated_utc := g |} in
  (forall f, (normalize feed store).1 = Some f ->
     generated_utc f = g
     /\ exists out, items f = Some out
          /\ dedupeKey <$> out ≡ₚ first_seen (dedupeKey <$> its)
          /\ NoDup (dedupeKey <$> out)
          /\ (forall k, k ∈ (dedupeKey <$> out) <-> k ∈ (dedupeKey <$> its))
          /\ (forall x, x ∈ out -> exists it, it ∈ its /\ x = set_seq (__seq x) it))
  /\ ((normalize feed store).1 = None <->
      (1 < length (dedupeItems its))%nat
      /\ exists it v, it ∈ its /\ map (loadSeqState store) !! dedupeKey it = Some v
           /\ no_primitive v = true)
  /\ normalize None store = (Some {| items := Some []; generated_utc := None |}, store)
  /\ normalize (Some {| items := None; generated_utc := g |}) store
     = (Some {| items := Some []; generated_utc := None |}, store).
Proof.
  cbn zeta. rewrite normalize_items. split; [|split; [|done]].
  - intros f Hf.
    destruct (sort_or_throw _ _) as [out|] eqn:Hsort; [|done].
    injection Hf as <-. cbn [items generated_utc]. split; [done|].
    exists out. split; [done|].
    pose proof (sort_or_throw_perm _ _ _ Hsort) as Hperm.
    assert (Hkeys : dedupeKey <$> out ≡ₚ first_seen (dedupeKey <$> its)).
    { rewrite Hperm, assignStableSeq_items, <- list_fmap_compose.
      rewrite <- dedupeItems_keys. by erewrite list_fmap_ext. }
    split; [done|]. split; [|split].
    + rewrite Hkeys. apply first_seen_NoDup.
    + intros k. rewrite Hkeys. apply first_seen_elem.
    + intros x Hx. rewrite Hperm, assignStableSeq_items in Hx.
      apply list_elem_of_fmap in Hx as (it & -> & Hit).
      exists it. split; [by apply dedupeItems_from|done].
  - rewrite assignStableSeq_eq. cbn zeta. cbn [fst].
    destruct (sort_or_throw _ _) as [out|] eqn:Hsort.
    + split; [done|]. intros [Hlen Hthrow]. exfalso.
      assert (Hnone : sort_or_throw by_seq_then_time
                (assign_loop (loadSeqState store) false (dedupeItems its)).1.1 = None);
        [|congruence].
      apply (sort_or_throw_None _ seq_throws by_seq_then_time_None). split.
      * by rewrite assign_loop_items, length_fmap.
      * apply assigned_throws. destruct Hthrow as (it & v & Hit & Hv & Hb).
        assert (Hk : dedupeKey it ∈ (dedupeKey <$> dedupeItems its)).
        { rewrite dedupeItems_keys. apply first_seen_elem, list_elem_of_fmap. by exists it. }
        apply list_elem_of_fmap in Hk as (it' & Hk & Hit').
        exists it', v. rewrite <- Hk. done.
    + split; [|done]. intros _.
      apply (sort_or_throw_None _ seq_throws by_seq_then_time_None) in Hsort
        as [Hlen Hthrow].
      split; [by rewrite assign_loop_items, length_fmap in Hlen|].
      apply assigned_throws in Hthrow as (it & v & Hit & Hv & Hb).
      exists it, v. split; [by apply dedupeItems_from|done].
Qed.

(** X18. Cards do not move between refreshes: when the same feed is
    normalized a second time over the storage the first time left, the
    result is the same list in the same order and the storage is not
    written again.  This holds whether or not the storage took the write
    of the first time, for a stored record whose counter is an integer
    and whose map is a plain object, and a platform that reads back what
    it writes. *)
Theorem normalize_stable (its : list RawItem) (g : option string) (store : Storage) (c : Z) :
  counter (loadSeqState store) = Num c ->
  indexed (loadSeqState store) = None ->
  reads_back
    (state_json (assign_loop (loadSeqState store) false (dedupeItems its)).1.2) ->
  let feed := Some {| items := Some its; generated_utc := g |} in
  normalize feed (normalize feed store).2 = normalize feed store.
Proof.
  intros Hc Hplain Hrb feed. subst feed. unfold normalize.
  pose proof (assign_twice (dedupeItems its) store c Hc Hplain Hrb) as Htwice.
  destruct (assignStableSeq (dedupeItems its) store) as [out store'] eqn:Hpass.
  cbn [snd] in Htwice.
  destruct (sort_or_throw by_seq_then_time out) as [sorted|] eqn:Hs; cbn [snd];
    rewrite Htwice; by rewrite Hs.
Qed.

Lemma assign_seen (its : list RawItem) (store : Storage) :
  (forall it, it ∈ its -> unseen (loadSeqState store) (dedupeKey it) = false) ->
  assignStableSeq its store =
    ((fun it => set_seq (map (loadSeqState store) !! dedupeKey it) it) <$> its, store).
Proof.
  intros Hseen. rewrite assignStableSeq_eq. cbn zeta.
  rewrite (assign_loop_eq _ false its). cbn [fst snd orb].
  rewrite (proj2 (existsb_unseen_false _ its) Hseen).
  rewrite loop_id; [done|].
  intros id (it & -> & Hin)%list_elem_of_fmap. by apply Hseen.
Qed.

(** X19. Once the record, which satisfies the invariant, has a number for
    every key of the feed, the order in which the feed lists its items
    does not matter: when no two different items with the same key tie,
    every permutation of the feed is normalized to the same list in the
    same order, and the storage is left as it is. *)
Theorem normalize_feed_order (its its' : list RawItem) (g : option string)
    (store : Storage) :
  seq_invariant (loadSeqState store) ->
  (forall it, it ∈ its -> unseen (loadSeqState store) (dedupeKey it) = false) ->
  its' ≡ₚ its -> tie_free its ->
  normalize (Some {| items := Some its'; generated_utc := g |}) store
  = normalize (Some {| items := Some its; generated_utc := g |}) store
  /\ (normalize (Some {| items := Some its; generated_utc := g |}) store).2 = store.
Proof.
  intros Hinv Hseen Hperm Hfree.
  set (s := loadSeqState store) in *.
  set (f := fun it => set_seq (map s !! dedupeKey it) it).
  assert (Hpass : forall l, l ≡ₚ its ->
            assignStableSeq (dedupeItems l) store = (f <$> dedupeItems l, store)).
  { intros l Hl. apply assign_seen. intros it Hit. apply Hseen.
    rewrite <- Hl. by apply dedupeItems_from. }
  assert (Hnum : forall x, x ∈ f <$> dedupeItems its ->
            exists x0 z, x = f x0 /\ x0 ∈ dedupeItems its
              /\ map s !! dedupeKey x0 = Some (JNum (Num z)) /\ seq_number x = Some z).
  { intros x (x0 & -> & Hx0)%list_elem_of_fmap.
    pose proof (Hseen x0 (dedupeItems_from _ _ Hx0)) as Hs.
    apply unseen_false in Hs as (v & Hv & _).
    destruct Hinv as (c & _ & Hle & _). destruct (Hle _ _ Hv) as (z & -> & _).
    exists x0, z. repeat split; try done.
    apply seq_number_Some. unfold f. cbn [__seq set_seq]. done. }
  assert (Hall : forall l, l ≡ₚ f <$> dedupeItems its ->
            Forall (fun it => is_Some (seq_number it)) l).
  { intros l Hl. apply Forall_forall. intros x Hx. rewrite Hl in Hx.
    destruct (Hnum x Hx) as (x0 & z & _ & _ & _ & Hz). by exists z. }
  assert (Hperm' : f <$> dedupeItems its' ≡ₚ f <$> dedupeItems its).
  { apply fmap_Permutation. by apply dedupeItems_perm. }
  unfold normalize. rewrite (Hpass its' Hperm), (Hpass its (reflexivity _)).
  rewrite !sort_integer by (by apply Hall).
  split; [|done]. do 4 f_equal.
  apply StronglySorted_unique_strong with (R := ranks_before).
  - intros x y Hx Hy (za & zb & Ha & Hb & Hab) (zb' & za' & Hb' & Ha' & Hba).
    rewrite Ha in Ha'. rewrite Hb in Hb'. injection Ha' as <-. injection Hb' as <-.
    assert (za = zb) as -> by lia.
    rewrite sort_by_perm, Hperm' in Hx. rewrite sort_by_perm in Hy.
    destruct (Hnum x Hx) as (x0 & zx & -> & Hx0 & Hmx & Hzx).
    destruct (Hnum y Hy) as (y0 & zy & -> & Hy0 & Hmy & Hzy).
    rewrite Ha in Hzx. rewrite Hb in Hzy. injection Hzx as <-. injection Hzy as <-.
    f_equal. apply (NoDup_fmap_eq dedupeKey (dedupeItems its)); try done.
    + apply dedupeItems_NoDup_keys.
    + destruct Hinv as (c & _ & _ & Hinj). by apply (Hinj _ _ (JNum (Num zb))).
  - by apply sort_by_seq_then_time, Hall.
  - by apply sort_by_seq_then_time, Hall.
  - by rewrite !sort_by_perm.
Qed.

(** X20. A filtered view keeps the order of the river.  When the counter
    and the values of the stored record are integers, equal ones
    included, [normalize] returns and the items that [applyFilters] keeps
    of its output are still in descending order of sequence number, and
    of time among equal sequence numbers, for every setting of the
    filters. *)
Theorem applyFilters_sorted (its : list RawItem) (g : option string) (store : Storage)
    (c : string) (r : option string) :
  integer_valued (loadSeqState store) ->
  exists out,
    (normalize (Some {| items := Some its; generated_utc := g |}) store).1
      = Some {| items := Some out; generated_utc := g |}
    /\ applyFilters c r out `sublist_of` out
    /\ StronglySorted ranks_before (applyFilters c r out).
Proof.
  intros Hint. rewrite normalize_integer by (by apply assigned_all). cbn [fst].
  eexists. split; [done|].
  split; [apply filter_sublist|].
  apply (StronglySorted_sublist _ _ _ (filter_sublist _ _)).
  by apply sort_by_seq_then_time, assigned_all.
Qed.

Lemma StronglySorted_by_lookup {A : Type} (R : relation A) (l : list A) :
  (forall (i j : nat) x y, (i < j)%nat -> l !! i = Some x -> l !! j = Some y -> R x y) ->
  StronglySorted R l.
Proof.
  induction l as [|z l IH]; intros Hl; [constructor|]. constructor.
  - apply IH. intros i j x y Hij Hi Hj. apply (Hl (S i) (S j)); [lia|done..].
  - apply Forall_forall. intros y [j Hj]%list_elem_of_lookup.
    apply (Hl 0%nat (S j)); [lia|done..].
Qed.

Lemma StronglySorted_strict {A : Type} (R R' : relation A) (l : list A) :
  StronglySorted R l -> NoDup l ->
  (forall a b, a ∈ l -> b ∈ l -> R a b -> a <> b -> R' a b) ->
  StronglySorted R' l.
Proof.
  induction 1 as [|x l Hs IH Hx]; intros Hnd HR; [constructor|].
  apply NoDup_cons in Hnd as [Hxl Hnd]. constructor.
  - apply IH; [done|]. intros a b Ha Hb. apply HR; by apply list_elem_of_further.
  - rewrite Forall_forall in *. intros y Hy. apply HR.
    + apply list_elem_of_here.
    + by apply list_elem_of_further.
    + by apply Hx.
    + by intros ->.
Qed.

Lemma has_room_dedupe (s : SeqState) (its : list RawItem) :
  has_room s (dedupeKey <$> its) -> has_room s (getItemId <$> dedupeItems its).
Proof.
  intros (c & Hc & Hroom). exists c. split; [done|].
  by destruct (loop_dedupe its s) as [_ ->].
Qed.

(** X21. Under the invariant, and with room in the counter for the new
    keys of the feed, the time of publication plays no part in the order:
    no two items of the output of [normalize] carry the same sequence
    number, so the output is in strictly descending order of sequence
    number and the comparison of times, which the sort makes only between
    equal sequence numbers, never decides. *)
Theorem normalize_strictly_by_seq (its : list RawItem) (g : option string)
    (store : Storage) (out : list RawItem) :
  seq_invariant (loadSeqState store) ->
  has_room (loadSeqState store) (dedupeKey <$> its) ->
  (normalize (Some {| items := Some its; generated_utc := g |}) store).1
    = Some {| items := Some out; generated_utc := g |} ->
  StronglySorted seq_above out
  /\ (forall x y, x ∈ out -> y ∈ out -> seq_number x = seq_number y -> x = y).
Proof.
  intros Hinv Hroom%has_room_dedupe.
  pose proof (invariant_integer _ Hinv) as Hint.
  rewrite normalize_integer by (by apply assigned_all). cbn [fst]. intros [= <-].
  set (s := loadSeqState store) in *.
  set (A := (assign_loop s false (dedupeItems its)).1.1).
  assert (Hkeys : NoDup (dedupeKey <$> A)).
  { unfold A. rewrite assign_loop_items, <- list_fmap_compose.
    erewrite list_fmap_ext; [apply dedupeItems_NoDup_keys|done]. }
  assert (Hdistinct : forall x y, x ∈ A -> y ∈ A -> seq_number x = seq_number y -> x = y).
  { intros x y Hx Hy Heq.
    destruct (assigned_seq _ _ x Hint Hx) as (zx & Hzx & Hmx).
    destruct (assigned_seq _ _ y Hint Hy) as (zy & Hzy & Hmy).
    rewrite Hzx, Hzy in Heq. injection Heq as <-.
    apply (NoDup_fmap_eq dedupeKey A); try done.
    assert (Hinv' : seq_invariant (assign_loop s false (dedupeItems its)).1.2).
    { rewrite assign_loop_state. by apply loop_invariant. }
    destruct Hinv' as (c & _ & _ & Hinj). by apply (Hinj _ _ (JNum (Num zx))). }
  split.
  - apply (StronglySorted_strict ranks_before).
    + by apply sort_by_seq_then_time, assigned_all.
    + rewrite sort_by_perm. by apply (NoDup_fmap_1 dedupeKey).
    + intros a b Ha Hb (za & zb & Hza & Hzb & Hord) Hne.
      rewrite sort_by_perm in Ha, Hb.
      exists za, zb. split; [done|]. split; [done|].
      destruct Hord as [?|[-> _]]; [done|].
      destruct Hne. apply Hdistinct; [done..|]. by rewrite Hza, Hzb.
  - intros x y Hx Hy. rewrite sort_by_perm in Hx, Hy. by apply Hdistinct.
Qed.

(** X22. The first run shows the feed in reverse: when nothing can be
    loaded from the storage, [normalize] numbers the survivors 1, 2, 3,
    ... in the order of the feed (the items of an array, which are fewer
    than 2^53) and returns them with the last one first, whatever their
    times of publication are. *)
Theorem normalize_first_run (its : list RawItem) (g : option string) (store : Storage) :
  loadSeqState store = fresh ->
  Z.of_nat (length its) <= 2 ^ 53 ->
  (normalize (Some {| items := Some its; generated_utc := g |}) store).1
  = Some {| items :=
              Some (reverse (imap (fun i it => set_seq (Some (JNum (Num (Z.of_nat i + 1)))) it)
                               (dedupeItems its)));
            generated_utc := g |}.
Proof.
  intros Hfresh Hlen. rewrite normalize_items.
  assert (Hlen' : Z.of_nat (length (dedupeItems its)) <= 2 ^ 53).
  { pose proof (first_seen_length (dedupeKey <$> its)) as Hle.
    rewrite <- dedupeItems_keys, !length_fmap in Hle. lia. }
  rewrite (assign_fresh _ _ Hfresh (dedupeItems_NoDup_keys its) Hlen').
  set (A := imap (fun i it => set_seq (Some (JNum (Num (Z.of_nat i + 1)))) it)
              (dedupeItems its)).
  assert (Hseq : forall (i : nat) x, A !! i = Some x -> seq_number x = Some (Z.of_nat i + 1)).
  { intros i x. unfold A. rewrite list_lookup_imap.
    destruct (dedupeItems its !! i); [|done]. by intros [= <-]. }
  assert (Hall : forall l, l ≡ₚ A -> Forall (fun it => is_Some (seq_number it)) l).
  { intros l Hl. apply Forall_forall. intros x Hx. rewrite Hl in Hx.
    apply list_elem_of_lookup in Hx as [i Hi]. rewrite (Hseq i x Hi). by eexists. }
  rewrite sort_integer by (by apply Hall). cbn [fmap option_fmap option_map].
  do 3 f_equal.
  apply StronglySorted_unique_strong with (R := ranks_before).
  - intros x y Hx Hy (za & zb & Ha & Hb & Hab) (zb' & za' & Hb' & Ha' & Hba).
    rewrite Ha in Ha'. rewrite Hb in Hb'. injection Ha' as <-. injection Hb' as <-.
    rewrite sort_by_perm in Hx. rewrite reverse_Permutation in Hy.
    apply list_elem_of_lookup in Hx as [i Hi]. apply list_elem_of_lookup in Hy as [j Hj].
    rewrite (Hseq i x Hi) in Ha. rewrite (Hseq j y Hj) in Hb.
    injection Ha as <-. injection Hb as <-.
    assert (i = j) as -> by lia. rewrite Hi in Hj. by injection Hj.
  - by apply sort_by_seq_then_time, Hall.
  - apply StronglySorted_by_lookup. intros i j x y Hij Hi Hj.
    assert (Hj' : (j < length A)%nat).
    { rewrite <- length_reverse. by apply lookup_lt_is_Some_1. }
    rewrite reverse_lookup in Hi, Hj by lia.
    exists (Z.of_nat (length A - S i) + 1), (Z.of_nat (length A - S j) + 1).
    split; [by apply Hseq|]. split; [by apply Hseq|]. lia.
  - by rewrite sort_by_perm, reverse_Permutation.
Qed.
End Normalize.

(** ** Saving and loading the record *)

Section SaveLoad.
Context `{Platform}.

(** X23. Saving a record and loading it again gives the record back when
    its map is a plain object: for a record with an integer counter, on
    storage that takes the write and a platform that reads back what it
    writes, [loadSeqState] after [saveSeqState] returns the record,
    whatever was stored before.  Of a map that is an array only the
    elements come back: the numbers filed in it under identity keys are
    lost.  On storage that refuses the write [saveSeqState] changes
    nothing and does not fail, so what is loaded afterwards is what was
    loaded before. *)
Theorem saveSeqState_roundtrip (s : SeqState) (store : Storage) (c : Z) :
  counter s = Num c -> reads_back (state_json s) ->
  (accepting store -> indexed s = None -> loadSeqState (saveSeqState s store) = s)
  /\ (accepting store -> forall elems, indexed s = Some elems ->
        loadSeqState (saveSeqState s store)
        = {| counter := Num c; map := array_map elems; indexed := Some elems |})
  /\ (denied store = true \/ full store = true ->
      saveSeqState s store = store
      /\ loadSeqState (saveSeqState s store) = loadSeqState store).
Proof.
  intros Hc Hrb. split; [|split].
  - intros Hacc Hplain. by apply (load_saved store s c).
  - intros Hacc elems Helems. by rewrite (load_saved_any store s c), Helems.
  - intros Hrefuse.
    assert (saveSeqState s store = store) as ->; [|done].
    unfold saveSeqState, setItem.
    by destruct Hrefuse as [-> | ->]; [|rewrite orb_true_r].
Qed.
End SaveLoad.

(** ** Keys of different kinds *)

Section Keys.
Context `{Platform}.

Lemma app_inv_head_string (p x y : string) : p +:+ x = p +:+ y -> x = y.
Proof. induction p as [|c p IH]; [done|]. rewrite !app_cons. intros [= Heq]. auto. Qed.

Lemma dedupeKey_id (it : RawItem) (i : string) :
  absent (cluster_id it) -> present (canonical_id it) i -> dedupeKey it = "i:" +:+ i.
Proof.
  unfold absent. intros Hc [Hi Hne]. unfold dedupeKey.
  by rewrite Hc, Hi, (truthy_Some i Hne).
Qed.

(** X24. Keys tell the signals apart.  Two items with a cluster_id have
    the same key exactly when the cluster_ids are equal, and two items
    identified by canonical_id exactly when the canonical_ids are equal;
    an item identified by canonical_id never has the key of an item
    identified by a URL or by its title, and an item identified by a URL
    never has the key of an item identified by its title; but the
    canonical_url of one item and the plain url of another give the same
    key when they are the same URL.  No key is empty. *)
Theorem dedupeKey_faithful (a b : RawItem) :
  (forall x y, present (cluster_id a) x -> present (cluster_id b) y ->
     (dedupeKey a = dedupeKey b <-> x = y))
  /\ (forall x y, absent (cluster_id a) -> absent (cluster_id b) ->
        present (canonical_id a) x -> present (canonical_id b) y ->
        (dedupeKey a = dedupeKey b <-> x = y))
  /\ (forall x, absent (cluster_id a) -> present (canonical_id a) x ->
        absent (cluster_id b) -> absent (canonical_id b) ->
        dedupeKey a <> dedupeKey b)
  /\ (absent (cluster_id a) -> absent (canonical_id a) ->
      truthy (canonical_url a) = true \/ truthy (url a) = true ->
      absent (cluster_id b) -> absent (canonical_id b) ->
      absent (canonical_url b) -> absent (url b) ->
      dedupeKey a <> dedupeKey b)
  /\ (forall u, absent (cluster_id a) -> absent (canonical_id a) ->
        present (canonical_url a) u ->
        absent (cluster_id b) -> absent (canonical_id b) ->
        absent (canonical_url b) -> present (url b) u ->
        dedupeKey a = dedupeKey b)
  /\ dedupeKey a <> EmptyString.
Proof.
  split; [|split; [|split; [|split; [|split]]]].
  - intros x y Hx Hy. rewrite (dedupeKey_cluster a x Hx), (dedupeKey_cluster b y Hy).
    split; [apply app_inv_head_string|by intros ->].
  - intros x y Ha Hb Hx Hy.
    rewrite (dedupeKey_id a x Ha Hx), (dedupeKey_id b y Hb Hy).
    split; [apply app_inv_head_string|by intros ->].
  - intros x Ha Hx Hb Hbi. rewrite (dedupeKey_id a x Ha Hx).
    unfold absent in *. unfold dedupeKey. rewrite Hb, Hbi.
    destruct (truthy (canonical_url b)); [done|].
    destruct (truthy (url b)); [done|].
    by destruct (fuzzyTitleKey_prefix (or_empty (title b))) as [r ->].
  - unfold absent. intros Ha Hai Hau Hb Hbi Hbc Hbu. unfold dedupeKey.
    rewrite Ha, Hai, Hb, Hbi, Hbc, Hbu.
    destruct (fuzzyTitleKey_prefix (or_empty (title b))) as [r ->].
    destruct (truthy (canonical_url a)); [done|].
    destruct Hau as [Hau | ->]; done.
  - unfold absent. intros u Ha Hai [Hau Hne] Hb Hbi Hbc [Hbu _]. unfold dedupeKey.
    by rewrite Ha, Hai, Hb, Hbi, Hbc, Hau, Hbu, (truthy_Some u Hne).
  - destruct (dedupeKey_marker a) as [r [[-> _]|[_ [->|[->| ->]]]]]; done.
Qed.
End Keys.

(** ** The fuzzy title key *)

Lemma ascii_compare_trans (a b c : ascii) :
  Ascii.compare a b <> Gt -> Ascii.compare b c <> Gt -> Ascii.compare a c <> Gt.
Proof.
  unfold Ascii.compare. rewrite !N.compare_le_iff. lia.
Qed.

Lemma ascii_compare_eq (a b : ascii) : Ascii.compare a b = Eq <-> a = b.
Proof.
  unfold Ascii.compare. rewrite N.compare_eq_iff. split; [|by intros ->].
  intros Heq. by rewrite <- (ascii_N_embedding a), <- (ascii_N_embedding b), Heq.
Qed.

Lemma string_le_trans (a b c : string) : string_le a b -> string_le b c -> string_le a c.
Proof.
  unfold string_le. revert b c. induction a as [|x a IH]; intros [|y b] [|z c]; cbn; try done.
  destruct (Ascii.compare x y) eqn:Hxy; [|intros _|done].
  - apply ascii_compare_eq in Hxy as ->.
    destruct (Ascii.compare y z) eqn:Hyz; [apply IH|done..].
  - destruct (Ascii.compare y z) eqn:Hyz; [| |done].
    + apply ascii_compare_eq in Hyz as <-. by rewrite Hxy.
    + intros _.
      pose proof (ascii_compare_trans x y z) as Ht. rewrite Hxy, Hyz in Ht.
      destruct (Ascii.compare x z) eqn:Hxz; [|done|by destruct Ht].
      apply ascii_compare_eq in Hxz as ->.
      unfold Ascii.compare in Hxy, Hyz. rewrite N.compare_lt_iff in Hxy, Hyz. lia.
Qed.

Lemma string_le_antisym (a b : string) : string_le a b -> string_le b a -> a = b.
Proof.
  unfold string_le. rewrite (String.compare_antisym b a).
  destruct (String.compare a b) eqn:Hab; [|done..].
  intros _ _. by apply String.compare_eq_iff.
Qed.

Lemma comes_after_strings (a b : string) :
  comes_after compare_strings a b = true <-> String.compare a b = Gt.
Proof. unfold comes_after, compare_strings. by destruct (String.compare a b). Qed.

Lemma sort_strings_sorted (l : list string) :
  StronglySorted string_le (sort_by compare_strings l).
Proof.
  apply (sort_by_sorted compare_strings (fun _ => True) string_le).
  - intros a b _ _ Hc%comes_after_strings. unfold string_le.
    rewrite (String.compare_antisym b a), Hc. done.
  - intros a b _ _ Hc. unfold string_le. intros Hgt%comes_after_strings. congruence.
  - intros a b c _ _ _. apply string_le_trans.
  - by apply Forall_forall.
Qed.

Lemma sort_strings_unique (l k : list string) :
  l ≡ₚ k -> sort_by compare_strings l = sort_by compare_strings k.
Proof.
  intros Hperm. apply StronglySorted_unique_strong with (R := string_le).
  - intros x y _ _. apply string_le_antisym.
  - apply sort_strings_sorted.
  - apply sort_strings_sorted.
  - by rewrite !sort_by_perm.
Qed.

Lemma Set_from_acc (acc xs : list string) :
  NoDup acc ->
  NoDup (foldl Set_add acc xs)
  /\ forall x, x ∈ foldl Set_add acc xs <-> x ∈ acc \/ x ∈ xs.
Proof.
  revert acc. induction xs as [|y xs IH]; intros acc Hnd.
  - split; [done|]. intros x. rewrite elem_of_nil. tauto.
  - cbn [foldl]. unfold Set_add at 2 4. destruct (decide (y ∈ acc)) as [Hin|Hin].
    + destruct (IH acc Hnd) as [Hn He]. split; [done|].
      intros x. rewrite He, elem_of_cons. naive_solver.
    + assert (Hnd' : NoDup (acc ++ [y])).
      { apply NoDup_app. split; [done|]. split; [|apply NoDup_singleton].
        by intros x Hx ->%list_elem_of_singleton. }
      destruct (IH _ Hnd') as [Hn He]. split; [done|].
      intros x. rewrite He, elem_of_app, list_elem_of_singleton, elem_of_cons. tauto.
Qed.

Lemma Set_from_NoDup (xs : list string) : NoDup (Set_from xs).
Proof. apply Set_from_acc, NoDup_nil_2. Qed.

Lemma Set_from_elem (xs : list string) (x : string) : x ∈ Set_from xs <-> x ∈ xs.
Proof.
  unfold Set_from. destruct (Set_from_acc [] xs (NoDup_nil_2)) as [_ He].
  rewrite He, elem_of_nil. tauto.
Qed.

Lemma fuzzyTitleKey_significant (t : string) :
  significant t <> [] ->
  fuzzyTitleKey t =
    "fk:" +:+ join "|" (take 12 (sort_by compare_strings (Set_from (significant t)))).
Proof.
  unfold fuzzyTitleKey. cbn zeta. fold (significant t).
  by destruct (significant t).
Qed.

(** X25. The fuzzy key is robust to the order and the repetition of
    words: two titles whose significant tokens (those longer than one
    character that are not stop words, after the source tail is dropped)
    are the same set of words have the same key, provided there is at
    least one such token. *)
Theorem fuzzyTitleKey_word_order (t1 t2 : string) :
  significant t1 <> [] ->
  (forall w, w ∈ significant t1 <-> w ∈ significant t2) ->
  fuzzyTitleKey t1 = fuzzyTitleKey t2.
Proof.
  intros Hne Hsame.
  assert (Hne2 : significant t2 <> []).
  { destruct (significant t1) as [|w l] eqn:E; [done|].
    intros Hnil. rewrite Hnil in Hsame.
    by apply (elem_of_nil w), Hsame, list_elem_of_here. }
  rewrite !fuzzyTitleKey_significant by done.
  do 3 f_equal. apply sort_strings_unique.
  apply NoDup_Permutation; [apply Set_from_NoDup..|].
  intros w. by rewrite !Set_from_elem.
Qed.

Lemma runs_tokens (cur s : string) :
  all_chars is_alnum cur = true ->
  forall w, w ∈ runs cur s -> w <> EmptyString /\ all_chars is_alnum w = true.
Proof.
  revert cur. induction s as [|c s IH]; intros cur Hcur w; cbn [runs].
  - destruct cur; [by intros ?%elem_of_nil|]. by intros ->%list_elem_of_singleton.
  - destruct (is_alnum c) eqn:Hc.
    + apply IH. rewrite all_chars_app, Hcur. cbn. by rewrite Hc.
    + intros [Hw|Hw]%elem_of_app; [|by apply (IH EmptyString)].
      destruct cur; [by apply elem_of_nil in Hw|]. by apply list_elem_of_singleton in Hw as ->.
Qed.

Lemma tokenize_valid (s w : string) :
  w ∈ tokenize s -> w <> EmptyString /\ all_chars is_alnum w = true.
Proof. by apply runs_tokens. Qed.

Lemma is_alnum_lower (c : ascii) :
  is_alnum c = true -> lower_ascii c = c /\ (code c < 128)%N.
Proof.
  unfold is_alnum. intros Hc.
  apply orb_true_iff in Hc as [[H1 H2]%andb_true_iff|[H1 H2]%andb_true_iff];
    apply N.leb_le in H1, H2; (split; [|lia]); unfold lower_ascii;
    destruct (N.leb_spec 65 (code c)), (N.leb_spec (code c) 90); cbn [andb];
    try done; lia.
Qed.

Lemma toLowerCase_cons_plain (c : ascii) (s : string) :
  lower_ascii c = c -> (code c < 128)%N ->
  toLowerCase (String c s) = String c (toLowerCase s).
Proof.
  intros Hl Hc. cbn [toLowerCase].
  destruct (N.eqb_spec (code c) 196); [lia|]. destruct (N.eqb_spec (code c) 226); [lia|].
  by rewrite Hl.
Qed.

Lemma toLowerCase_alnum (w : string) :
  all_chars is_alnum w = true -> toLowerCase w = w.
Proof.
  induction w as [|c w IH]; [done|]. cbn [all_chars].
  intros [Hc Hw]%andb_true_iff. destruct (is_alnum_lower c Hc) as [Hl Hlt].
  by rewrite toLowerCase_cons_plain, IH.
Qed.

Lemma toLowerCase_alnum_app (w s : string) :
  all_chars is_alnum w = true -> toLowerCase (w +:+ s) = w +:+ toLowerCase s.
Proof.
  induction w as [|c w IH]; [done|]. cbn [all_chars].
  intros [Hc Hw]%andb_true_iff. destruct (is_alnum_lower c Hc) as [Hl Hlt].
  by rewrite app_cons, toLowerCase_cons_plain, IH.
Qed.

Lemma runs_alnum_app (cur w s : string) :
  all_chars is_alnum w = true -> runs cur (w +:+ s) = runs (cur +:+ w) s.
Proof.
  revert cur. induction w as [|c w IH]; intros cur; [by rewrite string_app_empty_r|].
  cbn [all_chars]. intros [Hc Hw]%andb_true_iff.
  rewrite app_cons. cbn [runs]. rewrite Hc, IH by done.
  by rewrite string_app_assoc.
Qed.

Lemma tokenize_join (sep : ascii) (toks : list string) :
  is_alnum (lower_ascii sep) = false -> (code sep < 128)%N ->
  (forall w, w ∈ toks -> w <> EmptyString /\ all_chars is_alnum w = true) ->
  tokenize (join (String sep EmptyString) toks) = toks.
Proof.
  intros Hsep Hlt. unfold tokenize, join.
  assert (Hl : lower_ascii sep = sep).
  { unfold lower_ascii in *.
    destruct (N.leb_spec 65 (code sep)), (N.leb_spec (code sep) 90); cbn [andb] in *;
      try done.
    exfalso. unfold is_alnum in Hsep. unfold code in *.
    rewrite N_ascii_embedding in Hsep by lia.
    apply orb_false_iff in Hsep as [Hsep _]. apply andb_false_iff in Hsep as [Hsep|Hsep];
      apply N.leb_gt in Hsep; lia. }
  rewrite Hl in Hsep.
  induction toks as [|w [|w' toks] IH]; intros Hvalid; [done| |].
  - destruct (Hvalid w (list_elem_of_here _ _)) as [Hne Hw]. cbn [String.concat].
    rewrite toLowerCase_alnum by done.
    rewrite <- (string_app_empty_r w) at 1. rewrite runs_alnum_app by done.
    rewrite app_empty_l. cbn [runs]. by destruct w.
  - destruct (Hvalid w (list_elem_of_here _ _)) as [Hne Hw].
    change (String.concat (String sep EmptyString) (w :: w' :: toks))
      with (w +:+ String sep EmptyString
              +:+ String.concat (String sep EmptyString) (w' :: toks)).
    rewrite toLowerCase_alnum_app, runs_alnum_app, app_empty_l by done.
    rewrite app_cons, app_empty_l, toLowerCase_cons_plain by done.
    cbn [runs]. rewrite Hsep.
    rewrite IH by (intros x Hx; by apply Hvalid, list_elem_of_further).
    by destruct w.
Qed.

(** X26. Tokens are runs of lower-case letters and digits: every token
    that [tokenize] returns is non-empty and holds only characters of
    [a-z0-9]; a text without such characters has no token; and joining
    the tokens with a separator that is not a letter or a digit (a space,
    or the [|] of the key) and tokenizing again gives the tokens back. *)
Theorem tokenize_tokens (s : string) (sep : ascii) :
  (forall w, w ∈ tokenize s -> w <> EmptyString /\ all_chars is_alnum w = true)
  /\ tokenize EmptyString = []
  /\ (is_alnum (lower_ascii sep) = false -> (code sep < 128)%N ->
      tokenize (join (String sep EmptyString) (tokenize s)) = tokenize s
      /\ forall toks,
           (forall w, w ∈ toks -> w <> EmptyString /\ all_chars is_alnum w = true) ->
           tokenize (join (String sep EmptyString) toks) = toks).
Proof.
  split; [apply tokenize_valid|]. split; [done|].
  intros Hsep Hlt. split; [|intros toks Hvalid; by apply tokenize_join].
  apply tokenize_join; [done..|]. apply tokenize_valid.
Qed.

Lemma sorted_NoDup_strict (l : list string) :
  StronglySorted string_le l -> NoDup l -> StronglySorted string_lt l.
Proof.
  induction 1 as [|x l Hs IH Hx]; intros Hnd; [constructor|].
  apply NoDup_cons in Hnd as [Hxl Hnd]. constructor; [by apply IH|].
  rewrite Forall_forall in *. intros y Hy. specialize (Hx y Hy).
  unfold string_le, string_lt in *.
  destruct (String.compare x y) eqn:Hc; [|done..].
  apply String.compare_eq_iff in Hc as ->. done.
Qed.

Lemma significant_valid (t w : string) :
  w ∈ significant t ->
  (1 < String.length w)%nat /\ (w ∉ STOPWORDS) /\ all_chars is_alnum w = true.
Proof.
  unfold significant. intros [Hw [Hlen Hstop]%andb_true_iff]%list_elem_of_In%filter_In.
  apply list_elem_of_In, tokenize_valid in Hw as [_ Hw].
  split; [by apply Nat.ltb_lt|]. split; [|done].
  apply negb_true_iff, bool_decide_eq_false in Hstop. done.
Qed.

Lemma join_nonempty (sep : string) (l : list string) :
  l <> [] -> (forall w, w ∈ l -> w <> EmptyString) -> join sep l <> EmptyString.
Proof.
  destruct l as [|w [|w' l]]; [done| |]; intros _ Hl.
  - apply Hl, list_elem_of_here.
  - change (join sep (w :: w' :: l)) with (w +:+ sep +:+ join sep (w' :: l)).
    pose proof (Hl w (list_elem_of_here _ _)). by destruct w.
Qed.

(** X27. The shape of the fuzzy key.  When the title has significant
    tokens the key is [fk:] followed by at most twelve of them joined by
    [|]: they are distinct and in ascending order, each is longer than
    one character, made of [a-z0-9] and not a stop word, and when there
    are at most twelve distinct significant tokens all of them are in the
    key.  When the title has no token at all the key is [fk:empty].  The
    key is never the bare marker [fk:]. *)
Theorem fuzzyTitleKey_shape (t : string) :
  (significant t <> [] ->
   exists toks,
     fuzzyTitleKey t = "fk:" +:+ join "|" toks
     /\ (0 < length toks <= 12)%nat
     /\ StronglySorted string_lt toks
     /\ (forall w, w ∈ toks ->
           w ∈ significant t /\ (1 < String.length w)%nat /\ (w ∉ STOPWORDS)
           /\ all_chars is_alnum w = true)
     /\ ((length (Set_from (significant t)) <= 12)%nat ->
         forall w, w ∈ significant t -> w ∈ toks))
  /\ (tokenize (stripSourceTail t) = [] -> fuzzyTitleKey t = "fk:empty")
  /\ fuzzyTitleKey t <> "fk:".
Proof.
  set (sorted := sort_by compare_strings (Set_from (significant t))).
  assert (Hperm : sorted ≡ₚ Set_from (significant t)) by apply sort_by_perm.
  assert (Hshape : significant t <> [] ->
            fuzzyTitleKey t = "fk:" +:+ join "|" (take 12 sorted)
            /\ (0 < length (take 12 sorted) <= 12)%nat
            /\ forall w, w ∈ take 12 sorted -> w ∈ significant t).
  { intros Hne. split; [by apply fuzzyTitleKey_significant|]. split.
    - rewrite length_take, Hperm. split; [|lia].
      destruct (significant t) as [|w l] eqn:E; [done|].
      assert (Hw : w ∈ Set_from (w :: l)) by (apply Set_from_elem, list_elem_of_here).
      destruct (Set_from (w :: l)); [by apply elem_of_nil in Hw|]. cbn. lia.
    - intros w Hw. apply Set_from_elem. rewrite <- Hperm.
      by apply (elem_of_sublist _ _ _ Hw), sublist_take. }
  split; [|split].
  - intros Hne. destruct (Hshape Hne) as (Hkey & Hlen & Helem).
    exists (take 12 sorted). split; [done|]. split; [done|]. split; [|split].
    + apply sorted_NoDup_strict.
      * apply (StronglySorted_sublist _ _ sorted); [apply sublist_take|].
        apply sort_strings_sorted.
      * apply (sublist_NoDup _ sorted); [|apply sublist_take].
        rewrite Hperm. apply Set_from_NoDup.
    + intros w Hw. split; [by apply Helem|]. by apply (significant_valid t), Helem.
    + intros Hfew w Hw. rewrite take_ge by (rewrite Hperm; lia).
      rewrite Hperm. by apply Set_from_elem.
  - intros Hnone. unfold fuzzyTitleKey. cbn zeta. by rewrite Hnone.
  - destruct (significant t) as [|w0 l0] eqn:Hsig.
    + unfold fuzzyTitleKey. cbn zeta. fold (significant t). rewrite Hsig.
      destruct (slice_to 160 _); done.
    + destruct Hshape as (-> & Hlen & Helem); [done|].
      rewrite <- (string_app_empty_r "fk:") at 2. intros Heq%app_inv_head_string.
      revert Heq. apply join_nonempty.
      * destruct (take 12 sorted); [cbn in Hlen; lia|done].
      * intros w Hw. apply Helem in Hw. rewrite <- Hsig in Hw.
        apply (significant_valid t) in Hw as (Hlen' & _). destruct w; [cbn in Hlen'; lia|done].
Qed.

(** ** Aggregator signatures *)

Lemma prefix_startsWith (p s : string) : String.prefix p s = startsWith p s.
Proof.
  revert s. induction p as [|a p IH]; intros [|b s]; cbn; try done.
  destruct (ascii_dec a b) as [->|Hne].
  - by rewrite Ascii.eqb_refl, IH.
  - apply Ascii.eqb_neq in Hne. by rewrite Hne.
Qed.

Lemma includes_nil (p : string) : includes p EmptyString = is_empty p.
Proof. by destruct p. Qed.

Lemma includes_cons (p : string) (c : ascii) (s : string) :
  includes p (String c s) = startsWith p (String c s) || includes p s.
Proof.
  unfold includes. cbn [String.index]. rewrite prefix_startsWith.
  destruct (startsWith p (String c s)); [done|].
  by destruct (String.index 0 p s).
Qed.

Lemma startsWith_inv (p s : string) : startsWith p s = true -> exists b, s = p +:+ b.
Proof.
  revert s. induction p as [|a p IH]; intros s; [by exists s|].
  destruct s as [|b s]; [done|]. cbn [startsWith].
  intros [->%Ascii.eqb_eq Hp]%andb_true_iff. destruct (IH s Hp) as [r ->].
  exists r. by rewrite app_cons.
Qed.

Lemma includes_iff (p s : string) :
  includes p s = true <-> exists a b, s = a +:+ p +:+ b.
Proof.
  induction s as [|c s IH].
  - rewrite includes_nil. split.
    + intros ->%is_empty_true. by exists EmptyString, EmptyString.
    + intros (a & b & Heq). destruct a; [|done]. rewrite app_empty_l in Heq.
      by destruct p.
  - rewrite includes_cons, orb_true_iff, IH. split.
    + intros [(b & ->)%startsWith_inv|(a & b & ->)].
      * exists EmptyString, b. by rewrite app_empty_l.
      * exists (String c a), b. by rewrite app_cons.
    + intros (a & b & Heq). destruct a as [|d a].
      * left. rewrite app_empty_l in Heq. rewrite Heq. apply startsWith_app.
      * rewrite app_cons in Heq. injection Heq as _ ->. right. by exists a, b.
Qed.

Lemma endsWith_inv (p s : string) : endsWith p s = true -> exists a, s = a +:+ p.
Proof.
  induction s as [|c s IH]; cbn [endsWith].
  - rewrite orb_false_r. intros <-%String.eqb_eq. by exists EmptyString.
  - intros [<-%String.eqb_eq|Hs]%orb_true_iff; [by exists EmptyString|].
    destruct (IH Hs) as [a ->]. exists (String c a). by rewrite app_cons.
Qed.

Lemma endsWith_iff (p s : string) : endsWith p s = true <-> exists a, s = a +:+ p.
Proof. split; [apply endsWith_inv|]. intros [a ->]. apply endsWith_app. Qed.

Lemma startsWith_iff (p s : string) : startsWith p s = true <-> exists b, s = p +:+ b.
Proof. split; [apply startsWith_inv|]. intros [b ->]. apply startsWith_app. Qed.

(** Where a text occurs in two texts joined by one character: in the
    first, in the second, or across the joint. *)
Lemma prefix_across (p b x : string) (c : ascii) (y : string) :
  p +:+ b = x +:+ String c y ->
  (exists b', x = p +:+ b')
  \/ (exists p1 p2, p = p1 +:+ String c p2 /\ x = p1 /\ y = p2 +:+ b).
Proof.
  revert x. induction p as [|d p IH]; intros x; [left; by exists x|].
  destruct x as [|e x]; rewrite !app_cons, ?app_empty_l.
  - intros [= Hdc Hy]. subst d y. right. exists EmptyString, p. by rewrite app_empty_l.
  - intros [= Hde Heq]. subst e.
    destruct (IH x Heq) as [[b' ->]|(p1 & p2 & -> & -> & ->)].
    + left. exists b'. by rewrite app_cons.
    + right. exists (String d p1), p2. by rewrite !app_cons.
Qed.

Lemma occurs_across (a p b x : string) (c : ascii) (y : string) :
  a +:+ p +:+ b = x +:+ String c y ->
  (exists a' b', x = a' +:+ p +:+ b')
  \/ (exists a' b', y = a' +:+ p +:+ b')
  \/ (exists p1 p2, p = p1 +:+ String c p2 /\ x = a +:+ p1 /\ y = p2 +:+ b).
Proof.
  revert x. induction a as [|e a IH]; intros x.
  - rewrite app_empty_l. intros [[b' ->]|(p1 & p2 & -> & -> & ->)]%prefix_across.
    + left. exists EmptyString, b'. by rewrite app_empty_l.
    + right; right. exists p1, p2. by rewrite app_empty_l.
  - destruct x as [|d x]; rewrite !app_cons, ?app_empty_l.
    + intros [= Hec Hy]. subst e y. right; left. by exists a, b.
    + intros [= Hde Heq]. subst d.
      destruct (IH x Heq) as [(a' & b' & ->)|[(a' & b' & ->)|(p1 & p2 & -> & -> & ->)]].
      * left. exists (String e a'), b'. by rewrite app_cons.
      * right; left. by exists a', b'.
      * right; right. exists p1, p2. by rewrite app_cons.
Qed.

(** Lower-casing a text in two parts joined by a character that completes
    no sequence of bytes. *)
Lemma toLowerCase_joint (n : nat) (a : string) (c : ascii) (b : string) :
  (String.length a <= n)%nat ->
  code c <> 176%N -> code c <> 132%N -> code c <> 170%N ->
  toLowerCase (a +:+ String c b) = toLowerCase a +:+ toLowerCase (String c b).
Proof.
  intros Hlen H176 H132 H170. revert a Hlen.
  induction n as [|n IH]; intros a Hlen.
  { destruct a; [done|cbn in Hlen; lia]. }
  destruct a as [|x r1]; [done|]. cbn [String.length] in Hlen.
  rewrite app_cons. cbn [toLowerCase].
  destruct (N.eqb_spec (code x) 196) as [Hx|Hx].
  - destruct r1 as [|d r2].
    + rewrite app_empty_l. apply N.eqb_neq in H176. rewrite H176. by app_norm.
    + rewrite app_cons. destruct (code d =? 176)%N.
      * rewrite IH by (cbn in *; lia). by app_norm.
      * rewrite <- app_cons, IH by (cbn in *; lia). by app_norm.
  - destruct (N.eqb_spec (code x) 226) as [Hy|Hy].
    + destruct r1 as [|d [|e r3]].
      * rewrite app_empty_l. apply N.eqb_neq in H132. rewrite H132.
        cbn [andb]. destruct b; by app_norm.
      * rewrite app_cons, app_empty_l. apply N.eqb_neq in H170. rewrite H170.
        rewrite andb_false_r.
        change (String d (String c b)) with (String d EmptyString +:+ String c b).
        rewrite IH by (cbn in *; lia). by app_norm.
      * rewrite !app_cons. destruct ((code d =? 132) && (code e =? 170))%N.
        -- rewrite IH by (cbn in *; lia). by app_norm.
        -- rewrite <- !app_cons, IH by (cbn in *; lia). by app_norm.
    + rewrite IH by (cbn in *; lia). by app_norm.
Qed.

Lemma toLowerCase_space (a b : string) :
  toLowerCase (a +:+ " " +:+ b) = toLowerCase a +:+ " " +:+ toLowerCase b.
Proof.
  rewrite app_cons, app_empty_l.
  by rewrite (toLowerCase_joint (String.length a)).
Qed.

Lemma chars_split (p1 p2 : string) (c : ascii) : c ∈ chars (p1 +:+ String c p2).
Proof. rewrite chars_app, elem_of_app. right. apply list_elem_of_here. Qed.

Lemma split_unique (q1 q2 p1 p2 : string) (c : ascii) :
  c ∉ chars q1 -> c ∉ chars q2 ->
  q1 +:+ String c q2 = p1 +:+ String c p2 -> p1 = q1 /\ p2 = q2.
Proof.
  intros Hq1 Hq2. revert p1. induction q1 as [|e q1 IH]; intros [|d p1]; app_norm.
  - by intros [= ->].
  - intros [= <- ->]. destruct Hq2. apply chars_split.
  - intros [= -> _]. destruct Hq1. apply list_elem_of_here.
  - intros [= -> Heq]. destruct (IH ltac:(by intros ?; apply Hq1, list_elem_of_further) p1 Heq)
      as [-> ->]. done.
Qed.

(** X28. What makes an item an aggregator.  [isAggregator] holds exactly
    when the lower-cased source or the lower-cased url contains one of
    the six signatures [news.google], [google news], [news.yahoo],
    [apple.news], [feedburner], [rss.], or when the lower-cased source
    ends with [google] and the lower-cased url starts with [news] (the
    two are searched as one text with a space between them).  The letter
    case of source and url does not matter. *)
Theorem isAggregator_signature (it : RawItem) :
  let src := toLowerCase (or_empty (source it)) in
  let u := toLowerCase (or_empty (url it)) in
  isAggregator it = true <->
    (exists p, p ∈ AGGREGATOR_PATTERNS /\ (includes p src = true \/ includes p u = true))
    \/ (endsWith "google" src = true /\ startsWith "news" u = true).
Proof.
  cbn zeta. unfold isAggregator. cbn zeta. rewrite toLowerCase_space.
  set (x := toLowerCase (or_empty (source it))).
  set (y := toLowerCase (or_empty (url it))).
  rewrite existsb_exists. split.
  - intros (p & Hp%list_elem_of_In & (a & b & Heq)%includes_iff).
    symmetry in Heq. rewrite app_cons, app_empty_l in Heq.
    apply occurs_across in Heq
      as [(a' & b' & Hx)|[(a' & b' & Hy)|(p1 & p2 & Hsplit & Hx & Hy)]].
    + left. exists p. split; [done|]. left. apply includes_iff. eauto.
    + left. exists p. split; [done|]. right. apply includes_iff. eauto.
    + right. pose proof (chars_split p1 p2 " ") as Hsp. rewrite <- Hsplit in Hsp.
      unfold AGGREGATOR_PATTERNS in Hp.
      repeat (apply elem_of_cons in Hp as [->|Hp]); try (by apply elem_of_nil in Hp);
        try (cbn in Hsp; repeat (apply elem_of_cons in Hsp as [Hsp|Hsp]; [discriminate Hsp|]);
             by apply elem_of_nil in Hsp).
      assert (p1 = "google" /\ p2 = "news") as [-> ->].
      { apply (split_unique "google" "news" p1 p2 " "); [| |done];
          cbn; intros Hin; repeat (apply elem_of_cons in Hin as [Hin|Hin]; [discriminate Hin|]);
          by apply elem_of_nil in Hin. }
      rewrite Hx, Hy. by rewrite endsWith_app, startsWith_app.
  - intros [(p & Hp & [(a & b & Hx)%includes_iff|(a & b & Hy)%includes_iff])
           |[(a & Hx)%endsWith_inv (b & Hy)%startsWith_inv]].
    + exists p. split; [by apply list_elem_of_In|]. apply includes_iff.
      exists a, (b +:+ " " +:+ y). rewrite Hx. by rewrite !string_app_assoc.
    + exists p. split; [by apply list_elem_of_In|]. apply includes_iff.
      exists (x +:+ " " +:+ a), b. rewrite Hy. by rewrite !string_app_assoc.
    + exists "google news". split; [cbn; tauto|]. apply includes_iff.
      exists a, b. rewrite Hx, Hy. by rewrite !string_app_assoc.
Qed.

(** ** The source tail of a title *)

Ltac bool_to_prop H :=
  repeat first
    [ rewrite andb_true_iff in H | rewrite orb_true_iff in H
    | rewrite andb_false_iff in H | rewrite orb_false_iff in H
    | rewrite N.eqb_eq in H | rewrite N.eqb_neq in H
    | rewrite N.leb_le in H | rewrite N.leb_gt in H
    | rewrite negb_true_iff in H | rewrite negb_false_iff in H ].

Ltac case_if H :=
  match goal with
  | |- context [if ?b then Some _ else _] => destruct b eqn:H
  end.

Lemma ws1_app (s r x : string) : ws1 s = Some r -> ws1 (s +:+ x) = Some (r +:+ x).
Proof.
  unfold ws1. destruct s as [|c r1]; [done|]. rewrite app_cons.
  case_if H1; [by intros [= <-]|].
  destruct r1 as [|d r2]; [done|]. rewrite app_cons.
  case_if H2; [by intros [= <-]|].
  destruct r2 as [|e r3]; [done|]. rewrite app_cons.
  case_if H3; [by intros [= <-]|done].
Qed.

Lemma ws1_consumes (s r : string) :
  ws1 s = Some r ->
  exists p, s = p +:+ r /\ p <> EmptyString /\ forall c, c ∈ chars p -> tail_byte c.
Proof.
  unfold ws1, tail_byte. destruct s as [|c r1]; [done|].
  case_if H1.
  { intros [= <-]. exists (String c EmptyString). split; [done|]. split; [done|].
    intros x ->%list_elem_of_singleton. bool_to_prop H1. lia. }
  destruct r1 as [|d r2]; [done|].
  case_if H2.
  { intros [= <-]. exists (String c (String d EmptyString)). split; [done|]. split; [done|].
    bool_to_prop H2. intros x [->|[->|[]%elem_of_nil]%elem_of_cons]%elem_of_cons; lia. }
  destruct r2 as [|e r3]; [done|].
  case_if H3; [|done].
  intros [= <-]. exists (String c (String d (String e EmptyString))).
  split; [done|]. split; [done|]. bool_to_prop H3.
  intros x [->|[->|[->|[]%elem_of_nil]%elem_of_cons]%elem_of_cons]%elem_of_cons; lia.
Qed.

Lemma dash1_consumes (s r : string) :
  dash1 s = Some r ->
  (exists p, s = p +:+ r /\ p <> EmptyString /\ forall c, c ∈ chars p -> tail_byte c)
  /\ (forall x, dash1 (s +:+ x) = Some (r +:+ x) /\ ws1 (s +:+ x) = None)
  /\ exists c s', s = String c s' /\ (code c = 45 \/ code c = 226)%N.
Proof.
  unfold dash1, tail_byte. destruct s as [|c r1]; [done|].
  destruct (N.eqb_spec (code c) 45) as [Hc|Hc].
  { intros [= <-]. split; [|split].
    - exists (String c EmptyString). split; [done|]. split; [done|].
      intros x ->%list_elem_of_singleton. lia.
    - intros x. rewrite app_cons. apply N.eqb_eq in Hc as Hc'. rewrite Hc'.
      split; [done|]. unfold ws1.
      replace ((9 <=? code c) && (code c <=? 13) || (code c =? 32))%N with false
        by (rewrite Hc; done).
      destruct (r1 +:+ x) as [|d r2]; [done|].
      replace ((code c =? 194) && (code d =? 160))%N with false by (rewrite Hc; done).
      destruct r2 as [|e r3]; [done|]. by rewrite Hc.
    - eauto. }
  destruct r1 as [|d [|e r3]]; [done..|].
  case_if H1; [|done].
  intros [= <-]. bool_to_prop H1. destruct H1 as [[Hc' Hd] He]. split; [|split].
  - exists (String c (String d (String e EmptyString))). split; [done|]. split; [done|].
    intros x [->|[->|[->|[]%elem_of_nil]%elem_of_cons]%elem_of_cons]%elem_of_cons; lia.
  - intros x. rewrite !app_cons.
    apply N.eqb_neq in Hc as Hc45. rewrite Hc45.
    split.
    + replace ((code c =? 226) && (code d =? 128) && ((code e =? 147) || (code e =? 148)))%N
        with true; [done|].
      symmetry. rewrite !andb_true_iff, orb_true_iff, !N.eqb_eq. lia.
    + unfold ws1. rewrite Hc', Hd.
      destruct He as [-> | ->]; reflexivity.
  - eauto.
Qed.

Lemma nonempty_length (p : string) : p <> EmptyString -> (0 < String.length p)%nat.
Proof. destruct p; [done|cbn; lia]. Qed.

Lemma skip_ws_spec (fuel : nat) (s : string) :
  (String.length s <= fuel)%nat ->
  exists p, s = p +:+ skip_ws fuel s /\ forall c, c ∈ chars p -> tail_byte c.
Proof.
  revert s. induction fuel as [|n IH]; intros s Hlen.
  - exists EmptyString. split; [done|]. by intros c ?%elem_of_nil.
  - cbn [skip_ws]. destruct (ws1 s) as [r|] eqn:Hw.
    + destruct (ws1_consumes s r Hw) as (p0 & -> & Hp0%nonempty_length & Hbytes).
      rewrite string_app_length in Hlen.
      destruct (IH r ltac:(lia)) as (p & Hr & Hp).
      exists (p0 +:+ p). split; [by rewrite string_app_assoc, <- Hr|].
      intros c. rewrite chars_app, elem_of_app. intros [?|?]; auto.
    + exists EmptyString. split; [done|]. by intros c ?%elem_of_nil.
Qed.

Lemma skip_ws_app (n m : nat) (r x r2 : string) :
  (String.length r <= n)%nat -> (String.length (r +:+ x) <= m)%nat ->
  dash1 (skip_ws n r) = Some r2 ->
  skip_ws m (r +:+ x) = skip_ws n r +:+ x.
Proof.
  revert r m. induction n as [|n IH]; intros r m Hn Hm.
  - destruct r; [done|cbn in Hn; lia].
  - cbn [skip_ws]. destruct (ws1 r) as [r'|] eqn:Hw.
    + destruct (ws1_consumes r r' Hw) as (p0 & Hr & Hp0%nonempty_length & _).
      pose proof (ws1_app r r' x Hw) as Hw'. intros Hd.
      assert (Hlen : (String.length r' < String.length r)%nat).
      { rewrite Hr, string_app_length. lia. }
      rewrite string_app_length in Hm.
      destruct m as [|m]; [lia|]. cbn [skip_ws]. rewrite Hw'.
      apply (IH r' m); [lia|rewrite string_app_length; lia|done].
    + intros Hd. destruct (dash1_consumes r r2 Hd) as (_ & Hx & _).
      destruct (Hx x) as [_ Hnone].
      destruct m as [|m]; [done|]. cbn [skip_ws]. by rewrite Hnone.
Qed.

Lemma includes_char (c : ascii) (s : string) :
  includes (String c EmptyString) s = true <-> c ∈ chars s.
Proof.
  induction s as [|d s IH]; [by rewrite elem_of_nil|].
  rewrite includes_cons, orb_true_iff, IH. cbn [startsWith chars].
  rewrite andb_true_r, Ascii.eqb_eq, elem_of_cons. tauto.
Qed.

Lemma tail_byte_not_bar (c : ascii) : tail_byte c -> c <> "|"%char.
Proof. intros Hc ->. unfold tail_byte in Hc. change (code "|") with 124%N in Hc. lia. Qed.

Lemma source_tail_app (m1 y : string) :
  source_tail m1 = true -> "|"%char ∉ chars y -> source_tail (m1 +:+ y) = true.
Proof.
  unfold source_tail. intros Hm Hy.
  destruct (ws1 m1) as [r|] eqn:Hw; [|done]. rewrite (ws1_app _ _ y Hw).
  destruct (dash1 (skip_ws (String.length r) r)) as [r2|] eqn:Hd; [|done].
  rewrite (skip_ws_app (String.length r) (String.length (r +:+ y)) r y r2) by done.
  destruct (dash1_consumes _ _ Hd) as (_ & Hx & _). destruct (Hx y) as [-> _].
  destruct (ws1 r2) as [r3|] eqn:Hw2; [|done]. rewrite (ws1_app _ _ y Hw2).
  apply andb_true_iff in Hm as [Hne Hbar]. apply andb_true_iff. split.
  - destruct r3; [done|]. by rewrite app_cons.
  - apply negb_true_iff. apply negb_true_iff in Hbar.
    apply not_true_iff_false. rewrite includes_char, chars_app, elem_of_app.
    intros [Hin|Hin]; [|done]. apply includes_char in Hin. congruence.
Qed.

Lemma source_tail_chars (m : string) :
  source_tail m = true ->
  ("|"%char ∉ chars m)
  /\ exists c, c ∈ chars m /\ (code c = 45 \/ code c = 226)%N.
Proof.
  unfold source_tail.
  destruct (ws1 m) as [r|] eqn:Hw; [|done].
  destruct (dash1 (skip_ws (String.length r) r)) as [r2|] eqn:Hd; [|done].
  destruct (ws1 r2) as [r3|] eqn:Hw2; [|done].
  intros [_ Hbar%negb_true_iff]%andb_true_iff.
  destruct (ws1_consumes _ _ Hw) as (p1 & -> & _ & Hp1).
  destruct (skip_ws_spec (String.length r) r (le_n _)) as (p2 & Hr & Hp2).
  destruct (dash1_consumes _ _ Hd) as ((p3 & Hs & _ & Hp3) & _ & (c & s' & Hhead & Hc)).
  destruct (ws1_consumes _ _ Hw2) as (p4 & -> & _ & Hp4).
  split.
  - rewrite Hr, Hs, !chars_app, !elem_of_app.
    intros [Hin|[Hin|[Hin|[Hin|Hin]]]];
      try (by eapply tail_byte_not_bar; eauto).
    apply includes_char in Hin. congruence.
  - exists c. split; [|done]. rewrite Hr, Hhead, !chars_app, !elem_of_app.
    right; right. apply list_elem_of_here.
Qed.

(** What [stripSourceTail] cuts off: the leftmost end of the title that
    matches the pattern. *)
Lemma stripSourceTail_spec (t : string) :
  exists m, t = stripSourceTail t +:+ m
    /\ (m = EmptyString \/ source_tail m = true)
    /\ forall p1 m1, stripSourceTail t = p1 +:+ m1 -> m1 <> EmptyString ->
         source_tail (m1 +:+ m) = false.
Proof.
  induction t as [|c t IH].
  - exists EmptyString. split; [done|]. split; [by left|].
    intros p1 m1 Heq. cbn in Heq. by destruct p1, m1.
  - cbn [stripSourceTail]. destruct (source_tail (String c t)) eqn:Hst.
    + exists (String c t). split; [done|]. split; [by right|].
      intros p1 m1 Heq. by destruct p1, m1.
    + destruct IH as (m & Ht & Hm & Hmin). exists m.
      split; [by rewrite app_cons, <- Ht|]. split; [done|].
      intros [|d p1] m1; app_norm.
      * intros <- _. by rewrite app_cons, <- Ht.
      * intros [= <- Heq]. by apply (Hmin p1).
Qed.

Lemma stripSourceTail_no_match (p : string) :
  (forall p1 m1, p = p1 +:+ m1 -> m1 <> EmptyString -> source_tail m1 = false) ->
  stripSourceTail p = p.
Proof.
  induction p as [|c p IH]; intros Hno; [done|].
  cbn [stripSourceTail]. rewrite (Hno EmptyString (String c p)) by done.
  f_equal. apply IH. intros p1 m1 -> Hne. by apply (Hno (String c p1) m1).
Qed.

(** X29. Stripping the source tail twice is stripping it once; what is
    stripped is an end of the title, either nothing or a text that matches
    the pattern (white space, a dash, white space, then a text without
    [|]); and a title in which neither a hyphen nor the first byte of an
    en or em dash (226) occurs comes back as it is. *)
Theorem stripSourceTail_idempotent (t : string) :
  stripSourceTail (stripSourceTail t) = stripSourceTail t
  /\ (exists m, t = stripSourceTail t +:+ m /\ (m = EmptyString \/ source_tail m = true))
  /\ ((forall c, c ∈ chars t -> code c <> 45%N /\ code c <> 226%N) ->
      stripSourceTail t = t).
Proof.
  destruct (stripSourceTail_spec t) as (m & Ht & Hm & Hmin).
  split; [|split].
  - apply stripSourceTail_no_match. intros p1 m1 Hp Hne.
    destruct (source_tail m1) eqn:Hst; [|done].
    rewrite <- (Hmin p1 m1 Hp Hne). symmetry. apply source_tail_app; [done|].
    destruct Hm as [->|Hm]; [by intros ?%elem_of_nil|].
    by apply source_tail_chars.
  - by exists m.
  - intros Hnodash. apply stripSourceTail_no_match. intros p1 m1 -> Hne.
    destruct (source_tail m1) eqn:Hst; [|done].
    destruct (source_tail_chars m1 Hst) as (_ & c & Hc & Hcode).
    destruct (Hnodash c); [|lia]. rewrite chars_app, elem_of_app. by right.
Qed.

Lemma inert_no_match (c : ascii) (s : string) :
  inert c = true -> ws1 (String c s) = None /\ dash1 (String c s) = None.
Proof.
  unfold inert. intros Hc. apply negb_true_iff in Hc. bool_to_prop Hc.
  assert (Hn : forall k : N, k <> code c -> (code c =? k)%N = false)
    by (intros k Hk; apply N.eqb_neq; lia).
  split.
  - unfold ws1.
    replace ((9 <=? code c) && (code c <=? 13) || (code c =? 32))%N with false; cycle 1.
    { symmetry. apply orb_false_iff. split; [|apply Hn; lia].
      apply andb_false_iff. rewrite !N.leb_gt. lia. }
    destruct s as [|d r2]; [done|]. rewrite (Hn 194%N) by lia. cbn [andb].
    destruct r2 as [|e r3]; [done|].
    by rewrite (Hn 225%N), (Hn 226%N), (Hn 227%N), (Hn 239%N) by lia.
  - unfold dash1. rewrite (Hn 45%N) by lia.
    destruct s as [|d [|e r3]]; [done..|]. by rewrite (Hn 226%N) by lia.
Qed.

Lemma ws1_space (s : string) : ws1 (String " " s) = Some s.
Proof. reflexivity. Qed.

Lemma plain_skip (s x : string) (fuel : nat) :
  plain_title s = true -> s <> EmptyString -> (String.length s <= fuel)%nat ->
  dash1 (skip_ws fuel (s +:+ x)) = None.
Proof.
  revert fuel. induction s as [|c s IH]; intros fuel Hp Hne0 Hlen; [done|].
  cbn [plain_title] in Hp. apply andb_true_iff in Hp as [Hc Hs].
  rewrite app_cons. destruct (inert c) eqn:Hi.
  - destruct (inert_no_match c (s +:+ x) Hi) as [Hw Hd].
    destruct fuel as [|fuel]; cbn [skip_ws]; by rewrite ?Hw.
  - cbn [orb] in Hc. apply andb_true_iff in Hc as [->%Ascii.eqb_eq Hne].
    apply negb_true_iff, is_empty_false in Hne.
    cbn [String.length] in Hlen. destruct fuel as [|fuel]; [lia|].
    cbn [skip_ws]. rewrite ws1_space. apply IH; [done..|lia].
Qed.

Lemma plain_no_tail (s x : string) :
  plain_title s = true -> s <> EmptyString -> source_tail (s +:+ x) = false.
Proof.
  destruct s as [|c s]; [done|]. intros Hp _.
  cbn [plain_title] in Hp. apply andb_true_iff in Hp as [Hc Hs].
  rewrite app_cons. unfold source_tail. destruct (inert c) eqn:Hi.
  - by destruct (inert_no_match c (s +:+ x) Hi) as [-> _].
  - cbn [orb] in Hc. apply andb_true_iff in Hc as [->%Ascii.eqb_eq Hne].
    apply negb_true_iff, is_empty_false in Hne. rewrite ws1_space.
    rewrite plain_skip; [done..|]. rewrite string_app_length. lia.
Qed.

Lemma plain_title_suffix (p1 m1 : string) :
  plain_title (p1 +:+ m1) = true -> plain_title m1 = true.
Proof.
  induction p1 as [|c p1 IH]; [done|]. rewrite app_cons. cbn [plain_title].
  intros [_ Hp]%andb_true_iff. auto.
Qed.

Lemma DASHES_dash1 (dash x : string) :
  dash ∈ DASHES -> dash1 (dash +:+ x) = Some x /\ ws1 (dash +:+ x) = None.
Proof.
  intros Hd. assert (Hdash : dash1 dash = Some EmptyString).
  { unfold DASHES in Hd.
    repeat (apply elem_of_cons in Hd as [->|Hd]); try (by apply elem_of_nil in Hd); done. }
  destruct (dash1_consumes _ _ Hdash) as (_ & Hx & _). apply Hx.
Qed.

Lemma source_tail_appended (dash src : string) :
  dash ∈ DASHES -> src <> EmptyString -> "|"%char ∉ chars src ->
  source_tail (" " +:+ dash +:+ " " +:+ src) = true.
Proof.
  intros Hd Hne Hbar. rewrite (app_cons " "), app_empty_l.
  unfold source_tail. rewrite ws1_space.
  destruct (DASHES_dash1 dash (" " +:+ src) Hd) as [Hdash Hws].
  assert (Hskip : forall fuel, skip_ws fuel (dash +:+ " " +:+ src) = dash +:+ " " +:+ src).
  { intros [|fuel]; [done|]. cbn [skip_ws]. by rewrite Hws. }
  rewrite Hskip, Hdash, app_cons, app_empty_l, ws1_space.
  apply andb_true_iff. split; [by destruct src|].
  apply negb_true_iff, not_true_iff_false. by rewrite includes_char.
Qed.

Lemma stripSourceTail_app (p m : string) :
  source_tail m = true ->
  (forall p1 m1, p = p1 +:+ m1 -> m1 <> EmptyString -> source_tail (m1 +:+ m) = false) ->
  stripSourceTail (p +:+ m) = p.
Proof.
  intros Hm. induction p as [|c p IH]; intros Hno.
  - rewrite app_empty_l. destruct m; [done|]. cbn [stripSourceTail]. by rewrite Hm.
  - rewrite app_cons. cbn [stripSourceTail].
    rewrite <- app_cons, (Hno EmptyString (String c p)) by done.
    f_equal. apply IH. intros p1 m1 -> Hne. by apply (Hno (String c p1) m1).
Qed.

Section SourceTail.
Context `{Platform}.

(** X30. The fuzzy key does not see the source an aggregator appends.
    For a plain title followed by a space, a hyphen or an en or em dash,
    a space and a source name without [|], [stripSourceTail] returns the
    plain title, the fuzzy key is the key of the plain title, and two
    items that are identified by their titles alone get the same identity
    key.  A plain title ([plain_title]) is made of words separated by
    spaces and does not end with a space; it holds no other ASCII white
    space, no hyphen, and none of the bytes 194, 225, 226, 227 and 239
    with which the white space and the dashes beyond ASCII begin: every
    title of ASCII letters, digits and punctuation other than the hyphen
    is plain, a title that holds a character such as U+2019 is not. *)
Theorem fuzzyTitleKey_ignores_source (t dash src : string) (a b : RawItem) :
  plain_title t = true -> dash ∈ DASHES -> src <> EmptyString ->
  "|"%char ∉ chars src ->
  let long := t +:+ " " +:+ dash +:+ " " +:+ src in
  stripSourceTail long = t
  /\ stripSourceTail t = t
  /\ fuzzyTitleKey long = fuzzyTitleKey t
  /\ (absent (cluster_id a) -> absent (canonical_id a) -> absent (canonical_url a) ->
      absent (url a) -> absent (cluster_id b) -> absent (canonical_id b) ->
      absent (canonical_url b) -> absent (url b) ->
      title a = Some t -> title b = Some long ->
      dedupeKey a = dedupeKey b).
Proof.
  intros Hplain Hdash Hne Hbar long.
  assert (Hnone : forall p1 m1 x, t = p1 +:+ m1 -> m1 <> EmptyString ->
            source_tail (m1 +:+ x) = false).
  { intros p1 m1 x -> Hm1. apply plain_no_tail; [|done].
    by apply (plain_title_suffix p1). }
  assert (Hlong : stripSourceTail long = t).
  { apply stripSourceTail_app; [by apply source_tail_appended|].
    intros p1 m1. apply Hnone. }
  assert (Hshort : stripSourceTail t = t).
  { apply stripSourceTail_no_match. intros p1 m1 Ht Hm1.
    rewrite <- (string_app_empty_r m1). by apply (Hnone p1). }
  assert (Hkey : fuzzyTitleKey long = fuzzyTitleKey t).
  { unfold fuzzyTitleKey. cbn zeta. by rewrite Hlong, Hshort. }
  split; [done|]. split; [done|]. split; [done|].
  unfold absent, dedupeKey. intros -> -> -> -> -> -> -> -> -> ->. by cbn [or_empty].
Qed.
End SourceTail.

(** ** The examples of the specification, on the reference platform *)

Lemma fresh_invariant : seq_invariant fresh.
Proof.
  exists 0. split; [done|]. split.
  - intros k v Hk. unfold fresh in Hk. cbn [map] in Hk. by rewrite lookup_empty in Hk.
  - intros k1 k2 v Hk. unfold fresh in Hk. cbn [map] in Hk. by rewrite lookup_empty in Hk.
Qed.

Section Examples.
#[local] Existing Instance reference_platform.

Lemma dedupeKey_priority_witness :
  dedupeKey both_signals = "c:X"
  /\ dedupeKey both_signals = dedupeKey only_cluster
  /\ dedupeKey both_signals <> dedupeKey only_canonical_url.
Proof.
  destruct (dedupeKey_priority both_signals) as (Hc & _ & _ & _ & _ & Hsame & Hdiff).
  split; [|split].
  - apply (Hc "X"). split; [reflexivity|discriminate].
  - apply (Hsame "X"); (split; [reflexivity|discriminate]).
  - apply (Hdiff "X"); [split; [reflexivity|discriminate]|reflexivity].
Defined.

(** C2, as stated, fails on its own example: the mobile label stays and
    the case of the path is kept. *)
Lemma hostPath_example_differs :
  hostPath "https://M.Example.com/Story/" = "m.example.com/Story"
  /\ hostPath "https://example.com/story" = "example.com/story"
  /\ hostPath "https://M.Example.com/Story/" <> hostPath "https://example.com/story".
Proof. split; [|split]; [vm_compute; reflexivity..|vm_compute; discriminate]. Qed.

(** The case of the path alone already tells the two apart. *)
Lemma hostPath_keeps_path_case :
  hostPath "https://example.com/Story/" <> hostPath "https://example.com/story".
Proof. vm_compute. discriminate. Qed.

Lemma hostPath_normalizes_witness :
  hostPath "https://Example.com/Story/?ref=x#top" = "example.com/Story"
  /\ hostPath "https://Example.com/Story/?ref=x#top" = hostPath "https://example.com/Story"
  /\ hostPath "example.com/a?x#y" = "example.com/a".
Proof.
  destruct (hostPath_normalizes "https://Example.com/Story/?ref=x#top") as [Hparsed _].
  destruct (Hparsed {| host := "example.com"; pathname := "/Story/" |})
    as (Hslash & _ & _ & Hsame); [vm_compute; reflexivity..|].
  split; [|split].
  - apply (Hslash "/Story"); [reflexivity|discriminate].
  - apply (Hsame "https://example.com/Story"
             {| host := "example.com"; pathname := "/Story" |} "/Story");
      [vm_compute; reflexivity|reflexivity|reflexivity|reflexivity|discriminate|reflexivity].
  - destruct (hostPath_normalizes "example.com/a?x#y") as [_ Hfail].
    destruct Hfail as [Hcut _]; [vm_compute; reflexivity|].
    rewrite Hcut. reflexivity.
Defined.

(** C3, as stated, fails for an item dated by [published] only: by
    [published_utc] it has no timestamp and the other item is newer, yet
    it is the one that is kept. *)
Lemma chooseBetter_uses_published :
  dedupeKey legacy_item = dedupeKey dated_item
  /\ published_time legacy_item < published_time dated_item
  /\ chooseBetter legacy_item dated_item = legacy_item
  /\ chooseBetter legacy_item dated_item <> dated_item.
Proof.
  split; [reflexivity|]. split; [vm_compute; reflexivity|].
  split; [vm_compute; reflexivity|vm_compute; discriminate].
Qed.

Lemma chooseBetter_order_witness :
  chooseBetter google_item reuters_item = reuters_item
  /\ chooseBetter reuters_item google_item = reuters_item.
Proof.
  destruct (chooseBetter_order google_item reuters_item)
    as (_ & _ & _ & _ & _ & _ & _ & _ & _ & Hscenario).
  apply (Hscenario "2024-01-01T00:00:00Z");
    [split; [reflexivity|discriminate]|split; [reflexivity|discriminate]
    |reflexivity|reflexivity|vm_compute; reflexivity].
Defined.

Lemma empty_map_invariant (c : Z) :
  seq_invariant {| counter := Num c; map := ∅; indexed := None |}.
Proof.
  exists c. split; [done|]. cbn [map]. split.
  - intros k v Hk. by rewrite lookup_empty in Hk.
  - intros k1 k2 v Hk. by rewrite lookup_empty in Hk.
Qed.

(** C4, as stated, fails in two ways.  At the counter 2^53 the sum
    [counter + 1] is 2^53 again, so that two new keys get the same
    number.  And of a stored map that is an array the new keys are not
    written back, so that the next pass gives the same keys new
    numbers. *)
Lemma invariant_not_kept :
  (seq_invariant (loadSeqState big_counter_store)
   /\ (assignStableSeq [storm_second; flood_item] big_counter_store).1
      = [ranked (2 ^ 53) storm_second; ranked (2 ^ 53) flood_item]
   /\ ~ seq_invariant
          (assign_loop (loadSeqState big_counter_store) false [storm_second; flood_item]).1.2)
  /\ (seq_invariant (loadSeqState array_store)
      /\ (assignStableSeq [storm_second; flood_item] array_store).1
         = [ranked 1 storm_second; ranked 2 flood_item]
      /\ (assignStableSeq [storm_second; flood_item]
            (assignStableSeq [storm_second; flood_item] array_store).2).1
         = [ranked 3 storm_second; ranked 4 flood_item]).
Proof.
  split; (split; [|split]).
  - assert (loadSeqState big_counter_store
            = {| counter := Num (2 ^ 53); map := ∅; indexed := None |}) as ->
      by (vm_compute; reflexivity).
    apply empty_map_invariant.
  - vm_compute. reflexivity.
  - intros (c & _ & _ & Hinj).
    specialize (Hinj "c:s1" "u:example.com/flood" (JNum (Num (2 ^ 53)))).
    discriminate Hinj; vm_compute; reflexivity.
  - assert (loadSeqState array_store
            = {| counter := Num 0; map := ∅; indexed := Some [] |}) as ->
      by (vm_compute; reflexivity).
    exists 0. split; [done|]. cbn [map]. split.
    + intros k v Hk. by rewrite lookup_empty in Hk.
    + intros k1 k2 v Hk. by rewrite lookup_empty in Hk.
  - vm_compute. reflexivity.
  - vm_compute. reflexivity.
Qed.

Lemma assign_keeps_invariant_witness :
  seq_invariant (assign_loop (loadSeqState empty_store) false first_feed).1.2
  /\ assignStableSeq first_feed (assignStableSeq first_feed empty_store).2
     = assignStableSeq first_feed empty_store.
Proof.
  destruct (assign_keeps_invariant empty_store first_feed fresh_invariant)
    as (Hinv & _ & _ & Hrb).
  - exists 0. split; [reflexivity|]. split; vm_compute; discriminate.
  - split; [exact Hinv|].
    apply Hrb; [reflexivity|]. split; [vm_compute; discriminate|vm_compute; reflexivity].
Defined.



(** C6, as stated, fails in four ways: on storage that refuses the write
    of the first cycle (the second cycle starts from nothing again); for
    a stored map that is an array (the numbers of the first cycle are not
    written back); at the counter 2^53 (every new key gets 2^53); and for
    a stored record that holds a number above its counter.  In each case
    the story of the quake, new in the second cycle, does not get a
    number above those of the first cycle, or stands below an item of the
    first cycle. *)
Lemma new_key_not_promoted :
  (two_cycles full_store
   = (feed_of first_output None,
      feed_of [ranked 3 flood_item; ranked 2 quake_item; ranked 1 storm_second] None)
   /\ ~ promoted (loadSeqState full_store) first_feed first_output
          [ranked 3 flood_item; ranked 2 quake_item; ranked 1 storm_second])
  /\ (two_cycles array_store
      = (feed_of first_output None,
         feed_of [ranked 5 flood_item; ranked 4 quake_item; ranked 3 storm_second] None)
      /\ ~ promoted (loadSeqState array_store) first_feed first_output
             [ranked 5 flood_item; ranked 4 quake_item; ranked 3 storm_second])
  /\ (two_cycles big_counter_store
      = (feed_of [ranked (2 ^ 53) flood_item; ranked (2 ^ 53) storm_second] None,
         feed_of [ranked (2 ^ 53) quake_item; ranked (2 ^ 53) flood_item;
                  ranked (2 ^ 53) storm_second] None)
      /\ ~ promoted (loadSeqState big_counter_store) first_feed
             [ranked (2 ^ 53) flood_item; ranked (2 ^ 53) storm_second]
             [ranked (2 ^ 53) quake_item; ranked (2 ^ 53) flood_item;
              ranked (2 ^ 53) storm_second])
  /\ (two_cycles ahead_store
      = (feed_of [ranked 5 storm_second; ranked 1 flood_item] None,
         feed_of [ranked 5 storm_second; ranked 2 quake_item; ranked 1 flood_item] None)
      /\ ~ promoted (loadSeqState ahead_store) first_feed
             [ranked 5 storm_second; ranked 1 flood_item]
             [ranked 5 storm_second; ranked 2 quake_item; ranked 1 flood_item]).
Proof.
  split; [|split; [|split]]; (split; [vm_compute; reflexivity|]); intros Hp.
  - destruct (Hp (ranked 2 quake_item)) as (zx & [= <-] & Hall & _);
      [apply list_elem_of_further, list_elem_of_here|vm_compute; reflexivity
      |apply (bool_decide_unpack _); by vm_compute|].
    destruct (Hall (ranked 2 flood_item)) as (zy & [= <-] & Hlt);
      [apply list_elem_of_here|lia].
  - destruct (Hp (ranked 4 quake_item)) as (zx & _ & _ & Hpos);
      [apply list_elem_of_further, list_elem_of_here|vm_compute; reflexivity
      |apply (bool_decide_unpack _); by vm_compute|].
    specialize (Hpos (ranked 5 flood_item) 1%nat 0%nat eq_refl eq_refl).
    assert (1 < 0)%nat; [|lia].
    apply Hpos. apply (bool_decide_unpack _). by vm_compute.
  - destruct (Hp (ranked (2 ^ 53) quake_item)) as (zx & [= <-] & Hall & _);
      [apply list_elem_of_here|vm_compute; reflexivity
      |apply (bool_decide_unpack _); by vm_compute|].
    destruct (Hall (ranked (2 ^ 53) flood_item)) as (zy & [= <-] & Hlt);
      [apply list_elem_of_here|lia].
  - destruct (Hp (ranked 2 quake_item)) as (zx & [= <-] & Hall & _);
      [apply list_elem_of_further, list_elem_of_here|vm_compute; reflexivity
      |apply (bool_decide_unpack _); by vm_compute|].
    destruct (Hall (ranked 5 storm_second)) as (zy & [= <-] & Hlt);
      [apply list_elem_of_here|lia].
Qed.

Lemma new_keys_rank_first_witness :
  exists out1 out2,
    (normalize (Some {| items := Some first_feed; generated_utc := None |}) empty_store).1
    = Some {| items := Some out1; generated_utc := None |}
    /\ (normalize (Some {| items := Some second_feed; generated_utc := None |})
          (normalize (Some {| items := Some first_feed; generated_utc := None |})
             empty_store).2).1
       = Some {| items := Some out2; generated_utc := None |}
    /\ (forall k, k ∈ (dedupeKey <$> out1) <-> k ∈ (dedupeKey <$> first_feed))
    /\ (forall k, k ∈ (dedupeKey <$> out2) <-> k ∈ (dedupeKey <$> second_feed))
    /\ promoted (loadSeqState empty_store) first_feed out1 out2.
Proof.
  apply (new_keys_rank_first empty_store first_feed second_feed None None fresh_invariant).
  - reflexivity.
  - exists 0. split; [reflexivity|]. split; vm_compute; discriminate.
  - split; reflexivity.
  - split; [vm_compute; discriminate|vm_compute; reflexivity].
Defined.

(** C7, as stated, fails for a counter that is not a number: the record
    that is returned has the counter [NaN] and the stored map. *)
Lemma loadSeqState_keeps_bad_counter :
  counter (loadSeqState bad_counter_store) = NaN
  /\ map (loadSeqState bad_counter_store) !! "c:x" = Some (JNum (Num 3))
  /\ loadSeqState bad_counter_store <> fresh.
Proof.
  split; [vm_compute; reflexivity|]. split; [vm_compute; reflexivity|].
  intros Heq. apply (f_equal counter) in Heq. vm_compute in Heq. discriminate Heq.
Qed.

Lemma loadSeqState_defaults_witness :
  (loadSeqState not_json_store = fresh
   /\ loadSeqState not_json_store = loadSeqState empty_store)
  /\ loadSeqState opaque_counter_store = fresh
  /\ (map (loadSeqState array_store) = array_map []
      /\ indexed (loadSeqState array_store) = Some []).
Proof.
  split; [|split].
  - destruct (loadSeqState_defaults not_json_store) as (_ & _ & _ & _ & _ & _ & Hnot).
    apply Hnot; [reflexivity|vm_compute; reflexivity].
  - destruct (loadSeqState_defaults opaque_counter_store) as (_ & _ & _ & _ & _ & Hobj & _).
    destruct (Hobj (ref_JSON_stringify
                      (JObj [("counter", JObj [("toString", JNum (Num 1))]);
                             ("map", JObj [("c:x", JNum (Num 3))])]))
                   [("counter", JObj [("toString", JNum (Num 1))]);
                    ("map", JObj [("c:x", JNum (Num 3))])])
      as (_ & _ & Hthrows & _);
      [reflexivity|reflexivity|vm_compute; discriminate|vm_compute; reflexivity|].
    apply Hthrows. vm_compute. reflexivity.
  - destruct (loadSeqState_defaults array_store) as (_ & _ & _ & _ & _ & Hobj & _).
    destruct (Hobj (ref_JSON_stringify (JObj [("counter", JNum (Num 0)); ("map", JArr [])]))
                   [("counter", JNum (Num 0)); ("map", JArr [])])
      as (_ & _ & _ & Hreads);
      [reflexivity|reflexivity|vm_compute; discriminate|vm_compute; reflexivity|].
    destruct Hreads as (_ & _ & Harr & _); [vm_compute; reflexivity|].
    apply Harr. vm_compute. reflexivity.
Defined.


Lemma dedupeItems_one_per_cluster_witness :
  length (filter (fun it => dedupeKey it = "c:s1") (dedupeItems first_feed)) = 1%nat
  /\ length (filter (fun it => dedupeKey it = "c:s1") (dedupeItems (reverse first_feed)))
     = 1%nat.
Proof.
  destruct (dedupeItems_one_per_cluster first_feed storm_first storm_second "s1")
    as [Hcount _].
  - apply list_elem_of_here.
  - apply list_elem_of_further, list_elem_of_here.
  - split; [reflexivity|discriminate].
  - split; [reflexivity|discriminate].
  - split; apply Hcount; [reflexivity|apply reverse_Permutation].
Defined.

(** C10, as stated, fails where the counter cannot count: for a stored
    counter that is not a number every new key gets [NaN], and at the
    counter 2^53 every new key gets 2^53. *)
Lemma new_keys_not_increasing :
  (assignStableSeq (dedupeItems second_feed) bad_counter_store).1
  = [set_seq (Some (JNum NaN)) storm_second; set_seq (Some (JNum NaN)) quake_item;
     set_seq (Some (JNum NaN)) flood_item]
  /\ (assignStableSeq (dedupeItems second_feed) big_counter_store).1
     = [ranked (2 ^ 53) storm_second; ranked (2 ^ 53) quake_item;
        ranked (2 ^ 53) flood_item].
Proof. split; vm_compute; reflexivity. Qed.

Lemma dedupe_then_assign_order_witness :
  dedupeKey <$> (assignStableSeq (dedupeItems second_feed) empty_store).1
  = first_seen (dedupeKey <$> second_feed)
  /\ Forall (fun x => dedupeKey x = "u:example.com/quake" -> seq_number x = Some 2)
       (assignStableSeq (dedupeItems second_feed) empty_store).1.
Proof.
  destruct (dedupe_then_assign_order second_feed empty_store)
    as (_ & _ & _ & Hkeys & _ & Hnum).
  split; [exact Hkeys|].
  apply Forall_forall. intros x Hx Hk.
  apply (Hnum 0 eq_refl) with (i := 1%nat) (k := "u:example.com/quake");
    [split; vm_compute; discriminate|vm_compute; reflexivity|exact Hx|exact Hk].
Defined.

(** The further properties, on the items of the examples. *)

Lemma escapeHtml_safe_witness :
  exists e, e ∈ ENTITY_TAILS /\ startsWith e "lt;b" = true.
Proof.
  destruct (escapeHtml_safe (Some "a<b")) as (_ & Hamp & _).
  apply (Hamp "a" "lt;b"). reflexivity.
Defined.

Lemma escapeHtml_app_witness :
  escapeHtml (Some "a<b") = String "a" (escapeHtml (Some "<b")).
Proof.
  destruct (escapeHtml_app "<b" EmptyString "a") as (_ & _ & Hplain).
  apply Hplain. reflexivity.
Defined.

Lemma escapeHtml_inj_witness : "Tom & Jerry" = "Tom & Jerry".
Proof. apply escapeHtml_inj. reflexivity. Defined.

Lemma escapeHtml_unchanged_witness :
  escapeHtml (Some (escapeHtml (Some "Storm hits region")))
  = escapeHtml (Some "Storm hits region").
Proof.
  destruct (escapeHtml_unchanged "Storm hits region") as [_ [_ Hfixed]].
  apply Hfixed. reflexivity.
Defined.

Lemma applyFilters_keeps_witness :
  flood_item ∈ applyFilters "General" (Some "World") first_feed.
Proof.
  destruct (applyFilters_keeps "General" (Some "World") first_feed) as (Hkeeps & _).
  apply Hkeeps. split; [|split].
  - apply list_elem_of_further, list_elem_of_further, list_elem_of_here.
  - right. reflexivity.
  - right. reflexivity.
Defined.

Lemma chooseBetter_comm_witness :
  chooseBetter google_item reuters_item = chooseBetter reuters_item google_item.
Proof.
  destruct (chooseBetter_comm google_item reuters_item) as [[_ Hsame] _].
  apply Hsame. right. intros (_ & Hagg & _). vm_compute in Hagg. discriminate Hagg.
Defined.

Lemma dedupeItems_keeps_best_witness :
  exists s, s ∈ dedupeItems first_feed /\ s ∈ first_feed
    /\ dedupeKey s = dedupeKey storm_first
    /\ at_least_as_good s storm_first
    /\ forall s', s' ∈ dedupeItems first_feed -> dedupeKey s' = dedupeKey storm_first ->
         s' = s.
Proof. apply dedupeItems_keeps_best. apply list_elem_of_here. Defined.

Lemma dedupeItems_idempotent_witness :
  dedupeItems [flood_item; quake_item] = [flood_item; quake_item].
Proof.
  destruct (dedupeItems_idempotent [flood_item; quake_item]) as (Hdistinct & _).
  apply Hdistinct. apply (bool_decide_unpack (NoDup _)). vm_compute. reflexivity.
Defined.

Lemma first_feed_tie_free : tie_free first_feed.
Proof.
  intros a b Ha Hb Hk Htie. unfold first_feed in Ha, Hb.
  repeat (apply elem_of_cons in Ha as [->|Ha]); try (by apply elem_of_nil in Ha);
    repeat (apply elem_of_cons in Hb as [->|Hb]); try (by apply elem_of_nil in Hb);
    try reflexivity;
    try (vm_compute in Hk; discriminate Hk);
    destruct Htie as (Ht & _); vm_compute in Ht; discriminate Ht.
Qed.

Lemma dedupeItems_order_independent_witness :
  dedupeItems (reverse first_feed) ≡ₚ dedupeItems first_feed.
Proof.
  destruct (dedupeItems_order_independent first_feed (reverse first_feed)) as [Hperm _].
  - apply reverse_Permutation.
  - exact first_feed_tie_free.
  - exact Hperm.
Defined.

Lemma assignStableSeq_only_seq_witness :
  exists v, __seq (set_seq (Some (JNum (Num 1))) storm_first) = Some v /\ v <> JNull.
Proof.
  destruct (assignStableSeq_only_seq first_feed empty_store) as (_ & _ & _ & Hset).
  apply Hset. vm_compute. apply list_elem_of_here.
Defined.

Lemma assignStableSeq_same_key_witness :
  __seq (set_seq (Some (JNum (Num 1))) storm_first)
  = __seq (set_seq (Some (JNum (Num 1))) storm_second).
Proof.
  destruct (assignStableSeq_same_key first_feed empty_store) as (_ & Hsame & _).
  apply Hsame.
  - vm_compute. apply list_elem_of_here.
  - vm_compute. apply list_elem_of_further, list_elem_of_here.
  - reflexivity.
Defined.

Lemma assignStableSeq_first_run_witness :
  (assignStableSeq [flood_item; quake_item] empty_store).1
  = [set_seq (Some (JNum (Num 1))) flood_item; set_seq (Some (JNum (Num 2))) quake_item].
Proof.
  destruct (assignStableSeq_first_run [flood_item; quake_item] empty_store) as (Hrun & _).
  rewrite Hrun; [reflexivity|reflexivity| |vm_compute; discriminate].
  apply (bool_decide_unpack (NoDup _)). vm_compute. reflexivity.
Defined.

Lemma normalize_keeps_stories_witness :
  (normalize (Some {| items := Some first_feed; generated_utc := None |}) opaque_store).1
  = None
  /\ exists out,
       Some first_output = Some out
       /\ dedupeKey <$> out ≡ₚ first_seen (dedupeKey <$> first_feed)
       /\ NoDup (dedupeKey <$> out)
       /\ (forall k, k ∈ (dedupeKey <$> out) <-> k ∈ (dedupeKey <$> first_feed))
       /\ (forall x, x ∈ out -> exists it, it ∈ first_feed /\ x = set_seq (__seq x) it).
Proof.
  split.
  - destruct (normalize_keeps_stories first_feed None opaque_store) as (_ & Hthrows & _).
    apply Hthrows. split; [vm_compute; lia|].
    exists storm_first, (JObj [("toString", JNum (Num 1))]).
    split; [apply list_elem_of_here|]. split; vm_compute; reflexivity.
  - destruct (normalize_keeps_stories first_feed None empty_store) as (Hout & _).
    destruct (Hout {| items := Some first_output; generated_utc := None |}) as [_ Hitems];
      [vm_compute; reflexivity|exact Hitems].
Defined.

Lemma normalize_stable_witness :
  normalize (Some {| items := Some first_feed; generated_utc := None |})
    (normalize (Some {| items := Some first_feed; generated_utc := None |}) empty_store).2
  = normalize (Some {| items := Some first_feed; generated_utc := None |}) empty_store.
Proof.
  apply (normalize_stable first_feed None empty_store 0 eq_refl eq_refl).
  split; [vm_compute; discriminate|vm_compute; reflexivity].
Defined.

Lemma normalize_feed_order_witness :
  normalize (Some {| items := Some (reverse first_feed); generated_utc := None |})
    (assignStableSeq (dedupeItems first_feed) empty_store).2
  = normalize (Some {| items := Some first_feed; generated_utc := None |})
      (assignStableSeq (dedupeItems first_feed) empty_store).2.
Proof.
  destruct (normalize_feed_order first_feed (reverse first_feed) None
              (assignStableSeq (dedupeItems first_feed) empty_store).2) as [Hsame _].
  - rewrite (cycle_persists _ empty_store 0 eq_refl eq_refl);
      [|split; reflexivity|split; [vm_compute; discriminate|vm_compute; reflexivity]].
    rewrite assign_loop_state. apply loop_invariant; [apply fresh_invariant|].
    exists 0. split; [reflexivity|]. split; vm_compute; discriminate.
  - intros it Hit. unfold first_feed in Hit.
    repeat (apply elem_of_cons in Hit as [->|Hit]); try (by apply elem_of_nil in Hit);
      vm_compute; reflexivity.
  - apply reverse_Permutation.
  - exact first_feed_tie_free.
  - exact Hsame.
Defined.

Lemma tied_store_integer : integer_valued (loadSeqState tied_store).
Proof.
  assert (loadSeqState tied_store
          = {| counter := Num 1;
               map := <["c:a" := JNum (Num 1)]> (<["c:b" := JNum (Num 1)]> ∅);
               indexed := None |}) as ->
    by (vm_compute; reflexivity).
  split; [by exists 1|]. cbn [map].
  intros k v [[_ <-]|[_ [[_ <-]|[_ Hk]]%lookup_insert_Some]]%lookup_insert_Some;
    [by exists 1..|by rewrite lookup_empty in Hk].
Qed.

Lemma applyFilters_sorted_witness :
  exists out,
    (normalize (Some {| items := Some [old_item; undated_item]; generated_utc := None |})
       tied_store).1 = Some {| items := Some out; generated_utc := None |}
    /\ applyFilters "General" None out `sublist_of` out
    /\ StronglySorted ranks_before (applyFilters "General" None out).
Proof.
  exact (applyFilters_sorted [old_item; undated_item] None tied_store "General" None
           tied_store_integer).
Defined.

Lemma saveSeqState_roundtrip_witness :
  loadSeqState
    (saveSeqState (assign_loop fresh false first_feed).1.2 tied_store)
  = (assign_loop fresh false first_feed).1.2.
Proof.
  destruct (saveSeqState_roundtrip (assign_loop fresh false first_feed).1.2 tied_store 2)
    as [Hload _].
  - vm_compute. reflexivity.
  - split; [vm_compute; discriminate|vm_compute; reflexivity].
  - apply Hload; [split; reflexivity|vm_compute; reflexivity].
Defined.

Lemma dedupeKey_faithful_witness :
  dedupeKey (with_canonical_url "https://a.com/b" blank)
  = dedupeKey (with_url "https://a.com/b" blank).
Proof.
  destruct (dedupeKey_faithful (with_canonical_url "https://a.com/b" blank)
              (with_url "https://a.com/b" blank)) as (_ & _ & _ & _ & Hurl & _).
  apply (Hurl "https://a.com/b"); try reflexivity; split; (reflexivity || discriminate).
Defined.

Lemma fuzzyTitleKey_word_order_witness :
  fuzzyTitleKey "Storm hits region" = fuzzyTitleKey "Region: storm hits the region".
Proof.
  apply fuzzyTitleKey_word_order; [vm_compute; discriminate|].
  intros w. vm_compute significant. set_solver.
Defined.

Lemma tokenize_tokens_witness :
  tokenize (join "|" (tokenize "Storm Hits Region")) = tokenize "Storm Hits Region".
Proof.
  destruct (tokenize_tokens "Storm Hits Region" "|") as (_ & _ & Hjoin).
  destruct Hjoin as [Hback _]; [reflexivity|reflexivity|exact Hback].
Defined.

Lemma fuzzyTitleKey_shape_witness :
  exists toks,
    fuzzyTitleKey "Storm hits region" = "fk:" +:+ join "|" toks
    /\ (0 < length toks <= 12)%nat
    /\ StronglySorted string_lt toks
    /\ (forall w, w ∈ toks ->
          w ∈ significant "Storm hits region" /\ (1 < String.length w)%nat
          /\ (w ∉ STOPWORDS) /\ all_chars is_alnum w = true)
    /\ ((length (Set_from (significant "Storm hits region")) <= 12)%nat ->
        forall w, w ∈ significant "Storm hits region" -> w ∈ toks).
Proof.
  destruct (fuzzyTitleKey_shape "Storm hits region") as (Hsig & _).
  apply Hsig. vm_compute. discriminate.
Defined.

Lemma isAggregator_signature_witness :
  isAggregator (with_url "https://News.Google.com/articles/abc" blank) = true.
Proof.
  apply isAggregator_signature. left. exists "news.google".
  split; [apply list_elem_of_here|]. right. vm_compute. reflexivity.
Defined.

Lemma stripSourceTail_idempotent_witness :
  stripSourceTail "Storm hits region" = "Storm hits region".
Proof.
  destruct (stripSourceTail_idempotent "Storm hits region") as (_ & _ & Hplain).
  apply Hplain. intros c Hc. cbn in Hc.
  repeat (apply elem_of_cons in Hc as [->|Hc]; [split; vm_compute; discriminate|]).
  by apply elem_of_nil in Hc.
Defined.

Lemma fuzzyTitleKey_ignores_source_witness :
  stripSourceTail "Storm Hits Region - Example.com" = "Storm Hits Region"
  /\ fuzzyTitleKey "Storm Hits Region - Example.com" = fuzzyTitleKey "Storm Hits Region".
Proof.
  destruct (fuzzyTitleKey_ignores_source "Storm Hits Region" "-" "Example.com" blank blank)
    as (Hstrip & _ & Hkey & _).
  - reflexivity.
  - apply list_elem_of_here.
  - discriminate.
  - intros Hin. cbn in Hin.
    repeat (apply elem_of_cons in Hin as [Hin|Hin]; [discriminate Hin|]).
    by apply elem_of_nil in Hin.
  - split; [exact Hstrip|exact Hkey].
Defined.

Lemma assign_numbers_consecutive_witness :
  counter (assign_loop fresh false first_feed).1.2
  = Num (0 + Z.of_nat (length (new_keys fresh (dedupeKey <$> first_feed)))).
Proof.
  destruct (assign_numbers_consecutive fresh first_feed 0 eq_refl) as (Hcount & _).
  - split; vm_compute; discriminate.
  - exact Hcount.
Defined.

Lemma normalize_strictly_by_seq_witness :
  StronglySorted seq_above first_output
  /\ (forall x y, x ∈ first_output -> y ∈ first_output ->
        seq_number x = seq_number y -> x = y).
Proof.
  apply (normalize_strictly_by_seq first_feed None empty_store first_output fresh_invariant).
  - exists 0. split; [reflexivity|]. split; vm_compute; discriminate.
  - vm_compute. reflexivity.
Defined.

Lemma normalize_first_run_witness :
  (normalize (Some {| items := Some first_feed; generated_utc := None |}) empty_store).1
  = Some {| items :=
              Some (reverse
                      (imap (fun i it => set_seq (Some (JNum (Num (Z.of_nat i + 1)))) it)
                         (dedupeItems first_feed)));
            generated_utc := None |}.
Proof. apply normalize_first_run; [reflexivity|vm_compute; discriminate]. Defined.

Lemma dedupeItems_first_of_best_witness :
  exists l1 l2, first_feed = (l1 ++ storm_second :: l2)%list
    /\ (forall x, x ∈ l1 -> dedupeKey x = dedupeKey storm_second ->
          at_least_as_good storm_second x /\ ~ tie x storm_second)
    /\ (forall x, x ∈ l2 -> dedupeKey x = dedupeKey storm_second ->
          at_least_as_good storm_second x).
Proof.
  apply dedupeItems_first_of_best. vm_compute. apply list_elem_of_here.
Defined.
End Examples.
